(** * Whack-a-Mole: the game loop of [src/App.tsx], embedded and verified

    The React component [App] keeps its game in three kinds of storage:
    - React state ([moles], [score], [highScore], [timeLeft], [isPlaying]),
      read by a handler through the closure of the render that created it and
      written through setters;
    - refs ([lastHoleRef], [isPlayingRef], [gameTimerRef], [peepTimerRef]),
      mutable cells read and written in place;
    - the browser's timers ([window.setTimeout], [window.setInterval]).

    The embedding makes each of them explicit.  A [World] holds the committed
    React state, the refs and the pending timers.  A handler is a function on
    worlds; whatever it reads from a render closure is a parameter of the
    function (the [score] read by [endGame], the [moles] read by [peep]), and a
    timer stores the values its callback captured.  One event (a click, a timer
    callback) runs to completion and its state updates are applied in the order
    they were queued, each updater once, before the next event starts.  A
    world also carries the time and the due time of every timer, so that an
    event can only happen when the browser could deliver it.

    [Math.random] is an oracle: an event carries the draws it will consume.
    A JavaScript number is a binary64 double, here the rational it denotes.
    [randomTime] rounds every arithmetic result to the nearest double, as the
    engine does; the product of [randomHole], a draw times the length of the
    board, is taken exactly. *)

From Stdlib Require Import ZArith QArith Qround Qpower Qabs List Bool Lia Lqa.
Import ListNotations.

Open Scope Z_scope.

(** ** Data model ([src/types.ts]) *)

Inductive MoleStatus : Set := IDLE | UP | WHACKED.

Record MoleData : Set := mkMole { id : Z; status : MoleStatus }.

Definition MoleStatus_eqb (a b : MoleStatus) : bool :=
  match a, b with
  | IDLE, IDLE | UP, UP | WHACKED, WHACKED => true
  | _, _ => false
  end.

(** ** Game configuration *)

Definition GAME_DURATION : Z := 30.
Definition MIN_PEEP_TIME : Z := 400.
Definition MAX_PEEP_TIME : Z := 1000.
Definition HOLE_COUNT : nat := 6.

(** [Array.from({ length: HOLE_COUNT }, (_, i) => ({ id: i, status: IDLE }))] *)
Definition freshBoard : list MoleData :=
  map (fun i => mkMole (Z.of_nat i) IDLE) (seq 0 HOLE_COUNT).

(** Calls made to [audioService], in order. *)
Inductive Cue : Set := Pop | Bonk | GameOver.

(** ** Timers and the values their callbacks captured *)

(** A pending [setTimeout] of [peep]: the callback closes over [holeIdx] and
    over [peep] itself, which closes over the [moles] of its render. *)
Record HideTimer : Set := mkHide {
  ht_id : Z;
  ht_due : Z;
  ht_holeIdx : Z;
  ht_moles : list MoleData
}.

(** The pending [setInterval] of [startGame]: the callback closes over
    [endGame], which closes over the [score] of the render [startGame] ran in. *)
Record ClockTimer : Set := mkClock {
  ct_id : Z;
  ct_due : Z;
  ct_score : Z
}.

Record World : Set := mkWorld {
  moles : list MoleData;
  score : Z;
  highScore : Z;
  timeLeft : Z;
  isPlaying : bool;
  lastHoleRef : Z;
  isPlayingRef : bool;
  gameTimerRef : option Z;
  peepTimerRef : option Z;
  timeouts : list HideTimer;
  intervals : list ClockTimer;
  nextTimer : Z;
  now : Z;
  cues : list Cue
}.

(** The component as mounted: initial [useState] and [useRef] values, no timer
    armed, timer handles starting at 1. *)
Definition initialWorld : World :=
  {| moles := freshBoard; score := 0; highScore := 0;
     timeLeft := GAME_DURATION; isPlaying := false;
     lastHoleRef := -1; isPlayingRef := false;
     gameTimerRef := None; peepTimerRef := None;
     timeouts := []; intervals := []; nextTimer := 1; now := 0; cues := [] |}.

(** Field updates. *)
Definition setMoles (f : list MoleData -> list MoleData) (w : World) : World :=
  mkWorld (f (moles w)) (score w) (highScore w) (timeLeft w) (isPlaying w)
    (lastHoleRef w) (isPlayingRef w) (gameTimerRef w) (peepTimerRef w)
    (timeouts w) (intervals w) (nextTimer w) (now w) (cues w).

Definition setScore (f : Z -> Z) (w : World) : World :=
  mkWorld (moles w) (f (score w)) (highScore w) (timeLeft w) (isPlaying w)
    (lastHoleRef w) (isPlayingRef w) (gameTimerRef w) (peepTimerRef w)
    (timeouts w) (intervals w) (nextTimer w) (now w) (cues w).

Definition setHighScore (f : Z -> Z) (w : World) : World :=
  mkWorld (moles w) (score w) (f (highScore w)) (timeLeft w) (isPlaying w)
    (lastHoleRef w) (isPlayingRef w) (gameTimerRef w) (peepTimerRef w)
    (timeouts w) (intervals w) (nextTimer w) (now w) (cues w).

Definition setTimeLeft (v : Z) (w : World) : World :=
  mkWorld (moles w) (score w) (highScore w) v (isPlaying w)
    (lastHoleRef w) (isPlayingRef w) (gameTimerRef w) (peepTimerRef w)
    (timeouts w) (intervals w) (nextTimer w) (now w) (cues w).

Definition setIsPlaying (v : bool) (w : World) : World :=
  mkWorld (moles w) (score w) (highScore w) (timeLeft w) v
    (lastHoleRef w) (isPlayingRef w) (gameTimerRef w) (peepTimerRef w)
    (timeouts w) (intervals w) (nextTimer w) (now w) (cues w).

Definition set_lastHoleRef (v : Z) (w : World) : World :=
  mkWorld (moles w) (score w) (highScore w) (timeLeft w) (isPlaying w)
    v (isPlayingRef w) (gameTimerRef w) (peepTimerRef w)
    (timeouts w) (intervals w) (nextTimer w) (now w) (cues w).

Definition set_isPlayingRef (v : bool) (w : World) : World :=
  mkWorld (moles w) (score w) (highScore w) (timeLeft w) (isPlaying w)
    (lastHoleRef w) v (gameTimerRef w) (peepTimerRef w)
    (timeouts w) (intervals w) (nextTimer w) (now w) (cues w).

Definition set_gameTimerRef (v : option Z) (w : World) : World :=
  mkWorld (moles w) (score w) (highScore w) (timeLeft w) (isPlaying w)
    (lastHoleRef w) (isPlayingRef w) v (peepTimerRef w)
    (timeouts w) (intervals w) (nextTimer w) (now w) (cues w).

Definition set_peepTimerRef (v : option Z) (w : World) : World :=
  mkWorld (moles w) (score w) (highScore w) (timeLeft w) (isPlaying w)
    (lastHoleRef w) (isPlayingRef w) (gameTimerRef w) v
    (timeouts w) (intervals w) (nextTimer w) (now w) (cues w).

Definition set_timeouts (v : list HideTimer) (w : World) : World :=
  mkWorld (moles w) (score w) (highScore w) (timeLeft w) (isPlaying w)
    (lastHoleRef w) (isPlayingRef w) (gameTimerRef w) (peepTimerRef w)
    v (intervals w) (nextTimer w) (now w) (cues w).

Definition set_intervals (v : list ClockTimer) (w : World) : World :=
  mkWorld (moles w) (score w) (highScore w) (timeLeft w) (isPlaying w)
    (lastHoleRef w) (isPlayingRef w) (gameTimerRef w) (peepTimerRef w)
    (timeouts w) v (nextTimer w) (now w) (cues w).

Definition set_nextTimer (v : Z) (w : World) : World :=
  mkWorld (moles w) (score w) (highScore w) (timeLeft w) (isPlaying w)
    (lastHoleRef w) (isPlayingRef w) (gameTimerRef w) (peepTimerRef w)
    (timeouts w) (intervals w) v (now w) (cues w).

Definition set_now (v : Z) (w : World) : World :=
  mkWorld (moles w) (score w) (highScore w) (timeLeft w) (isPlaying w)
    (lastHoleRef w) (isPlayingRef w) (gameTimerRef w) (peepTimerRef w)
    (timeouts w) (intervals w) (nextTimer w) v (cues w).

Definition play (c : list Cue) (w : World) : World :=
  mkWorld (moles w) (score w) (highScore w) (timeLeft w) (isPlaying w)
    (lastHoleRef w) (isPlayingRef w) (gameTimerRef w) (peepTimerRef w)
    (timeouts w) (intervals w) (nextTimer w) (now w) (cues w ++ c).

(** ** The browser's timer interface *)

(** [window.setTimeout(cb, time)]: a fresh handle, due [time] after now. *)
Definition setTimeout (holeIdx : Z) (pmoles : list MoleData) (time : Z)
    (w : World) : Z * World :=
  let h := nextTimer w in
  (h, set_nextTimer (h + 1)
        (set_timeouts (timeouts w ++ [mkHide h (now w + time) holeIdx pmoles]) w)).

(** [window.setInterval(cb, 1000)] *)
Definition setInterval (score_cap : Z) (w : World) : Z * World :=
  let h := nextTimer w in
  (h, set_nextTimer (h + 1)
        (set_intervals (intervals w ++ [mkClock h (now w + 1000) score_cap]) w)).

Definition clearTimeout (h : Z) (w : World) : World :=
  set_timeouts (filter (fun t => negb (ht_id t =? h)) (timeouts w)) w.

Definition clearInterval (h : Z) (w : World) : World :=
  set_intervals (filter (fun c => negb (ct_id c =? h)) (intervals w)) w.

(** [if (ref.current) f(ref.current)]: a [number | null] ref is truthy when
    it holds a number other than 0. *)
Definition whenTruthy (ref : option Z) (f : Z -> World -> World) (w : World)
    : World :=
  match ref with
  | Some h => if h =? 0 then w else f h w
  | None => w
  end.

(** ** Random helpers *)

Definition Math_floor (x : Q) : Z := Qfloor x.

(** [Math.round]: nearest integer, a tie going up.  The sum is exact: it
    is not an addition of doubles. *)
Definition Math_round (x : Q) : Z := Qfloor (x + (1 # 2)).

(** What [Math.random()] may return: a number in [0, 1). *)
Definition validDraw (r : Q) : bool := Qle_bool 0 r && negb (Qle_bool 1 r).

(** *** Double arithmetic

    A finite binary64 double is zero or [m * 2^e] with [2^52 <= |m| < 2^53].
    The exponent range is left unbounded.  Nothing overflows at the bounds
    used below; and where a draw is so small that its product with the
    integer [max - min] is subnormal, that product is a multiple of the
    least subnormal and so is returned exactly, by the engine and by [fl]
    alike. *)

Definition pow2 (e : Z) : Q := (2 ^ e)%Q.

(** The binade of [x]: [2^(mag x) <= |x| < 2^(mag x + 1)] for [x] not zero. *)
Definition mag (x : Q) : Z :=
  let k := Z.log2 (Z.abs (Qnum x)) - Z.log2 (Z.pos (Qden x)) in
  if Qle_bool (pow2 k) (Qabs x) then k else k - 1.

(** The nearest integer, a tie going to the even one. *)
Definition rne (q : Q) : Z :=
  let f := Qfloor q in
  match (q - inject_Z f ?= 1 # 2)%Q with
  | Lt => f
  | Gt => f + 1
  | Eq => if Z.even f then f else f + 1
  end.

(** The double nearest to [x], a tie going to the even significand: what an
    arithmetic operation of JavaScript returns for the exact result [x]. *)
Definition fl (x : Q) : Q :=
  if Qeq_bool x 0 then 0%Q
  else let u := pow2 (mag x - 52) in (inject_Z (rne (x / u)) * u)%Q.

(** [x] is a double: rounding leaves it as it is. *)
Definition isDouble (x : Q) : bool := Qeq_bool (fl x) x.

(** [Math.random() * (max - min) + min]: a subtraction, a multiplication and
    an addition, each rounded to a double.  [min] and [max] are the
    arguments as the call receives them, integers that are doubles. *)
Definition randomValue (min max : Z) (r : Q) : Q :=
  fl (fl (r * fl (inject_Z max - inject_Z min)) + inject_Z min).

(** [randomTime(min, max)] with [r] the value of [Math.random()]. *)
Definition randomTime (min max : Z) (r : Q) : Z :=
  Math_round (randomValue min max r).

(** [currentMoles[idx]]; [None] where JavaScript yields [undefined]. *)
Definition at_index (currentMoles : list MoleData) (idx : Z) : option MoleData :=
  if idx <? 0 then None else nth_error currentMoles (Z.to_nat idx).

(** [randomHole(currentMoles)]: each retry consumes one draw.  [None] when
    the draws run out before a hole is accepted (the recursion has not
    returned) or when [currentMoles[idx]] is undefined (a TypeError). *)
Fixpoint randomHole (currentMoles : list MoleData) (rnd : list Q) (w : World)
    : option (Z * World) :=
  match rnd with
  | [] => None
  | r :: rnd' =>
      let idx := Math_floor (r * inject_Z (Z.of_nat (length currentMoles))) in
      match at_index currentMoles idx with
      | None => None
      | Some m =>
          let hole := id m in
          if hole =? lastHoleRef w then randomHole currentMoles rnd' w
          else Some (hole, set_lastHoleRef hole w)
      end
  end.

(** ** The peep cycle *)

(** [m.id === holeIdx ? { ...m, status: UP } : m] *)
Definition raise (holeIdx : Z) (m : MoleData) : MoleData :=
  if id m =? holeIdx then mkMole (id m) UP else m.

(** [m.id === holeIdx ? { ...m, status: IDLE } : m] *)
Definition lower (holeIdx : Z) (m : MoleData) : MoleData :=
  if id m =? holeIdx then mkMole (id m) IDLE else m.

(** [peep], with [pmoles] the [moles] its closure captured.  The first draw
    feeds [randomTime], the following ones [randomHole]. *)
Definition peep (pmoles : list MoleData) (rnd : list Q) (w : World)
    : option World :=
  if negb (isPlayingRef w) then Some w
  else
    match rnd with
    | [] => None
    | r :: rnd' =>
        let time := randomTime MIN_PEEP_TIME MAX_PEEP_TIME r in
        match randomHole pmoles rnd' w with
        | None => None
        | Some (holeIdx, w1) =>
            let w2 := setMoles (map (raise holeIdx)) w1 in
            let w3 := play [Pop] w2 in
            let (h, w4) := setTimeout holeIdx pmoles time w3 in
            Some (set_peepTimerRef (Some h) w4)
        end
    end.

(** The callback [peep] hands to [setTimeout]. *)
Definition hideCallback (t : HideTimer) (rnd : list Q) (w : World)
    : option World :=
  let w1 := setMoles (map (lower (ht_holeIdx t))) w in
  if isPlayingRef w1 then peep (ht_moles t) rnd w1 else Some w1.

(** ** Ending and starting a round *)

(** [endGame], with [score_cap] the [score] its closure captured. *)
Definition endGame (score_cap : Z) (w : World) : World :=
  let w1 := setIsPlaying false w in
  let w2 := set_isPlayingRef false w1 in
  let w3 := whenTruthy (gameTimerRef w2) clearInterval w2 in
  let w4 := whenTruthy (peepTimerRef w3) clearTimeout w3 in
  let w5 := setMoles (map (fun m => mkMole (id m) IDLE)) w4 in
  let w6 := setHighScore (fun prev => Z.max prev score_cap) w5 in
  play [GameOver] w6.

(** The callback [startGame] hands to [setInterval]: the [setTimeLeft]
    updater, which calls [endGame] when one second or less is left. *)
Definition clockCallback (c : ClockTimer) (w : World) : World :=
  let prev := timeLeft w in
  if prev <=? 1 then setTimeLeft 0 (endGame (ct_score c) w)
  else setTimeLeft (prev - 1) w.

(** What a handler reads from the render that created it. *)
Record Render : Set := mkRender {
  r_moles : list MoleData;
  r_score : Z;
  r_isPlaying : bool
}.

(** The latest render: the one whose handlers the buttons carry. *)
Definition render (w : World) : Render :=
  mkRender (moles w) (score w) (isPlaying w).

(** [startGame] of render [r]. *)
Definition startGame (r : Render) (rnd : list Q) (w : World) : option World :=
  if r_isPlaying r then Some w
  else
    let w1 := setScore (fun _ => 0) w in
    let w2 := setTimeLeft GAME_DURATION w1 in
    let w3 := setIsPlaying true w2 in
    let w4 := set_isPlayingRef true w3 in
    let w5 := setMoles (fun _ => freshBoard) w4 in
    match peep (r_moles r) rnd w5 with
    | None => None
    | Some w6 =>
        let (h, w7) := setInterval (r_score r) w6 in
        Some (set_gameTimerRef (Some h) w7)
    end.

(** ** The whack handler *)

Definition validWhack (hitId : Z) (m : MoleData) : bool :=
  (id m =? hitId) && MoleStatus_eqb (status m) UP.

Definition whack (hitId : Z) (m : MoleData) : MoleData :=
  if validWhack hitId m then mkMole (id m) WHACKED else m.

(** [handleWhack(id, isTrusted)].  The [setMoles] updater plays a bonk and
    queues [setScore(s => s + 1)] once for every element it whacks. *)
Definition handleWhack (hitId : Z) (isTrusted : bool) (w : World) : World :=
  if negb isTrusted || negb (isPlayingRef w) then w
  else
    let n := length (filter (validWhack hitId) (moles w)) in
    let w1 := setMoles (map (whack hitId)) w in
    let w2 := play (repeat Bonk n) w1 in
    Nat.iter n (setScore (fun s => s + 1)) w2.

(** ** Events *)

Inductive Event : Set :=
| ClickStart (time : Z) (rnd : list Q)
| Whack (time : Z) (hitId : Z) (isTrusted : bool)
| HideFires (time : Z) (h : Z) (rnd : list Q)
| ClockTick (time : Z) (h : Z).

Definition eventTime (e : Event) : Z :=
  match e with
  | ClickStart t _ | Whack t _ _ | HideFires t _ _ | ClockTick t _ => t
  end.

Definition eventDraws (e : Event) : list Q :=
  match e with
  | ClickStart _ rnd | HideFires _ _ rnd => rnd
  | Whack _ _ _ | ClockTick _ _ => []
  end.

Definition validEvent (e : Event) : bool := forallb validDraw (eventDraws e).

(** A repeating timer stays armed, one second later, unless its callback
    cleared it. *)
Definition rearm (h : Z) (c : ClockTimer) : ClockTimer :=
  if ct_id c =? h then mkClock (ct_id c) (ct_due c + 1000) (ct_score c) else c.

(** One event, run to completion.  [None]: the event cannot happen (time
    would run backwards, the timer is not pending or not yet due) or its
    handler did not return. *)
Definition step (e : Event) (w : World) : option World :=
  if eventTime e <? now w then None
  else
    let w0 := set_now (eventTime e) w in
    match e with
    | ClickStart _ rnd => startGame (render w0) rnd w0
    | Whack _ hitId isTrusted => Some (handleWhack hitId isTrusted w0)
    | HideFires _ h rnd =>
        match find (fun t => ht_id t =? h) (timeouts w0) with
        | None => None
        | Some t =>
            if eventTime e <? ht_due t then None
            else hideCallback t rnd (clearTimeout h w0)
        end
    | ClockTick _ h =>
        match find (fun c => ct_id c =? h) (intervals w0) with
        | None => None
        | Some c =>
            if eventTime e <? ct_due c then None
            else
              let w1 := clockCallback c w0 in
              Some (set_intervals (map (rearm h) (intervals w1)) w1)
        end
    end.

Fixpoint run (es : list Event) (w : World) : option World :=
  match es with
  | [] => Some w
  | e :: es' =>
      match step e w with
      | None => None
      | Some w' => run es' w'
      end
  end.

(** Worlds the mounted component can be in. *)
Inductive reachable : World -> Prop :=
| reach_init : reachable initialWorld
| reach_step (w w' : World) (e : Event) :
    reachable w -> validEvent e = true -> step e w = Some w' -> reachable w'.

(** ** Observations used in the statements *)

(** The status of slot [i], if the board has such a slot. *)
Definition statusOf (i : Z) (ms : list MoleData) : option MoleStatus :=
  option_map status (find (fun m => id m =? i) ms).

Definition isUp (m : MoleData) : bool := MoleStatus_eqb (status m) UP.

(** The slots currently shown. *)
Definition visible (ms : list MoleData) : list MoleData := filter isUp ms.

Definition boardIds : list Z := map id freshBoard.

(** The slot a draw selects on a board. *)
Definition pick (currentMoles : list MoleData) (r : Q) : option Z :=
  option_map id
    (at_index currentMoles
       (Math_floor (r * inject_Z (Z.of_nat (length currentMoles))))).

(** What [peep] leaves behind once it has drawn [time] and [holeIdx]. *)
Definition peepTo (holeIdx time : Z) (pmoles : list MoleData) (w : World)
    : World :=
  set_peepTimerRef (Some (nextTimer w))
    (snd (setTimeout holeIdx pmoles time
            (play [Pop]
               (setMoles (map (raise holeIdx)) (set_lastHoleRef holeIdx w))))).

(** The part of a world the player can see: phase, score, best score, clock
    and board. *)
Definition observe (w : World)
    : bool * Z * Z * Z * list MoleData :=
  (isPlaying w, score w, highScore w, timeLeft w, moles w).

Definition isClickStart (e : Event) : bool :=
  match e with
  | ClickStart _ _ => true
  | _ => false
  end.

(** The invariant of the game loop. *)
Record Inv (w : World) : Prop := mkInv {
  inv_ids : map id (moles w) = boardIds;
  inv_phase : isPlaying w = isPlayingRef w;
  inv_shown : forall m, In m (moles w) -> status m <> IDLE ->
              id m = lastHoleRef w /\ isPlayingRef w = true;
  inv_next : 0 < nextTimer w;
  inv_clock : isPlayingRef w = true -> 1 <= timeLeft w;
  inv_timers :
    if isPlayingRef w then
      exists t c,
        timeouts w = [t] /\ intervals w = [c] /\
        peepTimerRef w = Some (ht_id t) /\ gameTimerRef w = Some (ct_id c) /\
        ht_holeIdx t = lastHoleRef w /\
        0 < ht_id t < nextTimer w /\ 0 < ct_id c < nextTimer w /\
        map id (ht_moles t) = boardIds /\ In (ht_holeIdx t) boardIds
    else timeouts w = [] /\ intervals w = []
}.

(** The number of [2^-27]-ths in the draw that makes [randomTime] return
    [k]: all but one when [k] is [max], else the least that reaches [k]. *)
Definition stepsFor (min max k : Z) : Z :=
  if max <=? k then 2 ^ 27 - 1
  else ((k - min) * 2 ^ 27 + (max - min) - 1) / (max - min).

(** A double draw that makes [randomTime] return [k], for [max] below
    [2^26]. *)
Definition drawFor (min max k : Z) : Q :=
  (inject_Z (stepsFor min max k) * pow2 (-27))%Q.

(** The draw that selects slot number [1] of a board of [n] slots. *)
Definition secondDraw (n : nat) : Q := Qmake 1 (Pos.of_nat n).

(** The number of elements one [handleWhack] credits. *)
Definition credited (hitId : Z) (w : World) : nat :=
  length (filter (validWhack hitId) (moles w)).

(** The world after [startGame]'s resets, before it calls [peep]. *)
Definition resetRound (w : World) : World :=
  setMoles (fun _ => freshBoard)
    (set_isPlayingRef true
       (setIsPlaying true (setTimeLeft GAME_DURATION (setScore (fun _ => 0) w)))).

(** The world after a [startGame] whose [peep] drew [time] and [holeIdx]. *)
Definition startedWith (holeIdx time : Z) (w : World) : World :=
  set_gameTimerRef (Some (nextTimer w + 1))
    (snd (setInterval (score w) (peepTo holeIdx time (moles w) (resetRound w)))).

(** ** A round played out

    The events of one whole round as a browser would deliver them: the click
    on Start, the player's hits, then for each of the thirty seconds two hide
    timers (450 ms and 950 ms into the second, each showing the next mole for
    500 ms) and the clock tick that closes the second.  [start] is the time of
    the click and [h0] the first timer handle the round uses: the first hide
    timer gets [h0], the clock [h0 + 1], the later hide timers the handles
    that follow. *)

Definition hideHandle (h0 : Z) (j : nat) : Z :=
  match j with
  | O => h0
  | S _ => h0 + 1 + Z.of_nat j
  end.

Definition secondOfPlay (start h0 : Z) (k : nat) : list Event :=
  let base := start + 1000 * Z.of_nat k in
  [ HideFires (base + 450) (hideHandle h0 (2 * k)) [171 # 1024; 1 # 4]%Q;
    HideFires (base + 950) (hideHandle h0 (2 * k + 1)) [171 # 1024; 0]%Q;
    ClockTick (base + 1000) (h0 + 1) ].

Definition roundOfPlay (start h0 : Z) (draws : list Q) (hits : list Event)
    : list Event :=
  ClickStart start draws :: hits
    ++ flat_map (secondOfPlay start h0) (seq 0 (Z.to_nat GAME_DURATION)).

(** The first click on Start after mount: the mole comes up in slot 0 for
    450 ms. *)
Definition firstStart : list Event := [ClickStart 0 [85 # 1024; 0]%Q].

(** The first round: slot 0 is shown, the player hits it after 100 ms, and
    the round runs to the end. *)
Definition firstRound : list Event :=
  roundOfPlay 0 1 [85 # 1024; 0]%Q [Whack 100 0 true].

(** A second click on Start, ten seconds after the first round ended: the
    first hole draw selects slot 0 again, the next one slot 3. *)
Definition secondStart : Event := ClickStart 40000 [85 # 1024; 0; 1 # 2]%Q.

Definition endOf (es : list Event) : World :=
  match run es initialWorld with
  | Some w => w
  | None => initialWorld
  end.

Definition afterFirstStart : World := Eval vm_compute in endOf firstStart.

Definition afterFirstHit : World :=
  Eval vm_compute in endOf (firstStart ++ [Whack 100 0 true]).

(** The first hide timer fires on time: slot 0 goes down and slot 1 comes
    up. *)
Definition firstHide : Event := HideFires 450 1 [171 # 1024; 1 # 4]%Q.

Definition afterFirstHide : World :=
  Eval vm_compute in endOf (firstStart ++ [Whack 100 0 true; firstHide]).

Definition afterFirstRound : World := Eval vm_compute in endOf firstRound.

Definition afterSecondStart : World :=
  Eval vm_compute in endOf (firstRound ++ [secondStart]).

(** ** The rest of the component *)

(** The cleanup the mount effect returns, run when the component unmounts. *)
Definition unmountCleanup (w : World) : World :=
  let w1 := whenTruthy (gameTimerRef w) clearInterval w in
  whenTruthy (peepTimerRef w1) clearTimeout w1.

(** What the component renders from its state: the score in the header, the
    figure under "High Score", the seconds left, whether the Start button is
    offered (otherwise the disabled "Running..." one), the grid, and whether
    the instructions and the "Game Over!" panel are shown. *)
Record View : Set := mkView {
  v_score : Z;
  v_highScore : Z;
  v_timeLeft : Z;
  v_startButton : bool;
  v_grid : list MoleData;
  v_instructions : bool;
  v_gameOver : bool
}.

Definition view (w : World) : View :=
  {| v_score := score w;
     v_highScore := Z.max (score w) (highScore w);
     v_timeLeft := timeLeft w;
     v_startButton := negb (isPlaying w);
     v_grid := moles w;
     v_instructions :=
       negb (isPlaying w) && (timeLeft w =? GAME_DURATION) && (score w =? 0);
     v_gameOver := negb (isPlaying w) && (timeLeft w =? 0) |}.

(** ** Counting events and cues *)

Definition isClockTick (e : Event) : bool :=
  match e with
  | ClockTick _ _ => true
  | _ => false
  end.

Definition ticks (es : list Event) : nat := length (filter isClockTick es).

Definition noStart (es : list Event) : bool :=
  forallb (fun e => negb (isClickStart e)) es.

Definition isPop (c : Cue) : bool :=
  match c with
  | Pop => true
  | _ => false
  end.

Definition isBonk (c : Cue) : bool :=
  match c with
  | Bonk => true
  | _ => false
  end.

Definition pops (w : World) : nat := length (filter isPop (cues w)).

Definition bonks (w : World) : nat := length (filter isBonk (cues w)).

(** The clock ticks that bring a round to its end: one tick a second, the
    first at [time]. *)
Definition ticksFrom (time h : Z) (n : nat) : list Event :=
  map (fun k => ClockTick (time + 1000 * Z.of_nat k) h) (seq 0 n).

(** What the game keeps true of its counters and of what it has played. *)
Record Counters (w : World) : Prop := mkCounters {
  cnt_score : 0 <= score w;
  cnt_high : 0 <= highScore w;
  cnt_time : 0 <= timeLeft w <= GAME_DURATION;
  cnt_panel : isPlayingRef w = false ->
              (timeLeft w = GAME_DURATION /\ score w = 0 /\ cues w = [])
              \/ timeLeft w = 0;
  cnt_bonks : (bonks w + length (visible (moles w)) <= pops w)%nat;
  cnt_credit : score w <= Z.of_nat (bonks w)
}.

(** Unfold the field updates on a destructed world, innermost first. *)
Ltac world_cbv :=
  cbv [setMoles setScore setHighScore setTimeLeft setIsPlaying set_lastHoleRef
       set_isPlayingRef set_gameTimerRef set_peepTimerRef set_timeouts
       set_intervals set_nextTimer set_now play setTimeout setInterval
       clearTimeout clearInterval peepTo resetRound startedWith observe
       moles score highScore timeLeft isPlaying lastHoleRef isPlayingRef
       gameTimerRef peepTimerRef timeouts intervals nextTimer now cues
       fst snd render r_moles r_score r_isPlaying] in *.

(** Split [endGame] on its two truthiness tests. *)
Ltac endGame_cases w :=
  destruct w as [ms sc hs tl ip lh ipr [g|] [p|] tos ivs nt nw cs];
  unfold endGame, whenTruthy; world_cbv;
  repeat (match goal with
          | |- context [if ?b then _ else _] => destruct b
          end; world_cbv);
  repeat split; reflexivity.

(** ** Lemmas on the random helpers *)

Lemma validDraw_bounds (r : Q) :
  validDraw r = true -> (0 <= r)%Q /\ (r < 1)%Q.
Proof.
  unfold validDraw. intros H. apply andb_true_iff in H. destruct H as [H0 H1].
  split.
  - now apply Qle_bool_iff.
  - apply Qnot_le_lt. intros Hle. apply Qle_bool_iff in Hle.
    rewrite Hle in H1. discriminate.
Qed.

Lemma Math_round_bounds (x : Q) (lo hi : Z) :
  (inject_Z lo <= x)%Q -> (x <= inject_Z hi)%Q ->
  lo <= Math_round x <= hi.
Proof.
  intros Hlo Hhi. unfold Math_round. split.
  - rewrite <- (Qfloor_Z lo). apply Qfloor_resp_le. lra.
  - assert (Hf : (inject_Z (Qfloor (x + (1 # 2))) <= x + (1 # 2))%Q)
      by apply Qfloor_le.
    assert (Hlt : (inject_Z (Qfloor (x + (1 # 2))) < inject_Z (hi + 1))%Q).
    { rewrite inject_Z_plus. change (inject_Z 1) with 1%Q. lra. }
    rewrite <- Zlt_Qlt in Hlt. lia.
Qed.

(** *** Rounding to the nearest double *)

Lemma pow2_pos (e : Z) : (0 < pow2 e)%Q.
Proof. apply Qpower_0_lt. reflexivity. Qed.

Lemma pow2_add (a b : Z) : (pow2 (a + b) == pow2 a * pow2 b)%Q.
Proof. apply Qpower_plus. discriminate. Qed.

Lemma pow2_le (a b : Z) : a <= b -> (pow2 a <= pow2 b)%Q.
Proof. intros H. apply Qpower_le_compat_l; [exact H|discriminate]. Qed.

Lemma pow2_lt (a b : Z) : a < b -> (pow2 a < pow2 b)%Q.
Proof. intros H. apply Qpower_lt_compat_l; [exact H|reflexivity]. Qed.

Lemma pow2_lt_inv (a b : Z) : (pow2 a < pow2 b)%Q -> a < b.
Proof. intros H. apply (Qpower_lt_compat_l_inv 2); [exact H|reflexivity]. Qed.

Lemma pow2_Z (e : Z) : 0 <= e -> (pow2 e == inject_Z (2 ^ e))%Q.
Proof. intros H. unfold pow2. now rewrite (Zpower_Qpower 2 e H). Qed.

Lemma pow2_split (a b : Z) : (pow2 a == pow2 (a - b) * pow2 b)%Q.
Proof. rewrite <- pow2_add. now replace (a - b + b) with a by lia. Qed.

Lemma log2_bounds (n : Z) :
  0 < n ->
  (pow2 (Z.log2 n) <= inject_Z n)%Q /\ (inject_Z n < pow2 (Z.log2 n + 1))%Q.
Proof.
  intros Hn. destruct (Z.log2_spec n Hn) as [H1 H2].
  pose proof (Z.log2_nonneg n) as H0.
  rewrite !pow2_Z by lia. rewrite <- Zle_Qle, <- Zlt_Qlt.
  replace (Z.log2 n + 1) with (Z.succ (Z.log2 n)) by lia. auto.
Qed.

Lemma Qabs_frac (x : Q) :
  (Qabs x * inject_Z (Z.pos (Qden x)) == inject_Z (Z.abs (Qnum x)))%Q.
Proof.
  destruct x as [n d]. unfold Qabs, Qeq, Qmult, inject_Z. cbn [Qnum Qden].
  rewrite Pos.mul_1_r. ring.
Qed.

Lemma Qabs_nonzero (x : Q) : ~ (x == 0)%Q -> 0 < Z.abs (Qnum x).
Proof.
  intros H. destruct x as [n d]. unfold Qeq in H. simpl in *.
  assert (n <> 0) by lia. lia.
Qed.

Lemma mag_spec (x : Q) :
  ~ (x == 0)%Q ->
  (pow2 (mag x) <= Qabs x)%Q /\ (Qabs x < pow2 (mag x + 1))%Q.
Proof.
  intros Hx. pose proof (Qabs_nonzero x Hx) as HN.
  pose proof (Qabs_frac x) as Hf.
  assert (HD : 0 < Z.pos (Qden x)) by lia.
  destruct (log2_bounds _ HN) as [N1 N2].
  destruct (log2_bounds _ HD) as [D1 D2].
  unfold mag.
  set (a := Z.log2 (Z.abs (Qnum x))) in *.
  set (b := Z.log2 (Z.pos (Qden x))) in *.
  set (qN := inject_Z (Z.abs (Qnum x))) in *.
  set (qD := inject_Z (Z.pos (Qden x))) in *.
  set (ax := Qabs x) in *.
  assert (HqD : (0 < qD)%Q).
  { unfold qD. change 0%Q with (inject_Z 0). now rewrite <- Zlt_Qlt. }
  pose proof (pow2_pos b) as Pb.
  (* upper: ax < pow2 (a - b + 1) *)
  assert (Up : (ax < pow2 (a - b + 1))%Q).
  { apply (Qmult_lt_r _ _ qD HqD). rewrite Hf.
    pose proof (pow2_split (a + 1) b) as E.
    replace (a + 1 - b) with (a - b + 1) in E by lia.
    pose proof (pow2_pos (a - b + 1)) as P.
    assert ((pow2 (a - b + 1) * pow2 b <= pow2 (a - b + 1) * qD)%Q).
    { apply Qmult_le_l; assumption. }
    lra. }
  (* lower: pow2 (a - b - 1) <= ax *)
  assert (Lo : (pow2 (a - b - 1) <= ax)%Q).
  { apply (Qmult_le_r _ _ qD HqD). rewrite Hf.
    pose proof (pow2_split a (b + 1)) as E.
    replace (a - (b + 1)) with (a - b - 1) in E by lia.
    pose proof (pow2_pos (a - b - 1)) as P.
    assert ((pow2 (a - b - 1) * qD <= pow2 (a - b - 1) * pow2 (b + 1))%Q).
    { apply Qmult_le_l; [assumption|]. now apply Qlt_le_weak. }
    lra. }
  destruct (Qle_bool (pow2 (a - b)) ax) eqn:E.
  - apply Qle_bool_iff in E. auto.
  - split; [exact Lo|]. replace (a - b - 1 + 1) with (a - b) by lia.
    apply Qnot_le_lt. intros H. apply Qle_bool_iff in H. congruence.
Qed.

Lemma mag_unique (x : Q) (e : Z) :
  ~ (x == 0)%Q -> (pow2 e <= Qabs x)%Q -> (Qabs x < pow2 (e + 1))%Q ->
  mag x = e.
Proof.
  intros Hx H1 H2. destruct (mag_spec x Hx) as [M1 M2].
  assert (mag x < e + 1) by (apply pow2_lt_inv; lra).
  assert (e < mag x + 1) by (apply pow2_lt_inv; lra).
  lia.
Qed.

Lemma rne_comp (q1 q2 : Q) : (q1 == q2)%Q -> rne q1 = rne q2.
Proof.
  intros H. unfold rne. rewrite (Qfloor_comp _ _ H).
  assert (E : (q1 - inject_Z (Qfloor q2) == q2 - inject_Z (Qfloor q2))%Q)
    by (rewrite H; reflexivity).
  now rewrite (Qcompare_comp _ _ E _ _ (Qeq_refl (1 # 2))).
Qed.

Lemma floor_rem (q : Q) :
  (0 <= q - inject_Z (Qfloor q))%Q /\ (q - inject_Z (Qfloor q) < 1)%Q.
Proof.
  pose proof (Qfloor_le q). pose proof (Qlt_floor q) as H1.
  rewrite inject_Z_plus in H1. change (inject_Z 1) with 1%Q in H1.
  split; lra.
Qed.

Lemma rne_near (q : Q) :
  (q - (1 # 2) <= inject_Z (rne q))%Q /\ (inject_Z (rne q) <= q + (1 # 2))%Q.
Proof.
  destruct (floor_rem q) as [H0 H1]. unfold rne.
  destruct (Qcompare_spec (q - inject_Z (Qfloor q)) (1 # 2)) as [E|E|E].
  - destruct (Z.even (Qfloor q)).
    + split; lra.
    + rewrite inject_Z_plus. change (inject_Z 1) with 1%Q. split; lra.
  - split; lra.
  - rewrite inject_Z_plus. change (inject_Z 1) with 1%Q. split; lra.
Qed.

Lemma rne_Z (z : Z) : rne (inject_Z z) = z.
Proof.
  unfold rne. rewrite Qfloor_Z.
  destruct (Qcompare_spec (inject_Z z - inject_Z z) (1 # 2)) as [E|E|E];
    [lra|reflexivity|lra].
Qed.

Lemma rne_mono (q1 q2 : Q) : (q1 <= q2)%Q -> rne q1 <= rne q2.
Proof.
  intros H. destruct (Z.le_gt_cases (rne q1) (rne q2)) as [L|G]; [exact L|].
  exfalso.
  destruct (rne_near q1) as [_ U1]. destruct (rne_near q2) as [L2 _].
  assert (G' : (inject_Z (rne q2) + 1 <= inject_Z (rne q1))%Q).
  { change 1%Q with (inject_Z 1). rewrite <- inject_Z_plus, <- Zle_Qle. lia. }
  assert (E : (q1 == q2)%Q) by lra.
  apply rne_comp in E. lia.
Qed.

Lemma fl_zero (x : Q) : (x == 0)%Q -> fl x = 0%Q.
Proof.
  intros H. unfold fl. apply Qeq_bool_iff in H. now rewrite H.
Qed.

Lemma fl_nonzero (x : Q) :
  ~ (x == 0)%Q ->
  fl x = (inject_Z (rne (x / pow2 (mag x - 52))) * pow2 (mag x - 52))%Q.
Proof.
  intros H. unfold fl. destruct (Qeq_bool x 0) eqn:E; [|reflexivity].
  apply Qeq_bool_iff in E. contradiction.
Qed.

Lemma fl_comp (x y : Q) : (x == y)%Q -> (fl x == fl y)%Q.
Proof.
  intros H. destruct (Qeq_dec x 0) as [Z0|N0].
  - rewrite (fl_zero x Z0), (fl_zero y); [reflexivity|now rewrite <- H].
  - assert (N0' : ~ (y == 0)%Q) by now rewrite <- H.
    rewrite (fl_nonzero x N0), (fl_nonzero y N0').
    assert (Em : mag x = mag y).
    { destruct (mag_spec y N0') as [M1 M2].
      apply mag_unique; [exact N0|now rewrite H|now rewrite H]. }
    rewrite Em.
    assert (Eq : (x / pow2 (mag y - 52) == y / pow2 (mag y - 52))%Q)
      by now rewrite H.
    now rewrite (rne_comp _ _ Eq).
Qed.

(** A positive number over its unit in the last place lies in [2^52, 2^53). *)
Lemma scaled_range (x : Q) :
  (0 < x)%Q ->
  (inject_Z (2 ^ 52) <= x / pow2 (mag x - 52))%Q /\
  (x / pow2 (mag x - 52) < inject_Z (2 ^ 53))%Q.
Proof.
  intros Hx. assert (N0 : ~ (x == 0)%Q) by lra.
  destruct (mag_spec x N0) as [M1 M2].
  rewrite (Qabs_pos x) in M1, M2 by lra.
  pose proof (pow2_pos (mag x - 52)) as Pu.
  pose proof (pow2_split (mag x) (mag x - 52)) as E1.
  replace (mag x - (mag x - 52)) with 52 in E1 by lia.
  pose proof (pow2_split (mag x + 1) (mag x - 52)) as E2.
  replace (mag x + 1 - (mag x - 52)) with 53 in E2 by lia.
  rewrite <- !pow2_Z by lia.
  split.
  - apply Qle_shift_div_l; [exact Pu|]. lra.
  - apply Qlt_shift_div_r; [exact Pu|]. lra.
Qed.

Lemma fl_binade (x : Q) :
  (0 < x)%Q -> (pow2 (mag x) <= fl x)%Q /\ (fl x <= pow2 (mag x + 1))%Q.
Proof.
  intros Hx. assert (N0 : ~ (x == 0)%Q) by lra.
  destruct (scaled_range x Hx) as [S1 S2].
  rewrite (fl_nonzero x N0).
  pose proof (pow2_pos (mag x - 52)) as Pu.
  pose proof (pow2_split (mag x) (mag x - 52)) as E1.
  replace (mag x - (mag x - 52)) with 52 in E1 by lia.
  pose proof (pow2_split (mag x + 1) (mag x - 52)) as E2.
  replace (mag x + 1 - (mag x - 52)) with 53 in E2 by lia.
  assert (R1 : 2 ^ 52 <= rne (x / pow2 (mag x - 52))).
  { rewrite <- (rne_Z (2 ^ 52)). now apply rne_mono. }
  assert (R2 : rne (x / pow2 (mag x - 52)) <= 2 ^ 53).
  { rewrite <- (rne_Z (2 ^ 53)). apply rne_mono. now apply Qlt_le_weak. }
  rewrite Zle_Qle in R1, R2. rewrite <- !pow2_Z in R1, R2 by lia.
  rewrite E1, E2. split; apply Qmult_le_compat_r; try assumption;
    now apply Qlt_le_weak.
Qed.

Lemma fl_mono_pos (x y : Q) : (0 < x)%Q -> (x <= y)%Q -> (fl x <= fl y)%Q.
Proof.
  intros Hx Hxy. assert (Hy : (0 < y)%Q) by lra.
  assert (Nx : ~ (x == 0)%Q) by lra. assert (Ny : ~ (y == 0)%Q) by lra.
  destruct (mag_spec x Nx) as [X1 X2]. destruct (mag_spec y Ny) as [Y1 Y2].
  rewrite (Qabs_pos x) in X1, X2 by lra. rewrite (Qabs_pos y) in Y1, Y2 by lra.
  assert (Hm : mag x < mag y + 1) by (apply pow2_lt_inv; lra).
  destruct (Z.eq_dec (mag x) (mag y)) as [E|NE].
  - rewrite (fl_nonzero x Nx), (fl_nonzero y Ny), E.
    pose proof (pow2_pos (mag y - 52)) as Pu.
    apply Qmult_le_compat_r; [|now apply Qlt_le_weak].
    rewrite <- Zle_Qle. apply rne_mono.
    apply Qmult_le_compat_r; [exact Hxy|].
    apply Qlt_le_weak. now apply Qinv_lt_0_compat.
  - destruct (fl_binade x Hx) as [_ Bx]. destruct (fl_binade y Hy) as [By _].
    assert (pow2 (mag x + 1) <= pow2 (mag y))%Q by (apply pow2_le; lia).
    lra.
Qed.

Lemma fl_nonneg_mono (x y : Q) : (0 <= x)%Q -> (x <= y)%Q -> (fl x <= fl y)%Q.
Proof.
  intros Hx Hxy. destruct (Qeq_dec x 0) as [Z0|N0].
  - rewrite (fl_zero x Z0). destruct (Qeq_dec y 0) as [Y0|NY].
    + rewrite (fl_zero y Y0). apply Qle_refl.
    + assert (Hy : (0 < y)%Q) by lra.
      destruct (fl_binade y Hy) as [By _]. pose proof (pow2_pos (mag y)). lra.
  - apply fl_mono_pos; lra.
Qed.

Lemma fl_exact_at (x : Q) (m k : Z) :
  (x == inject_Z m * pow2 k)%Q -> 0 < m < 2 ^ 53 -> (fl x == x)%Q.
Proof.
  intros Ex [Hm0 Hm].
  pose proof (pow2_pos k) as Pk.
  assert (Hm1 : (1 <= inject_Z m)%Q).
  { change 1%Q with (inject_Z 1). rewrite <- Zle_Qle. lia. }
  assert (Hm2 : (inject_Z m < pow2 53)%Q).
  { rewrite pow2_Z by lia. now rewrite <- Zlt_Qlt. }
  assert (Hmk : (0 < inject_Z m * pow2 k)%Q)
    by (apply Qmult_lt_0_compat; lra).
  assert (Hx : (0 < x)%Q) by lra.
  assert (Nx : ~ (x == 0)%Q) by lra.
  destruct (mag_spec x Nx) as [X1 X2].
  rewrite (Qabs_pos x) in X1, X2 by lra.
  assert (He : mag x < 53 + k).
  { apply pow2_lt_inv. rewrite (pow2_add 53 k).
    assert (inject_Z m * pow2 k < pow2 53 * pow2 k)%Q
      by (apply Qmult_lt_compat_r; assumption).
    lra. }
  rewrite (fl_nonzero x Nx).
  pose proof (pow2_pos (mag x - 52)) as Pu.
  pose proof (pow2_split k (mag x - 52)) as Ek.
  assert (Hj : 0 <= k - (mag x - 52)) by lia.
  pose proof (pow2_Z _ Hj) as Ej.
  set (j := k - (mag x - 52)) in *.
  set (u := pow2 (mag x - 52)) in *.
  assert (Es : (x / u == inject_Z (m * 2 ^ j))%Q).
  { rewrite Ex, Ek, inject_Z_mult, <- Ej. field. lra. }
  rewrite (rne_comp _ _ Es), rne_Z.
  rewrite Ex, Ek, inject_Z_mult, <- Ej. ring.
Qed.

(** A number [m * 2^k] with [0 <= m < 2^53] is a double. *)
Lemma fl_exact (m k : Z) :
  0 <= m < 2 ^ 53 -> (fl (inject_Z m * pow2 k) == inject_Z m * pow2 k)%Q.
Proof.
  intros [Hm0 Hm]. destruct (Z.eq_dec m 0) as [->|Nm].
  - rewrite fl_zero; ring.
  - apply (fl_exact_at _ m k); [reflexivity|lia].
Qed.

Lemma fl_exact_Z (z : Z) : 0 <= z <= 2 ^ 53 -> (fl (inject_Z z) == inject_Z z)%Q.
Proof.
  intros [H0 H1]. destruct (Z.eq_dec z (2 ^ 53)) as [->|N].
  - assert (E : (inject_Z (2 ^ 53) == inject_Z 1 * pow2 53)%Q).
    { rewrite pow2_Z by lia. ring. }
    rewrite (fl_comp _ _ E), fl_exact by lia. now rewrite E.
  - assert (E : (inject_Z z == inject_Z z * pow2 0)%Q)
      by (unfold pow2; simpl; ring).
    rewrite (fl_comp _ _ E), fl_exact by lia. now rewrite <- E.
Qed.

(** The largest double below 1 is [1 - 2^-53]. *)
Lemma double_below_one (r : Q) :
  isDouble r = true -> (0 <= r)%Q -> (r < 1)%Q -> (r <= 1 - pow2 (-53))%Q.
Proof.
  intros Hd H0 H1. apply Qeq_bool_iff in Hd.
  assert (P : (pow2 (-53) <= 1 # 2)%Q) by (unfold pow2; simpl; unfold Qle; simpl; lia).
  destruct (Qlt_le_dec r (1 # 2)) as [Hs|Hb]; [lra|].
  assert (Nr : ~ (r == 0)%Q) by lra.
  assert (Em : mag r = -1).
  { apply mag_unique; [exact Nr| |]; rewrite (Qabs_pos r) by lra.
    - unfold pow2. simpl. exact Hb.
    - unfold pow2. simpl. exact H1. }
  rewrite (fl_nonzero r Nr), Em in Hd. simpl (-1 - 52) in Hd.
  set (n := rne (r / pow2 (-53))) in *.
  assert (Hn : n < 2 ^ 53).
  { rewrite Zlt_Qlt. rewrite <- pow2_Z by lia.
    pose proof (pow2_pos (-53)) as Pu.
    pose proof (pow2_add 53 (-53)) as E. simpl (53 + -53) in E.
    assert (E1 : (pow2 0 == 1)%Q) by reflexivity.
    apply (Qmult_lt_r _ _ (pow2 (-53)) Pu). lra. }
  assert (Hn' : (inject_Z n <= inject_Z (2 ^ 53 - 1))%Q)
    by (rewrite <- Zle_Qle; lia).
  pose proof (pow2_pos (-53)) as Pu.
  assert (Hle : (inject_Z n * pow2 (-53) <= inject_Z (2 ^ 53 - 1) * pow2 (-53))%Q).
  { apply Qmult_le_compat_r; [exact Hn'|now apply Qlt_le_weak]. }
  assert (E : (inject_Z (2 ^ 53 - 1) * pow2 (-53) == 1 - pow2 (-53))%Q).
  { unfold pow2. simpl. reflexivity. }
  lra.
Qed.

(** *** [randomTime] *)

(** [Math.round] returns an integer nearest to its argument. *)
Lemma Math_round_near (x : Q) :
  (x - (1 # 2) < inject_Z (Math_round x) <= x + (1 # 2))%Q.
Proof.
  unfold Math_round. split.
  - pose proof (Qlt_floor (x + (1 # 2))) as H.
    rewrite inject_Z_plus in H. change (inject_Z 1) with 1%Q in H. lra.
  - apply Qfloor_le.
Qed.

Lemma Math_round_unique (x : Q) (k : Z) :
  (inject_Z k - (1 # 2) <= x)%Q -> (x < inject_Z k + (1 # 2))%Q ->
  Math_round x = k.
Proof.
  intros Hlo Hhi. destruct (Math_round_near x) as [H1 H2].
  assert (Ha : (inject_Z (k - 1) < inject_Z (Math_round x))%Q).
  { replace (k - 1) with (k + -1) by lia. rewrite inject_Z_plus.
    change (inject_Z (-1)) with (-1 # 1)%Q. lra. }
  assert (Hb : (inject_Z (Math_round x) < inject_Z (k + 1))%Q).
  { rewrite inject_Z_plus. change (inject_Z 1) with 1%Q. lra. }
  rewrite <- Zlt_Qlt in Ha, Hb. lia.
Qed.

Lemma fl_nonneg (x : Q) : (0 <= x)%Q -> (0 <= fl x)%Q.
Proof.
  intros H. pose proof (fl_nonneg_mono 0 x (Qle_refl 0) H) as Hm.
  rewrite (fl_zero 0 (Qeq_refl 0)) in Hm. exact Hm.
Qed.

Lemma fl_sub_Z (min max : Z) :
  0 <= min -> min <= max -> max <= 2 ^ 53 ->
  (fl (inject_Z max - inject_Z min) == inject_Z (max - min))%Q.
Proof.
  intros H0 Hmm Hb.
  rewrite (fl_comp _ (inject_Z (max - min))).
  - apply fl_exact_Z. lia.
  - replace (max - min) with (max + - min) by lia.
    rewrite inject_Z_plus, inject_Z_opp. ring.
Qed.

(** The double handed to [Math.round] lies between [min] and [max]. *)
Lemma randomValue_bounds (min max : Z) (r : Q) :
  0 <= min -> min <= max -> max <= 2 ^ 53 -> validDraw r = true ->
  (inject_Z min <= randomValue min max r <= inject_Z max)%Q.
Proof.
  intros H0 Hmm Hb Hr. apply validDraw_bounds in Hr. destruct Hr as [Hr0 Hr1].
  unfold randomValue.
  pose proof (fl_sub_Z min max H0 Hmm Hb) as Hs.
  set (s := fl (inject_Z max - inject_Z min)) in *.
  assert (Hd : (0 <= inject_Z (max - min))%Q).
  { change 0%Q with (inject_Z 0). rewrite <- Zle_Qle. lia. }
  assert (Hmax : (inject_Z max == inject_Z (max - min) + inject_Z min)%Q).
  { rewrite <- inject_Z_plus. now replace (max - min + min) with max by lia. }
  assert (Hp0 : (0 <= r * s)%Q).
  { apply Qmult_le_0_compat; [assumption|]. rewrite Hs. assumption. }
  assert (Hp1 : (r * s <= inject_Z (max - min))%Q).
  { assert (Hrd : (r * s <= 1 * s)%Q).
    { apply Qmult_le_compat_r; [apply Qlt_le_weak; assumption|].
      rewrite Hs. assumption. }
    lra. }
  pose proof (fl_nonneg _ Hp0) as Hf0.
  pose proof (fl_nonneg_mono _ _ Hp0 Hp1) as Hf1.
  rewrite (fl_exact_Z (max - min)) in Hf1 by lia.
  set (p := fl (r * s)) in *.
  assert (Hmin0 : (0 <= inject_Z min)%Q).
  { change 0%Q with (inject_Z 0). rewrite <- Zle_Qle. lia. }
  split.
  - assert (Hle : (inject_Z min <= p + inject_Z min)%Q) by lra.
    pose proof (fl_nonneg_mono _ _ Hmin0 Hle) as Hm.
    rewrite (fl_exact_Z min) in Hm by lia. exact Hm.
  - assert (Hle : (p + inject_Z min <= inject_Z max)%Q) by lra.
    assert (Hge : (0 <= p + inject_Z min)%Q) by lra.
    pose proof (fl_nonneg_mono _ _ Hge Hle) as Hm.
    rewrite (fl_exact_Z max) in Hm by lia. exact Hm.
Qed.

Lemma randomTime_bounds (min max : Z) (r : Q) :
  0 <= min -> min <= max -> max <= 2 ^ 53 -> validDraw r = true ->
  min <= randomTime min max r <= max.
Proof.
  intros H0 Hmm Hb Hr. unfold randomTime.
  destruct (randomValue_bounds min max r H0 Hmm Hb Hr).
  now apply Math_round_bounds.
Qed.

Lemma randomTime_min (min max : Z) :
  0 <= min -> min <= max -> max <= 2 ^ 53 -> randomTime min max 0 = min.
Proof.
  intros H0 Hmm Hb. unfold randomTime, randomValue.
  rewrite (fl_zero (0 * _)) by ring.
  assert (E : (fl (0 + inject_Z min) == inject_Z min)%Q).
  { rewrite (fl_comp _ (inject_Z min)) by ring. apply fl_exact_Z. lia. }
  apply Math_round_unique; rewrite E; lra.
Qed.

Lemma stepsFor_spec (min max k : Z) :
  0 <= min -> min <= k -> k <= max -> max < 2 ^ 26 ->
  0 <= stepsFor min max k < 2 ^ 27 /\
  2 * (k - min) * 2 ^ 27 - 2 ^ 27
    <= 2 * (stepsFor min max k * (max - min))
    < 2 * (k - min) * 2 ^ 27 + 2 ^ 27.
Proof.
  intros H0 Hk Hmax Hb. unfold stepsFor.
  change (2 ^ 27) with 134217728. change (2 ^ 26) with 67108864 in Hb.
  destruct (max <=? k) eqn:E.
  - apply Z.leb_le in E. assert (k = max) by lia. subst k. lia.
  - apply Z.leb_gt in E.
    set (d := max - min). set (t := k - min).
    assert (Hd : 0 < d) by (unfold d; lia).
    assert (Ht : 0 <= t < d) by (unfold t, d; lia).
    assert (Hd' : d < 67108864) by (unfold d; lia).
    set (a := t * 134217728 + d - 1).
    assert (Ha : 0 <= a) by (unfold a; lia).
    pose proof (Z.mul_div_le a d Hd) as H1.
    pose proof (Z.mul_succ_div_gt a d Hd) as H2.
    pose proof (Z.div_pos a d Ha Hd) as H3.
    set (n := a / d) in *.
    assert (Hnd : t * 134217728 <= d * n <= t * 134217728 + d - 1).
    { unfold a in H1, H2. lia. }
    assert (Hn : n < 134217728).
    { assert (d * n < d * 134217728) by nia. nia. }
    rewrite (Z.mul_comm n d). lia.
Qed.

Lemma pow2_m27 : (pow2 (-27) == 1 # 134217728)%Q.
Proof. reflexivity. Qed.

(** Below [2^26] every duration of the range comes at a double draw. *)
Lemma drawFor_ok (min max k : Z) :
  0 <= min -> min <= k -> k <= max -> max < 2 ^ 26 ->
  isDouble (drawFor min max k) = true /\
  validDraw (drawFor min max k) = true /\
  randomTime min max (drawFor min max k) = k.
Proof.
  intros H0 Hk Hmax Hb.
  destruct (stepsFor_spec min max k H0 Hk Hmax Hb) as [Hn Hnd].
  unfold drawFor. set (n := stepsFor min max k) in *.
  change (2 ^ 27) with 134217728 in *. change (2 ^ 26) with 67108864 in Hb.
  assert (Hn0 : (0 <= inject_Z n)%Q).
  { change 0%Q with (inject_Z 0). rewrite <- Zle_Qle. lia. }
  assert (Hn1 : (inject_Z n < 134217728)%Q).
  { change 134217728%Q with (inject_Z 134217728). rewrite <- Zlt_Qlt. lia. }
  split; [|split].
  - unfold isDouble. apply Qeq_bool_iff. apply fl_exact.
    change (2 ^ 53) with 9007199254740992. lia.
  - unfold validDraw. apply andb_true_iff. split.
    + apply Qle_bool_iff. rewrite pow2_m27. lra.
    + apply negb_true_iff. apply not_true_is_false. intros H.
      apply Qle_bool_iff in H. rewrite pow2_m27 in H. lra.
  - unfold randomTime, randomValue.
    set (d := max - min) in *.
    assert (Hd : 0 <= d < 67108864) by (unfold d; lia).
    assert (Hs : (fl (inject_Z max - inject_Z min) == inject_Z d)%Q).
    { apply fl_sub_Z; change (2 ^ 53) with 9007199254740992; lia. }
    assert (Hp : (fl (inject_Z n * pow2 (-27) * fl (inject_Z max - inject_Z min))
                  == inject_Z (n * d) * pow2 (-27))%Q).
    { rewrite (fl_comp _ (inject_Z (n * d) * pow2 (-27))).
      - apply fl_exact. change (2 ^ 53) with 9007199254740992. nia.
      - rewrite Hs, inject_Z_mult. ring. }
    assert (Hv : (fl (fl (inject_Z n * pow2 (-27) * fl (inject_Z max - inject_Z min))
                      + inject_Z min)
                  == inject_Z (n * d + min * 134217728) * pow2 (-27))%Q).
    { rewrite (fl_comp _ (inject_Z (n * d + min * 134217728) * pow2 (-27))).
      - apply fl_exact. change (2 ^ 53) with 9007199254740992. nia.
      - rewrite Hp, inject_Z_plus, (inject_Z_mult min), pow2_m27.
        change (inject_Z 134217728) with 134217728%Q. field. }
    assert (Hq : (inject_Z (n * d + min * 134217728) * pow2 (-27)
                  == inject_Z (n * d) * (1 # 134217728) + inject_Z min)%Q).
    { rewrite inject_Z_plus, (inject_Z_mult min), pow2_m27.
      change (inject_Z 134217728) with 134217728%Q. field. }
    assert (Hlo : (inject_Z (2 * (k - min) * 134217728 - 134217728)
                   <= inject_Z (2 * (n * d)))%Q) by (rewrite <- Zle_Qle; lia).
    assert (Hhi : (inject_Z (2 * (n * d))
                   < inject_Z (2 * (k - min) * 134217728 + 134217728))%Q)
      by (rewrite <- Zlt_Qlt; lia).
    replace (2 * (k - min) * 134217728 - 134217728)
      with (2 * (k + - min) * 134217728 + -134217728) in Hlo by lia.
    replace (2 * (k - min) * 134217728 + 134217728)
      with (2 * (k + - min) * 134217728 + 134217728) in Hhi by lia.
    rewrite !inject_Z_plus, !inject_Z_mult, !inject_Z_plus, !inject_Z_opp in Hlo, Hhi.
    rewrite <- (inject_Z_mult n d) in Hlo, Hhi.
    change (inject_Z 134217728) with 134217728%Q in Hlo, Hhi.
    change (inject_Z (-134217728)) with (-134217728 # 1)%Q in Hlo.
    change (inject_Z 2) with 2%Q in Hlo, Hhi.
    apply Math_round_unique; rewrite Hv, Hq; lra.
Qed.

(** At the range from [0] to [2^60] no double draw gives the upper bound:
    the largest double below [1] falls [128] short of it. *)
Lemma randomTime_short (r : Q) :
  isDouble r = true -> validDraw r = true ->
  randomTime 0 (2 ^ 60) r <= 2 ^ 60 - 128.
Proof.
  intros Hd Hr. apply validDraw_bounds in Hr. destruct Hr as [Hr0 Hr1].
  pose proof (double_below_one r Hd Hr0 Hr1) as Htop.
  unfold randomTime, randomValue.
  assert (Hs : (fl (inject_Z (2 ^ 60) - inject_Z 0) == inject_Z (2 ^ 60))%Q).
  { rewrite (fl_comp _ (inject_Z 1 * pow2 60)).
    - rewrite fl_exact by (change (2 ^ 53) with 9007199254740992; lia).
      reflexivity.
    - reflexivity. }
  set (s := fl (inject_Z (2 ^ 60) - inject_Z 0)) in *.
  assert (HT : (inject_Z (2 ^ 53 - 1) * pow2 7 == inject_Z (2 ^ 60 - 128))%Q)
    by reflexivity.
  assert (Hp0 : (0 <= r * s)%Q).
  { apply Qmult_le_0_compat; [assumption|]. rewrite Hs. discriminate. }
  assert (Hp1 : (r * s <= inject_Z (2 ^ 53 - 1) * pow2 7)%Q).
  { rewrite HT, Hs.
    assert (H : (r * inject_Z (2 ^ 60) <= (1 - pow2 (-53)) * inject_Z (2 ^ 60))%Q).
    { apply Qmult_le_compat_r; [assumption|discriminate]. }
    assert (E : ((1 - pow2 (-53)) * inject_Z (2 ^ 60) == inject_Z (2 ^ 60 - 128))%Q)
      by reflexivity.
    rewrite E in H. exact H. }
  pose proof (fl_nonneg _ Hp0) as Hf0.
  pose proof (fl_nonneg_mono _ _ Hp0 Hp1) as Hf1.
  rewrite fl_exact in Hf1 by (change (2 ^ 53) with 9007199254740992; lia).
  set (p := fl (r * s)) in *.
  assert (Hq0 : (0 <= p + inject_Z 0)%Q) by (change (inject_Z 0) with 0%Q; lra).
  assert (Hq1 : (p + inject_Z 0 <= inject_Z (2 ^ 53 - 1) * pow2 7)%Q)
    by (change (inject_Z 0) with 0%Q; lra).
  pose proof (fl_nonneg _ Hq0) as Hg0.
  pose proof (fl_nonneg_mono _ _ Hq0 Hq1) as Hg1.
  rewrite fl_exact in Hg1 by (change (2 ^ 53) with 9007199254740992; lia).
  rewrite HT in Hg1.
  apply (Math_round_bounds _ 0 (2 ^ 60 - 128)); assumption.
Qed.

Lemma at_index_in (ms : list MoleData) (idx : Z) (m : MoleData) :
  at_index ms idx = Some m -> In m ms.
Proof.
  unfold at_index. destruct (idx <? 0); [discriminate|].
  apply nth_error_In.
Qed.

(** A draw in [0, 1) indexes a slot of a non-empty board. *)
Lemma pick_defined (ms : list MoleData) (r : Q) :
  ms <> [] -> validDraw r = true -> exists h, pick ms r = Some h.
Proof.
  intros Hne Hr. apply validDraw_bounds in Hr. destruct Hr as [H0 H1].
  unfold pick, Math_floor.
  set (n := Z.of_nat (length ms)).
  assert (Hn : 0 < n).
  { unfold n. destruct ms; [congruence|]. simpl length. lia. }
  assert (HnQ : (0 < inject_Z n)%Q).
  { change 0%Q with (inject_Z 0). now rewrite <- Zlt_Qlt. }
  assert (Hlo : 0 <= Qfloor (r * inject_Z n)).
  { rewrite <- (Qfloor_Z 0). apply Qfloor_resp_le.
    change (inject_Z 0) with 0%Q. apply Qmult_le_0_compat; [assumption|].
    now apply Qlt_le_weak. }
  assert (Hhi : Qfloor (r * inject_Z n) < n).
  { assert (Hf := Qfloor_le (r * inject_Z n)).
    assert (Hrn : (r * inject_Z n < 1 * inject_Z n)%Q)
      by (apply Qmult_lt_compat_r; assumption).
    rewrite Zlt_Qlt. lra. }
  unfold at_index.
  destruct (Qfloor (r * inject_Z n) <? 0) eqn:E; [apply Z.ltb_lt in E; lia|].
  destruct (nth_error ms (Z.to_nat (Qfloor (r * inject_Z n)))) eqn:En.
  - simpl. eauto.
  - apply nth_error_None in En. unfold n in *. lia.
Qed.

Lemma randomHole_unfold (ms : list MoleData) (r : Q) (rnd : list Q) (w : World) :
  randomHole ms (r :: rnd) w =
  match pick ms r with
  | None => None
  | Some hole =>
      if hole =? lastHoleRef w then randomHole ms rnd w
      else Some (hole, set_lastHoleRef hole w)
  end.
Proof.
  unfold pick. cbn [randomHole].
  destruct (at_index ms (Math_floor (r * inject_Z (Z.of_nat (length ms)))));
    reflexivity.
Qed.

Lemma pick_in (ms : list MoleData) (r : Q) (h : Z) :
  pick ms r = Some h -> In h (map id ms).
Proof.
  unfold pick.
  destruct (at_index ms _) eqn:E; simpl; [|discriminate].
  intros H. injection H as <-. apply in_map. eapply at_index_in; eauto.
Qed.

(** Whatever [randomHole] returns differs from the hole stored before the
    call, is a slot of the board, and is the hole stored after it. *)
Lemma randomHole_spec (ms : list MoleData) (rnd : list Q) (w : World)
    (hole : Z) (w' : World) :
  randomHole ms rnd w = Some (hole, w') ->
  hole <> lastHoleRef w /\ w' = set_lastHoleRef hole w /\ In hole (map id ms).
Proof.
  induction rnd as [|r rnd IH]; [discriminate|].
  rewrite randomHole_unfold.
  destruct (pick ms r) as [h|] eqn:Ep; [|discriminate].
  destruct (h =? lastHoleRef w) eqn:E.
  - exact IH.
  - intros H. injection H as <- <-. apply Z.eqb_neq in E.
    repeat split; [assumption|]. eapply pick_in; eauto.
Qed.

(** [randomHole] returns as soon as a draw selects another hole. *)
Lemma randomHole_returns (ms : list MoleData) (rnd : list Q) (r : Q) (w : World)
    (h : Z) :
  ms <> [] -> forallb validDraw rnd = true ->
  pick ms r = Some h -> h <> lastHoleRef w ->
  exists hole, randomHole ms (rnd ++ [r]) w = Some (hole, set_lastHoleRef hole w).
Proof.
  intros Hne Hv Hp Hh. induction rnd as [|r0 rnd IH].
  - simpl app. rewrite randomHole_unfold, Hp.
    apply Z.eqb_neq in Hh. rewrite Hh. eauto.
  - simpl in Hv. apply andb_true_iff in Hv. destruct Hv as [Hv0 Hv].
    simpl app. rewrite randomHole_unfold.
    destruct (pick_defined ms r0 Hne Hv0) as [h0 Eh0]. rewrite Eh0.
    destruct (h0 =? lastHoleRef w); eauto.
Qed.

(** With two slots or more, some draw selects a hole other than [last]. *)
Lemma other_hole_exists (ms : list MoleData) (last : Z) :
  (2 <= length ms)%nat -> NoDup (map id ms) ->
  exists r h, validDraw r = true /\ pick ms r = Some h /\ h <> last.
Proof.
  intros Hlen Hnd.
  destruct ms as [|m0 [|m1 rest]]; simpl in Hlen; try lia.
  destruct (Z.eq_dec (id m0) last) as [E0|N0].
  - exists (secondDraw (length (m0 :: m1 :: rest))), (id m1).
    assert (Hpos : Z.pos (Pos.of_nat (length (m0 :: m1 :: rest)))
                   = Z.of_nat (length (m0 :: m1 :: rest))).
    { rewrite <- (Nat2Pos.id (length (m0 :: m1 :: rest))) at 2 by (simpl; lia).
      now rewrite positive_nat_Z. }
    assert (Hone : (secondDraw (length (m0 :: m1 :: rest))
                    * inject_Z (Z.of_nat (length (m0 :: m1 :: rest))) == 1)%Q).
    { unfold secondDraw, Qeq, Qmult, inject_Z.
      cbn [Qnum Qden]. rewrite Pos.mul_1_r, Hpos. ring. }
    split; [|split].
    + unfold validDraw, secondDraw. apply andb_true_iff. split.
      * apply Qle_bool_iff. unfold Qle. simpl. lia.
      * apply negb_true_iff. apply not_true_is_false. intros H.
        apply Qle_bool_iff in H. unfold Qle in H. cbn [Qnum Qden] in H.
        rewrite Hpos in H. simpl length in H. lia.
    + unfold pick, Math_floor. rewrite Hone.
      change (Qfloor 1) with 1. reflexivity.
    + inversion Hnd as [|? ? Hnin _]. subst. intros E. apply Hnin.
      simpl. left. congruence.
  - exists 0%Q, (id m0). split; [reflexivity|]. split; [|assumption].
    unfold pick, Math_floor.
    assert (Hz : (0 * inject_Z (Z.of_nat (length (m0 :: m1 :: rest))) == 0)%Q) by ring.
    rewrite Hz. reflexivity.
Qed.

(** ** Lemmas on the board updates *)

Lemma ids_raise (h : Z) (ms : list MoleData) :
  map id (map (raise h) ms) = map id ms.
Proof.
  rewrite map_map. apply map_ext. intros m. unfold raise.
  destruct (id m =? h); reflexivity.
Qed.

Lemma ids_lower (h : Z) (ms : list MoleData) :
  map id (map (lower h) ms) = map id ms.
Proof.
  rewrite map_map. apply map_ext. intros m. unfold lower.
  destruct (id m =? h); reflexivity.
Qed.

Lemma ids_whack (h : Z) (ms : list MoleData) :
  map id (map (whack h) ms) = map id ms.
Proof.
  rewrite map_map. apply map_ext. intros m. unfold whack.
  destruct (validWhack h m); reflexivity.
Qed.

Lemma ids_allIdle (ms : list MoleData) :
  map id (map (fun m => mkMole (id m) IDLE) ms) = map id ms.
Proof.
  rewrite map_map. apply map_ext. reflexivity.
Qed.

Lemma in_raise (h : Z) (ms : list MoleData) (m : MoleData) :
  In m (map (raise h) ms) ->
  (id m = h /\ status m = UP) \/ (id m <> h /\ In m ms).
Proof.
  intros H. apply in_map_iff in H. destruct H as [m0 [<- Hin]].
  unfold raise. destruct (id m0 =? h) eqn:E.
  - apply Z.eqb_eq in E. left. simpl. auto.
  - apply Z.eqb_neq in E. right. auto.
Qed.

Lemma in_lower (h : Z) (ms : list MoleData) (m : MoleData) :
  In m (map (lower h) ms) ->
  (id m = h /\ status m = IDLE) \/ (id m <> h /\ In m ms).
Proof.
  intros H. apply in_map_iff in H. destruct H as [m0 [<- Hin]].
  unfold lower. destruct (id m0 =? h) eqn:E.
  - apply Z.eqb_eq in E. left. simpl. auto.
  - apply Z.eqb_neq in E. right. auto.
Qed.

Lemma validWhack_true (h : Z) (m : MoleData) :
  validWhack h m = true <-> id m = h /\ status m = UP.
Proof.
  unfold validWhack. rewrite andb_true_iff, Z.eqb_eq.
  destruct (status m); simpl; intuition congruence.
Qed.

Lemma in_whack (h : Z) (ms : list MoleData) (m : MoleData) :
  In m (map (whack h) ms) ->
  (exists m0, In m0 ms /\ id m0 = h /\ status m0 = UP /\ m = mkMole h WHACKED)
  \/ (validWhack h m = false /\ In m ms).
Proof.
  intros H. apply in_map_iff in H. destruct H as [m0 [<- Hin]].
  unfold whack. destruct (validWhack h m0) eqn:E.
  - apply validWhack_true in E. destruct E as [E1 E2].
    left. exists m0. rewrite E1. auto.
  - right. auto.
Qed.

Lemma in_allIdle (ms : list MoleData) (m : MoleData) :
  In m (map (fun m0 => mkMole (id m0) IDLE) ms) -> status m = IDLE.
Proof.
  intros H. apply in_map_iff in H. destruct H as [m0 [<- _]]. reflexivity.
Qed.

Lemma iter_setScore (n : nat) (w : World) :
  Nat.iter n (setScore (fun s => s + 1)) w
  = setScore (fun s => s + Z.of_nat n) w.
Proof.
  induction n as [|n IH].
  - destruct w. unfold setScore. simpl. f_equal. lia.
  - rewrite Nat.iter_succ, IH. destruct w. unfold setScore. simpl.
    f_equal. lia.
Qed.

Lemma handleWhack_eq (hitId : Z) (isTrusted : bool) (w : World) :
  handleWhack hitId isTrusted w =
  if negb isTrusted || negb (isPlayingRef w) then w
  else
    setScore (fun s => s + Z.of_nat (credited hitId w))
      (play (repeat Bonk (credited hitId w)) (setMoles (map (whack hitId)) w)).
Proof.
  unfold handleWhack, credited.
  destruct (negb isTrusted || negb (isPlayingRef w)); [reflexivity|].
  apply iter_setScore.
Qed.

(** Distinct ids: a predicate that pins the id selects one element at most. *)
Lemma filter_at_most_one (P : MoleData -> bool) (k : Z) (ms : list MoleData) :
  NoDup (map id ms) ->
  (forall m, In m ms -> P m = true -> id m = k) ->
  (length (filter P ms) <= 1)%nat.
Proof.
  induction ms as [|m ms IH]; intros Hnd HP; simpl; [lia|].
  inversion Hnd as [|? ? Hnin Hnd']. subst.
  destruct (P m) eqn:E.
  - assert (Hnone : filter P ms = []).
    { destruct (filter P ms) as [|m' l] eqn:Ef; [reflexivity|].
      exfalso. assert (Hin : In m' (filter P ms)) by (rewrite Ef; now left).
      apply filter_In in Hin. destruct Hin as [Hin HPm'].
      apply Hnin. rewrite (HP m (or_introl eq_refl) E).
      rewrite <- (HP m' (or_intror Hin) HPm'). now apply in_map. }
    rewrite Hnone. simpl. lia.
  - apply IH; [assumption|]. intros m' Hin. apply HP. now right.
Qed.

Lemma boardIds_NoDup : NoDup boardIds.
Proof.
  unfold boardIds, freshBoard. simpl.
  repeat (constructor; [simpl; intuition discriminate|]). constructor.
Qed.

Lemma find_id_some (i : Z) (ms : list MoleData) (m : MoleData) :
  find (fun m0 => id m0 =? i) ms = Some m -> In m ms /\ id m = i.
Proof.
  intros H. apply find_some in H. destruct H as [Hin E].
  apply Z.eqb_eq in E. auto.
Qed.

(** With distinct ids, [statusOf] reads the one element carrying the id. *)
Lemma statusOf_in (ms : list MoleData) (m : MoleData) :
  NoDup (map id ms) -> In m ms -> statusOf (id m) ms = Some (status m).
Proof.
  unfold statusOf. induction ms as [|m0 ms IH]; intros Hnd Hin; [contradiction|].
  inversion Hnd as [|? ? Hnin Hnd']. subst. simpl.
  destruct Hin as [->|Hin].
  - rewrite Z.eqb_refl. reflexivity.
  - destruct (id m0 =? id m) eqn:E.
    + apply Z.eqb_eq in E. exfalso. apply Hnin. rewrite E. now apply in_map.
    + now apply IH.
Qed.

Lemma statusOf_some (i : Z) (ms : list MoleData) (s : MoleStatus) :
  statusOf i ms = Some s -> exists m, In m ms /\ id m = i /\ status m = s.
Proof.
  unfold statusOf. destruct (find _ ms) as [m|] eqn:E; [|discriminate].
  simpl. intros H. injection H as <-. apply find_id_some in E.
  exists m. tauto.
Qed.

Lemma statusOf_map (f : MoleData -> MoleData) (i : Z) (ms : list MoleData) :
  (forall m, id (f m) = id m) ->
  statusOf i (map f ms)
  = option_map (fun m => status (f m)) (find (fun m0 => id m0 =? i) ms).
Proof.
  intros Hf. unfold statusOf. induction ms as [|m ms IH]; [reflexivity|].
  simpl. rewrite Hf. destruct (id m =? i); [reflexivity|exact IH].
Qed.

(** ** What each handler leaves behind *)

Lemma peep_spec (pmoles : list MoleData) (rnd : list Q) (w w' : World) :
  isPlayingRef w = true -> peep pmoles rnd w = Some w' ->
  exists r rnd' h,
    rnd = r :: rnd' /\
    randomHole pmoles rnd' w = Some (h, set_lastHoleRef h w) /\
    h <> lastHoleRef w /\ In h (map id pmoles) /\
    w' = peepTo h (randomTime MIN_PEEP_TIME MAX_PEEP_TIME r) pmoles w.
Proof.
  intros Hp. unfold peep. rewrite Hp. cbn [negb].
  destruct rnd as [|r rnd']; [discriminate|].
  destruct (randomHole pmoles rnd' w) as [[h w1]|] eqn:E; [|discriminate].
  destruct (randomHole_spec _ _ _ _ _ E) as [Hne [-> Hin]].
  intros H. exists r, rnd', h.
  split; [reflexivity|]. split; [assumption|]. split; [assumption|].
  split; [assumption|].
  destruct w. world_cbv. injection H as <-. reflexivity.
Qed.

Lemma peep_idle (pmoles : list MoleData) (rnd : list Q) (w : World) :
  isPlayingRef w = false -> peep pmoles rnd w = Some w.
Proof.
  intros Hp. unfold peep. rewrite Hp. reflexivity.
Qed.

Lemma startGame_spec (rnd : list Q) (w w' : World) :
  isPlaying w = false -> startGame (render w) rnd w = Some w' ->
  exists r rnd' h,
    rnd = r :: rnd' /\
    randomHole (moles w) rnd' (resetRound w)
      = Some (h, set_lastHoleRef h (resetRound w)) /\
    h <> lastHoleRef w /\ In h (map id (moles w)) /\
    w' = startedWith h (randomTime MIN_PEEP_TIME MAX_PEEP_TIME r) w.
Proof.
  intros Hp. unfold startGame, render. cbn [r_isPlaying r_moles r_score].
  rewrite Hp. fold (resetRound w).
  destruct (peep (moles w) rnd (resetRound w)) as [w6|] eqn:E; [|discriminate].
  apply peep_spec in E; [|reflexivity].
  destruct E as (r & rnd' & h & -> & Hrh & Hne & Hin & ->).
  intros H. exists r, rnd', h.
  split; [reflexivity|]. split; [assumption|]. split; [assumption|].
  split; [assumption|].
  destruct w. world_cbv. injection H as <-. reflexivity.
Qed.

Lemma startGame_running (rnd : list Q) (w : World) :
  isPlaying w = true -> startGame (render w) rnd w = Some w.
Proof.
  intros Hp. unfold startGame, render. cbn [r_isPlaying]. rewrite Hp.
  reflexivity.
Qed.

Lemma hideCallback_spec (t : HideTimer) (rnd : list Q) (w w' : World) :
  isPlayingRef w = true -> hideCallback t rnd w = Some w' ->
  exists r rnd' h,
    rnd = r :: rnd' /\
    h <> lastHoleRef w /\ In h (map id (ht_moles t)) /\
    w' = peepTo h (randomTime MIN_PEEP_TIME MAX_PEEP_TIME r) (ht_moles t)
           (setMoles (map (lower (ht_holeIdx t))) w).
Proof.
  intros Hp. unfold hideCallback.
  change (isPlayingRef (setMoles (map (lower (ht_holeIdx t))) w))
    with (isPlayingRef w).
  rewrite Hp. intros E. apply peep_spec in E; [|exact Hp].
  destruct E as (r & rnd' & h & -> & _ & Hne & Hin & ->).
  exists r, rnd', h.
  split; [reflexivity|]. split; [assumption|]. split; [assumption|].
  reflexivity.
Qed.

Lemma hideCallback_stopped (t : HideTimer) (rnd : list Q) (w : World) :
  isPlayingRef w = false ->
  hideCallback t rnd w = Some (setMoles (map (lower (ht_holeIdx t))) w).
Proof.
  intros Hp. unfold hideCallback.
  change (isPlayingRef (setMoles (map (lower (ht_holeIdx t))) w))
    with (isPlayingRef w).
  rewrite Hp. reflexivity.
Qed.

(** ** The fields of a world after [endGame] *)

Lemma endGame_observe (c : Z) (w : World) :
  observe (endGame c w)
  = (false, score w, Z.max (highScore w) c, timeLeft w,
     map (fun m => mkMole (id m) IDLE) (moles w)).
Proof.
  endGame_cases w.
Qed.

Lemma endGame_refs (c : Z) (w : World) :
  isPlayingRef (endGame c w) = false /\
  lastHoleRef (endGame c w) = lastHoleRef w /\
  gameTimerRef (endGame c w) = gameTimerRef w /\
  peepTimerRef (endGame c w) = peepTimerRef w /\
  nextTimer (endGame c w) = nextTimer w /\
  now (endGame c w) = now w /\
  cues (endGame c w) = cues w ++ [GameOver].
Proof.
  endGame_cases w.
Qed.

Lemma endGame_timeouts (c : Z) (w : World) :
  timeouts (endGame c w)
  = match peepTimerRef w with
    | Some h => if h =? 0 then timeouts w
                else filter (fun t => negb (ht_id t =? h)) (timeouts w)
    | None => timeouts w
    end.
Proof.
  endGame_cases w.
Qed.

Lemma endGame_intervals (c : Z) (w : World) :
  intervals (endGame c w)
  = match gameTimerRef w with
    | Some h => if h =? 0 then intervals w
                else filter (fun c0 => negb (ct_id c0 =? h)) (intervals w)
    | None => intervals w
    end.
Proof.
  endGame_cases w.
Qed.

(** Under the invariant [endGame] leaves no timer armed. *)
Lemma endGame_disarms (c : Z) (w : World) :
  Inv w -> timeouts (endGame c w) = [] /\ intervals (endGame c w) = [].
Proof.
  intros HI. rewrite endGame_timeouts, endGame_intervals.
  pose proof (inv_timers w HI) as Ht.
  destruct (isPlayingRef w).
  - destruct Ht as (t & c0 & -> & -> & -> & -> & _ & [Ht _] & [Hc _] & _ & _).
    assert (E1 : (ht_id t =? 0) = false) by (apply Z.eqb_neq; lia).
    assert (E2 : (ct_id c0 =? 0) = false) by (apply Z.eqb_neq; lia).
    rewrite E1, E2. simpl. rewrite !Z.eqb_refl. simpl. auto.
  - destruct Ht as [-> ->].
    destruct (peepTimerRef w) as [h|], (gameTimerRef w) as [g|];
      repeat match goal with |- context [if ?b then _ else _] => destruct b end;
      simpl; auto.
Qed.

Lemma endGame_state (c : Z) (w : World) :
  isPlaying (endGame c w) = false /\
  score (endGame c w) = score w /\
  highScore (endGame c w) = Z.max (highScore w) c /\
  timeLeft (endGame c w) = timeLeft w /\
  moles (endGame c w) = map (fun m => mkMole (id m) IDLE) (moles w).
Proof.
  endGame_cases w.
Qed.

Lemma set_intervals_same (w : World) : set_intervals (intervals w) w = w.
Proof.
  destruct w. reflexivity.
Qed.

(** ** The invariant holds in every reachable world *)

Lemma freshBoard_idle (m : MoleData) : In m freshBoard -> status m = IDLE.
Proof.
  unfold freshBoard. intros H. apply in_map_iff in H.
  destruct H as [i [<- _]]. reflexivity.
Qed.

Lemma Inv_init : Inv initialWorld.
Proof.
  constructor; simpl; try reflexivity; try lia; try discriminate; auto.
  intros m Hin Hs. exfalso. apply Hs. now apply freshBoard_idle.
Qed.

Lemma Inv_set_now (t : Z) (w : World) : Inv w -> Inv (set_now t w).
Proof.
  intros [H1 H2 H3 H4 H5 H6]. destruct w. constructor; assumption.
Qed.

Lemma Inv_setTimeLeft_stopped (v : Z) (w : World) :
  isPlayingRef w = false -> Inv w -> Inv (setTimeLeft v w).
Proof.
  intros Hp [H1 H2 H3 H4 H5 H6]. destruct w. world_cbv.
  constructor; try assumption.
  world_cbv. intros E. congruence.
Qed.

Lemma Inv_handleWhack (hitId : Z) (isTrusted : bool) (w : World) :
  Inv w -> Inv (handleWhack hitId isTrusted w).
Proof.
  intros HI. rewrite handleWhack_eq.
  destruct (negb isTrusted || negb (isPlayingRef w)); [assumption|].
  destruct HI as [H1 H2 H3 H4 H5 H6]. unfold credited.
  destruct w. world_cbv. constructor; world_cbv; try assumption.
  - now rewrite ids_whack.
  - intros m Hin Hs. apply in_whack in Hin.
    destruct Hin as [(m0 & Hin0 & Hid & Hup & ->)|[_ Hin]].
    + simpl. rewrite <- Hid. apply H3; [assumption|]. rewrite Hup. discriminate.
    + now apply H3.
Qed.

Lemma Inv_endGame (c : Z) (w : World) : Inv w -> Inv (endGame c w).
Proof.
  intros HI.
  destruct (endGame_state c w) as (Ep & _ & _ & Etl & Em).
  destruct (endGame_refs c w) as (Er & Elh & _ & _ & Ent & _ & _).
  destruct (endGame_disarms c w HI) as [Eto Eiv].
  destruct HI as [H1 H2 H3 H4 H5 H6].
  constructor.
  - rewrite Em, ids_allIdle. assumption.
  - now rewrite Ep, Er.
  - rewrite Em. intros m Hin Hs. exfalso. apply Hs. eapply in_allIdle; eauto.
  - now rewrite Ent.
  - rewrite Er. discriminate.
  - rewrite Er. auto.
Qed.

(** What a click on Start does in a world where no round is running. *)
Lemma step_start_spec (time : Z) (rnd : list Q) (w w' : World) :
  isPlaying w = false -> step (ClickStart time rnd) w = Some w' ->
  now w <= time /\
  exists r rnd' h,
    rnd = r :: rnd' /\ h <> lastHoleRef w /\ In h (map id (moles w)) /\
    randomHole (moles w) rnd' (resetRound (set_now time w))
      = Some (h, set_lastHoleRef h (resetRound (set_now time w))) /\
    w' = startedWith h (randomTime MIN_PEEP_TIME MAX_PEEP_TIME r)
           (set_now time w).
Proof.
  intros Hp. unfold step. cbn [eventTime].
  destruct (time <? now w) eqn:Et; [discriminate|]. apply Z.ltb_ge in Et.
  intros H. apply startGame_spec in H; [|exact Hp].
  destruct H as (r & rnd' & h & -> & Hrh & Hne & Hin & ->).
  split; [assumption|]. exists r, rnd', h.
  split; [reflexivity|]. split; [exact Hne|]. split; [exact Hin|].
  split; [exact Hrh|reflexivity].
Qed.

Lemma Inv_startedWith (h time : Z) (w : World) :
  Inv w -> isPlaying w = false -> In h boardIds ->
  Inv (startedWith h time w).
Proof.
  intros [H1 H2 H3 H4 H5 H6] Hp Hb. rewrite Hp in H2. rewrite <- H2 in H6.
  destruct H6 as [Hto Hiv].
  destruct w. world_cbv. subst. constructor; world_cbv.
  - rewrite ids_raise. reflexivity.
  - reflexivity.
  - intros m Hin Hs. apply in_raise in Hin. destruct Hin as [[E _]|[_ Hin]].
    + auto.
    + exfalso. apply Hs. now apply freshBoard_idle.
  - lia.
  - intros _. unfold GAME_DURATION. lia.
  - eexists. eexists. simpl.
    repeat (split; [reflexivity|]). simpl.
    repeat split; try lia; assumption.
Qed.

(** What the firing of hide timer [h] does. *)
Lemma step_hide_spec (time h : Z) (rnd : list Q) (w w' : World) :
  Inv w -> step (HideFires time h rnd) w = Some w' ->
  exists t r rnd' hole,
    timeouts w = [t] /\ ht_id t = h /\ isPlayingRef w = true /\
    now w <= time /\ ht_due t <= time /\
    rnd = r :: rnd' /\ hole <> ht_holeIdx t /\ In hole boardIds /\
    w' = peepTo hole (randomTime MIN_PEEP_TIME MAX_PEEP_TIME r) (ht_moles t)
           (setMoles (map (lower (ht_holeIdx t)))
              (set_timeouts [] (set_now time w))).
Proof.
  intros HI. unfold step. cbn [eventTime].
  destruct (time <? now w) eqn:Et; [discriminate|]. apply Z.ltb_ge in Et.
  change (timeouts (set_now time w)) with (timeouts w).
  pose proof (inv_timers w HI) as Ht.
  destruct (isPlayingRef w) eqn:Hp.
  - destruct Ht as (t & c & Hto & _ & _ & _ & Hh & _ & _ & Hpm & _).
    rewrite Hto. simpl find.
    destruct (ht_id t =? h) eqn:Eh; [|discriminate]. apply Z.eqb_eq in Eh.
    destruct (time <? ht_due t) eqn:Ed; [discriminate|]. apply Z.ltb_ge in Ed.
    intros H. apply hideCallback_spec in H.
    + destruct H as (r & rnd' & hole & -> & Hne & Hin & ->).
      exists t, r, rnd', hole.
      assert (Hlh : lastHoleRef (clearTimeout h (set_now time w)) = lastHoleRef w)
        by (destruct w; reflexivity).
      rewrite Hlh, <- Hh in Hne. rewrite Hpm in Hin.
      repeat (split; [assumption || reflexivity|]).
      assert (Hc : clearTimeout h (set_now time w)
                   = set_timeouts [] (set_now time w)).
      { destruct w. world_cbv. rewrite Hto. simpl.
        rewrite Eh, Z.eqb_refl. reflexivity. }
      rewrite Hc. reflexivity.
    + destruct w. exact Hp.
  - destruct Ht as [-> _]. discriminate.
Qed.

Lemma Inv_hidden (hole time : Z) (t : HideTimer) (at_ : Z) (w : World) :
  Inv w -> timeouts w = [t] -> isPlayingRef w = true ->
  hole <> ht_holeIdx t -> In hole boardIds ->
  Inv (peepTo hole time (ht_moles t)
         (setMoles (map (lower (ht_holeIdx t)))
            (set_timeouts [] (set_now at_ w)))).
Proof.
  intros [H1 H2 H3 H4 H5 H6] Hto Hp Hne Hb. rewrite Hp in H6.
  destruct H6 as (t0 & c & Hto0 & Hiv & Hpr & Hgr & Hh & Hti & Hci & Hpm & _).
  rewrite Hto in Hto0. injection Hto0 as <-.
  destruct w. world_cbv. subst. constructor; world_cbv.
  - rewrite ids_raise, ids_lower. assumption.
  - congruence.
  - intros m Hin Hs. apply in_raise in Hin. destruct Hin as [[E _]|[_ Hin]].
    + auto.
    + apply in_lower in Hin. destruct Hin as [[_ E]|[Hn Hin]].
      * contradiction.
      * exfalso. apply Hn. now apply H3.
  - lia.
  - assumption.
  - exists (mkHide nextTimer0 (at_ + time) hole (ht_moles t)), c. simpl.
    repeat (split; [reflexivity|]). repeat split; try lia; assumption.
Qed.

(** What a tick of clock [h] does. *)
Lemma step_tick_spec (time h : Z) (w w' : World) :
  Inv w -> step (ClockTick time h) w = Some w' ->
  exists c,
    intervals w = [c] /\ ct_id c = h /\ isPlayingRef w = true /\
    now w <= time /\ ct_due c <= time /\
    w' = if timeLeft w <=? 1
         then setTimeLeft 0 (endGame (ct_score c) (set_now time w))
         else set_intervals [mkClock h (ct_due c + 1000) (ct_score c)]
                (setTimeLeft (timeLeft w - 1) (set_now time w)).
Proof.
  intros HI. unfold step. cbn [eventTime].
  destruct (time <? now w) eqn:Et; [discriminate|]. apply Z.ltb_ge in Et.
  change (intervals (set_now time w)) with (intervals w).
  pose proof (inv_timers w HI) as Ht.
  destruct (isPlayingRef w) eqn:Hp.
  - destruct Ht as (t & c & _ & Hiv & _).
    rewrite Hiv. simpl find.
    destruct (ct_id c =? h) eqn:Eh; [|discriminate]. apply Z.eqb_eq in Eh.
    destruct (time <? ct_due c) eqn:Ed; [discriminate|]. apply Z.ltb_ge in Ed.
    intros H. injection H as <-. exists c.
    repeat (split; [assumption || reflexivity|]).
    unfold clockCallback.
    change (timeLeft (set_now time w)) with (timeLeft w).
    destruct (timeLeft w <=? 1).
    + destruct (endGame_disarms (ct_score c) (set_now time w)
                  (Inv_set_now time w HI)) as [_ Eiv].
      assert (E : intervals (setTimeLeft 0 (endGame (ct_score c) (set_now time w)))
                  = []).
      { rewrite <- Eiv. destruct (endGame (ct_score c) (set_now time w)).
        reflexivity. }
      rewrite E. simpl map. rewrite <- E. apply set_intervals_same.
    + destruct w. world_cbv. rewrite Hiv. simpl. unfold rearm. simpl.
      rewrite Eh, Z.eqb_refl. reflexivity.
  - destruct Ht as [_ ->]. discriminate.
Qed.

Lemma step_whack_spec (time hitId : Z) (isTrusted : bool) (w w' : World) :
  step (Whack time hitId isTrusted) w = Some w' ->
  now w <= time /\ w' = handleWhack hitId isTrusted (set_now time w).
Proof.
  unfold step. cbn [eventTime].
  destruct (time <? now w) eqn:Et; [discriminate|]. apply Z.ltb_ge in Et.
  intros H. injection H as <-. auto.
Qed.

Lemma Inv_ticked (h : Z) (c : ClockTimer) (at_ : Z) (w : World) :
  Inv w -> intervals w = [c] -> ct_id c = h -> isPlayingRef w = true ->
  1 < timeLeft w ->
  Inv (set_intervals [mkClock h (ct_due c + 1000) (ct_score c)]
         (setTimeLeft (timeLeft w - 1) (set_now at_ w))).
Proof.
  intros [H1 H2 H3 H4 H5 H6] Hiv Hh Hp Htl. rewrite Hp in H6.
  destruct H6 as (t & c0 & Hto & Hiv0 & Hpr & Hgr & Hlh & Hti & Hci & Hpm & Hb).
  rewrite Hiv in Hiv0. injection Hiv0 as <-.
  destruct w. world_cbv. subst. constructor; world_cbv; try assumption.
  - congruence.
  - intros _. lia.
  - exists t, (mkClock (ct_id c) (ct_due c + 1000) (ct_score c)). simpl.
    repeat (split; [reflexivity|]). repeat split; try lia; assumption.
Qed.

Lemma Inv_step (e : Event) (w w' : World) :
  Inv w -> step e w = Some w' -> Inv w'.
Proof.
  intros HI Hs. destruct e as [time rnd|time hitId isTrusted|time h rnd|time h].
  - destruct (isPlaying w) eqn:Hp.
    + unfold step in Hs. cbn [eventTime] in Hs.
      destruct (time <? now w); [discriminate|].
      rewrite startGame_running in Hs by (destruct w; exact Hp).
      injection Hs as <-. now apply Inv_set_now.
    + apply step_start_spec in Hs; [|exact Hp].
      destruct Hs as (_ & r & rnd' & h & _ & _ & Hin & _ & ->).
      rewrite (inv_ids w HI) in Hin.
      apply Inv_startedWith;
        [now apply Inv_set_now|destruct w; exact Hp|exact Hin].
  - apply step_whack_spec in Hs. destruct Hs as [_ ->].
    apply Inv_handleWhack. now apply Inv_set_now.
  - apply step_hide_spec in Hs; [|exact HI].
    destruct Hs as (t & r & rnd' & hole & Hto & _ & Hp & _ & _ & _ & Hne & Hb & ->).
    now apply Inv_hidden.
  - apply step_tick_spec in Hs; [|exact HI].
    destruct Hs as (c & Hiv & Hh & Hp & _ & _ & ->).
    destruct (timeLeft w <=? 1) eqn:Etl.
    + apply Inv_setTimeLeft_stopped.
      * apply endGame_refs.
      * apply Inv_endGame. now apply Inv_set_now.
    + apply Z.leb_gt in Etl. now apply Inv_ticked.
Qed.

Lemma reachable_Inv (w : World) : reachable w -> Inv w.
Proof.
  induction 1 as [|w w' e _ IH _ Hs]; [exact Inv_init|].
  eapply Inv_step; eauto.
Qed.

Lemma run_app (es1 es2 : list Event) (w : World) :
  run (es1 ++ es2) w
  = match run es1 w with
    | Some w1 => run es2 w1
    | None => None
    end.
Proof.
  revert w. induction es1 as [|e es1 IH]; intros w; [reflexivity|].
  simpl. destruct (step e w); [apply IH|reflexivity].
Qed.

(** A run of valid events from a reachable world ends in a reachable world. *)
Lemma run_reachable (es : list Event) (w w' : World) :
  reachable w -> forallb validEvent es = true -> run es w = Some w' ->
  reachable w'.
Proof.
  revert w. induction es as [|e es IH]; intros w Hr Hv Hrun.
  - injection Hrun as <-. assumption.
  - simpl in Hv. apply andb_true_iff in Hv. destruct Hv as [Hve Hv].
    simpl in Hrun. destruct (step e w) as [w1|] eqn:Es; [|discriminate].
    apply (IH w1); [|assumption|assumption].
    eapply reach_step; eauto.
Qed.

(** ** The example worlds are reachable *)

Lemma firstStart_runs : run firstStart initialWorld = Some afterFirstStart.
Proof. vm_compute. reflexivity. Qed.

Lemma firstHit_runs :
  run (firstStart ++ [Whack 100 0 true]) initialWorld = Some afterFirstHit.
Proof. vm_compute. reflexivity. Qed.

Lemma firstRound_runs : run firstRound initialWorld = Some afterFirstRound.
Proof. vm_compute. reflexivity. Qed.

Lemma secondStart_runs :
  step secondStart afterFirstRound = Some afterSecondStart.
Proof. vm_compute. reflexivity. Qed.

Lemma afterFirstStart_reachable : reachable afterFirstStart.
Proof.
  apply (run_reachable firstStart initialWorld);
    [apply reach_init|reflexivity|exact firstStart_runs].
Qed.

Lemma afterFirstHit_reachable : reachable afterFirstHit.
Proof.
  apply (run_reachable (firstStart ++ [Whack 100 0 true]) initialWorld);
    [apply reach_init|reflexivity|exact firstHit_runs].
Qed.

Lemma afterFirstRound_reachable : reachable afterFirstRound.
Proof.
  apply (run_reachable firstRound initialWorld);
    [apply reach_init|vm_compute; reflexivity|exact firstRound_runs].
Qed.

(** ** The visible duration ([randomTime]) *)

(** C10 as stated fails at the range from [0] to [2^60], both doubles:
    the largest double below [1] gives [2^60 - 128], and no double draw in
    [0, 1) gives the upper end. *)
Lemma C10_counterexample :
  0 <= 2 ^ 60 /\
  isDouble (1 - pow2 (-53)) = true /\
  validDraw (1 - pow2 (-53)) = true /\
  randomTime 0 (2 ^ 60) (1 - pow2 (-53)) = 2 ^ 60 - 128 /\
  (forall r, isDouble r = true -> validDraw r = true ->
             randomTime 0 (2 ^ 60) r <> 2 ^ 60).
Proof.
  split; [discriminate|].
  split; [vm_compute; reflexivity|].
  split; [vm_compute; reflexivity|].
  split; [vm_compute; reflexivity|].
  intros r Hd Hr. pose proof (randomTime_short r Hd Hr) as H.
  change (2 ^ 60) with 1152921504606846976 in *. lia.
Qed.

(** C10, amended.  For integers [0 <= minMs <= maxMs <= 2^53] and every draw
    in [0, 1), the duration [randomTime] returns is an integer between
    [minMs] and [maxMs], both included, and it is an integer nearest to the
    double [randomValue] that the code hands to [Math.round], at most one
    half above it and less than one half below it.  The lower end is
    returned at the draw [0]; the upper end is returned at some double draw
    when [maxMs] is below [2^26]. *)
Theorem C10_duration_in_range (minMs maxMs : Z)
    (H0 : 0 <= minMs) (Hmm : minMs <= maxMs) (Hb : maxMs <= 2 ^ 53) :
  (forall r, validDraw r = true ->
     minMs <= randomTime minMs maxMs r <= maxMs /\
     (randomValue minMs maxMs r - (1 # 2) < inject_Z (randomTime minMs maxMs r)
      /\ inject_Z (randomTime minMs maxMs r)
         <= randomValue minMs maxMs r + (1 # 2))%Q) /\
  (isDouble 0 = true /\ validDraw 0 = true /\
   randomTime minMs maxMs 0 = minMs) /\
  (maxMs < 2 ^ 26 ->
   exists r, isDouble r = true /\ validDraw r = true /\
             randomTime minMs maxMs r = maxMs).
Proof.
  split; [|split].
  - intros r Hr. split.
    + now apply randomTime_bounds.
    + unfold randomTime. destruct (Math_round_near (randomValue minMs maxMs r)).
      split; assumption.
  - split; [reflexivity|]. split; [reflexivity|]. now apply randomTime_min.
  - intros Hs. exists (drawFor minMs maxMs maxMs).
    apply drawFor_ok; lia.
Qed.

Lemma C10_duration_in_range_witness :
  0 <= MIN_PEEP_TIME /\ MIN_PEEP_TIME <= MAX_PEEP_TIME /\
  MAX_PEEP_TIME <= 2 ^ 53 /\
  ((forall r, validDraw r = true ->
      MIN_PEEP_TIME <= randomTime MIN_PEEP_TIME MAX_PEEP_TIME r
        <= MAX_PEEP_TIME /\
      (randomValue MIN_PEEP_TIME MAX_PEEP_TIME r - (1 # 2)
         < inject_Z (randomTime MIN_PEEP_TIME MAX_PEEP_TIME r)
       /\ inject_Z (randomTime MIN_PEEP_TIME MAX_PEEP_TIME r)
          <= randomValue MIN_PEEP_TIME MAX_PEEP_TIME r + (1 # 2))%Q) /\
   (isDouble 0 = true /\ validDraw 0 = true /\
    randomTime MIN_PEEP_TIME MAX_PEEP_TIME 0 = MIN_PEEP_TIME) /\
   (MAX_PEEP_TIME < 2 ^ 26 ->
    exists r, isDouble r = true /\ validDraw r = true /\
              randomTime MIN_PEEP_TIME MAX_PEEP_TIME r = MAX_PEEP_TIME)).
Proof.
  assert (H0 : 0 <= MIN_PEEP_TIME) by (unfold MIN_PEEP_TIME; lia).
  assert (Hmm : MIN_PEEP_TIME <= MAX_PEEP_TIME)
    by (unfold MIN_PEEP_TIME, MAX_PEEP_TIME; lia).
  assert (Hb : MAX_PEEP_TIME <= 2 ^ 53) by (unfold MAX_PEEP_TIME; lia).
  split; [exact H0|]. split; [exact Hmm|]. split; [exact Hb|].
  exact (C10_duration_in_range MIN_PEEP_TIME MAX_PEEP_TIME H0 Hmm Hb).
Defined.

(** ** The next hole ([randomHole]) *)

(** C9.  On a board of two or more slots with distinct ids: whatever
    [randomHole] returns differs from the hole stored by the previous draw and
    becomes the stored hole, so two calls in a row never return the same
    slot; and the call does return, as soon as a draw selects another slot,
    which some draw does. *)
Theorem C9_no_slot_twice_in_a_row (currentMoles : list MoleData)
    (HN : (2 <= length currentMoles)%nat)
    (Hids : NoDup (map id currentMoles)) :
  (forall rnd w hole w',
      randomHole currentMoles rnd w = Some (hole, w') ->
      hole <> lastHoleRef w /\ lastHoleRef w' = hole) /\
  (forall rnd1 rnd2 w h1 w1 h2 w2,
      randomHole currentMoles rnd1 w = Some (h1, w1) ->
      randomHole currentMoles rnd2 w1 = Some (h2, w2) ->
      h2 <> h1) /\
  (forall w, exists r,
      validDraw r = true /\
      forall rnd, forallb validDraw rnd = true ->
        exists hole w', randomHole currentMoles (rnd ++ [r]) w = Some (hole, w')).
Proof.
  split; [|split].
  - intros rnd w hole w' H. apply randomHole_spec in H.
    destruct H as (Hne & -> & _). split; [assumption|]. destruct w; reflexivity.
  - intros rnd1 rnd2 w h1 w1 h2 w2 H1 H2.
    apply randomHole_spec in H1. destruct H1 as (_ & -> & _).
    apply randomHole_spec in H2. destruct H2 as (Hne & _ & _).
    destruct w; exact Hne.
  - intros w.
    destruct (other_hole_exists currentMoles (lastHoleRef w) HN Hids)
      as (r & h & Hr & Hp & Hne).
    exists r. split; [assumption|]. intros rnd Hv.
    assert (Hnil : currentMoles <> [])
      by (destruct currentMoles; [simpl in HN; lia|discriminate]).
    destruct (randomHole_returns currentMoles rnd r w h Hnil Hv Hp Hne)
      as [hole E].
    eauto.
Qed.

Lemma C9_no_slot_twice_in_a_row_witness :
  (2 <= length freshBoard)%nat /\ NoDup (map id freshBoard) /\
  (forall rnd1 rnd2 w h1 w1 h2 w2,
      randomHole freshBoard rnd1 w = Some (h1, w1) ->
      randomHole freshBoard rnd2 w1 = Some (h2, w2) ->
      h2 <> h1).
Proof.
  assert (H2 : (2 <= length freshBoard)%nat) by (simpl; lia).
  split; [exact H2|]. split; [exact boardIds_NoDup|].
  exact (proj1 (proj2 (C9_no_slot_twice_in_a_row freshBoard H2 boardIds_NoDup))).
Defined.

(** Along a game the same holds of the appearances: the slot a hide timer
    shows next is never the slot it has just hidden. *)
Lemma appearances_alternate (w w' : World) (time h : Z) (rnd : list Q) :
  reachable w -> step (HideFires time h rnd) w = Some w' ->
  lastHoleRef w' <> lastHoleRef w /\
  exists t', timeouts w' = [t'] /\ ht_holeIdx t' = lastHoleRef w'.
Proof.
  intros Hr Hs. pose proof (reachable_Inv w Hr) as HI.
  pose proof (Inv_step _ _ _ HI Hs) as HI'.
  apply step_hide_spec in Hs; [|exact HI].
  destruct Hs as (t & r & rnd' & hole & Hto & _ & Hp & _ & _ & _ & Hne & _ & ->).
  pose proof (inv_timers w HI) as Ht. rewrite Hp in Ht.
  destruct Ht as (t0 & c & Hto0 & _ & _ & _ & Hh & _).
  rewrite Hto in Hto0. injection Hto0 as <-.
  split.
  - destruct w. world_cbv. congruence.
  - pose proof (inv_timers _ HI') as Ht'.
    assert (Hp' : isPlayingRef
                    (peepTo hole (randomTime MIN_PEEP_TIME MAX_PEEP_TIME r)
                       (ht_moles t)
                       (setMoles (map (lower (ht_holeIdx t)))
                          (set_timeouts [] (set_now time w)))) = true)
      by (destruct w; exact Hp).
    rewrite Hp' in Ht'. destruct Ht' as (t' & c' & E1 & _ & _ & _ & E2 & _).
    eauto.
Qed.

(** ** Hits ([handleWhack]) *)

Lemma whack_none (hitId : Z) (ms : list MoleData) :
  (forall m, In m ms -> validWhack hitId m = false) ->
  map (whack hitId) ms = ms /\ filter (validWhack hitId) ms = [].
Proof.
  induction ms as [|m ms IH]; intros H; [auto|].
  simpl. unfold whack at 1. rewrite (H m (or_introl eq_refl)).
  destruct IH as [-> ->]; [intros m' Hin; apply H; now right|]. auto.
Qed.

Lemma not_up_no_whack (hitId : Z) (ms : list MoleData) :
  NoDup (map id ms) ->
  statusOf hitId ms = Some IDLE \/ statusOf hitId ms = Some WHACKED ->
  forall m, In m ms -> validWhack hitId m = false.
Proof.
  intros Hnd Hs m Hin. apply not_true_is_false. intros Hv.
  apply validWhack_true in Hv. destruct Hv as [<- Hup].
  rewrite (statusOf_in ms m Hnd Hin), Hup in Hs.
  destruct Hs; discriminate.
Qed.

Lemma Inv_NoDup (w : World) : Inv w -> NoDup (map id (moles w)).
Proof.
  intros HI. rewrite (inv_ids w HI). exact boardIds_NoDup.
Qed.

Lemma handleWhack_ignored (w : World) (hitId : Z) (isTrusted : bool) :
  Inv w ->
  isTrusted = false \/ isPlaying w = false \/
  statusOf hitId (moles w) = Some IDLE \/
  statusOf hitId (moles w) = Some WHACKED ->
  handleWhack hitId isTrusted w = w.
Proof.
  intros HI H. rewrite handleWhack_eq.
  destruct (negb isTrusted || negb (isPlayingRef w)) eqn:G; [reflexivity|].
  apply orb_false_iff in G. destruct G as [Gt Gp].
  apply negb_false_iff in Gt, Gp.
  destruct H as [H|[H|H]].
  - congruence.
  - rewrite (inv_phase w HI) in H. congruence.
  - pose proof (not_up_no_whack hitId (moles w) (Inv_NoDup w HI) H) as Hn.
    apply whack_none in Hn. destruct Hn as [Hm Hf].
    unfold credited. rewrite Hf. destruct w. world_cbv. simpl in Hm.
    rewrite Hm, app_nil_r, Z.add_0_r. reflexivity.
Qed.

(** C4.  A hit that is not trusted, or that comes while no round is running,
    or that names a slot whose status is IDLE or WHACKED, changes nothing:
    [handleWhack] returns the world it was given (score, every slot, timers
    and refs), and the event completes having only advanced the clock. *)
Theorem C4_rejected_hit_is_noop (w : World) (hitId : Z) (isTrusted : bool)
    (Hr : reachable w)
    (H : isTrusted = false \/ isPlaying w = false \/
         statusOf hitId (moles w) = Some IDLE \/
         statusOf hitId (moles w) = Some WHACKED) :
  handleWhack hitId isTrusted w = w /\
  forall time, now w <= time ->
    step (Whack time hitId isTrusted) w = Some (set_now time w).
Proof.
  pose proof (reachable_Inv w Hr) as HI. split.
  - now apply handleWhack_ignored.
  - intros time Ht. unfold step. cbn [eventTime].
    destruct (time <? now w) eqn:E; [apply Z.ltb_lt in E; lia|].
    f_equal. apply handleWhack_ignored.
    + now apply Inv_set_now.
    + destruct w; exact H.
Qed.

Lemma C4_rejected_hit_is_noop_witness :
  reachable afterFirstHit /\
  (true = false \/ isPlaying afterFirstHit = false \/
   statusOf 0 (moles afterFirstHit) = Some IDLE \/
   statusOf 0 (moles afterFirstHit) = Some WHACKED) /\
  handleWhack 0 true afterFirstHit = afterFirstHit.
Proof.
  assert (H : true = false \/ isPlaying afterFirstHit = false \/
              statusOf 0 (moles afterFirstHit) = Some IDLE \/
              statusOf 0 (moles afterFirstHit) = Some WHACKED)
    by (right; right; right; reflexivity).
  split; [exact afterFirstHit_reachable|]. split; [exact H|].
  exact (proj1 (C4_rejected_hit_is_noop afterFirstHit 0 true
                  afterFirstHit_reachable H)).
Defined.

Lemma credited_at_most_one (hitId : Z) (w : World) :
  Inv w -> (credited hitId w <= 1)%nat.
Proof.
  intros HI. unfold credited.
  apply (filter_at_most_one (validWhack hitId) hitId).
  - now apply Inv_NoDup.
  - intros m _ Hv. now apply validWhack_true in Hv.
Qed.

Lemma credited_up (hitId : Z) (w : World) :
  Inv w -> (statusOf hitId (moles w) = Some UP <-> credited hitId w = 1%nat).
Proof.
  intros HI. pose proof (credited_at_most_one hitId w HI) as Hle.
  unfold credited in *. split.
  - intros Hs. apply statusOf_some in Hs. destruct Hs as (m & Hin & Hid & Hup).
    assert (Hf : In m (filter (validWhack hitId) (moles w))).
    { apply filter_In. split; [assumption|]. now apply validWhack_true. }
    destruct (filter (validWhack hitId) (moles w)); [contradiction|].
    simpl in *. lia.
  - intros Hc.
    destruct (filter (validWhack hitId) (moles w)) as [|m l] eqn:Ef;
      [discriminate|].
    assert (Hf : In m (filter (validWhack hitId) (moles w)))
      by (rewrite Ef; now left).
    apply filter_In in Hf. destruct Hf as [Hin Hv].
    apply validWhack_true in Hv. destruct Hv as [<- Hup].
    rewrite <- Hup. apply statusOf_in; [now apply Inv_NoDup|assumption].
Qed.

Lemma statusOf_whack_hit (hitId : Z) (ms : list MoleData) :
  statusOf hitId ms = Some UP ->
  statusOf hitId (map (whack hitId) ms) = Some WHACKED.
Proof.
  intros Hs. rewrite statusOf_map.
  - unfold statusOf in Hs.
    destruct (find (fun m0 => id m0 =? hitId) ms) as [m|] eqn:Ef; [|discriminate].
    simpl in *. injection Hs as Hup. apply find_id_some in Ef.
    destruct Ef as [_ Hid]. unfold whack.
    assert (Hv : validWhack hitId m = true) by now apply validWhack_true.
    rewrite Hv. reflexivity.
  - intros m. unfold whack. destruct (validWhack hitId m); reflexivity.
Qed.

Lemma statusOf_whack_other (hitId j : Z) (ms : list MoleData) :
  j <> hitId -> statusOf j (map (whack hitId) ms) = statusOf j ms.
Proof.
  intros Hne. rewrite statusOf_map.
  - unfold statusOf.
    destruct (find (fun m0 => id m0 =? j) ms) as [m|] eqn:Ef; [|reflexivity].
    simpl. apply find_id_some in Ef. destruct Ef as [_ Hid]. unfold whack.
    destruct (validWhack hitId m) eqn:Hv; [|reflexivity].
    apply validWhack_true in Hv. destruct Hv as [Hid' _]. congruence.
  - intros m. unfold whack. destruct (validWhack hitId m); reflexivity.
Qed.

(** The fields a hit that passes the gate leaves behind. *)
Lemma handleWhack_accepted (hitId : Z) (w : World) :
  isPlayingRef w = true ->
  score (handleWhack hitId true w) = score w + Z.of_nat (credited hitId w) /\
  moles (handleWhack hitId true w) = map (whack hitId) (moles w) /\
  timeouts (handleWhack hitId true w) = timeouts w.
Proof.
  intros Hp. rewrite handleWhack_eq, Hp. simpl.
  destruct w. world_cbv. auto.
Qed.

(** What an event other than a click on Start does to the score. *)
Lemma step_score (e : Event) (w w' : World) :
  Inv w -> isClickStart e = false -> step e w = Some w' ->
  score w' = score w \/
  (score w' = score w + 1 /\ isPlaying w = true /\
   exists time hitId,
     e = Whack time hitId true /\
     statusOf hitId (moles w) = Some UP /\
     statusOf hitId (moles w') = Some WHACKED).
Proof.
  intros HI He Hs.
  destruct e as [time rnd|time hitId isTrusted|time h rnd|time h];
    [discriminate| | |].
  - apply step_whack_spec in Hs. destruct Hs as [_ ->].
    destruct isTrusted;
      [|left; rewrite handleWhack_eq; destruct w; reflexivity].
    destruct (isPlayingRef w) eqn:Hp;
      [|left; rewrite handleWhack_eq; destruct w; world_cbv; rewrite Hp;
        reflexivity].
    pose proof (Inv_set_now time w HI) as HI0.
    destruct (handleWhack_accepted hitId (set_now time w)) as (Es & Em & _);
      [destruct w; exact Hp|].
    pose proof (credited_at_most_one hitId _ HI0) as Hle.
    pose proof (credited_up hitId _ HI0) as Hup.
    assert (Esc : score (set_now time w) = score w) by (destruct w; reflexivity).
    assert (Emo : moles (set_now time w) = moles w) by (destruct w; reflexivity).
    rewrite Es, Em, Esc. rewrite Emo in *.
    destruct (credited hitId (set_now time w)) as [|[|n]]; [left; lia| |lia].
    right. split; [lia|]. split; [rewrite (inv_phase w HI); exact Hp|].
    exists time, hitId. split; [reflexivity|].
    assert (Hu : statusOf hitId (moles w) = Some UP) by now apply Hup.
    split; [exact Hu|now apply statusOf_whack_hit].
  - left. apply step_hide_spec in Hs; [|exact HI].
    destruct Hs as (t & r & rnd' & hole & _ & _ & _ & _ & _ & _ & _ & _ & ->).
    destruct w. reflexivity.
  - left. apply step_tick_spec in Hs; [|exact HI].
    destruct Hs as (c & _ & _ & _ & _ & _ & ->).
    destruct (timeLeft w <=? 1).
    + destruct (endGame_state (ct_score c) (set_now time w)) as (_ & E & _).
      assert (E' : score (setTimeLeft 0 (endGame (ct_score c) (set_now time w)))
                   = score (endGame (ct_score c) (set_now time w)))
        by (destruct (endGame (ct_score c) (set_now time w)); reflexivity).
      rewrite E', E. destruct w; reflexivity.
    + destruct w. reflexivity.
Qed.

(** C5.  In a reachable world: a trusted hit on a slot that is UP while a
    round is running adds exactly 1 to the score and turns that slot to
    WHACKED; and no event other than the click that starts a round (which
    resets the score to 0) changes the score except such a hit, by +1. *)
Theorem C5_accepted_hit_scores_one (w : World) (Hr : reachable w) :
  (forall hitId,
      isPlaying w = true -> statusOf hitId (moles w) = Some UP ->
      score (handleWhack hitId true w) = score w + 1 /\
      statusOf hitId (moles (handleWhack hitId true w)) = Some WHACKED /\
      forall j, j <> hitId ->
        statusOf j (moles (handleWhack hitId true w)) = statusOf j (moles w)) /\
  (forall e w',
      isClickStart e = false -> step e w = Some w' ->
      score w' = score w \/
      (score w' = score w + 1 /\ isPlaying w = true /\
       exists time hitId,
         e = Whack time hitId true /\
         statusOf hitId (moles w) = Some UP /\
         statusOf hitId (moles w') = Some WHACKED)).
Proof.
  pose proof (reachable_Inv w Hr) as HI. split.
  - intros hitId Hp Hup. rewrite (inv_phase w HI) in Hp.
    destruct (handleWhack_accepted hitId w Hp) as (Es & Em & _).
    rewrite Es, Em. split; [|split].
    + apply (credited_up hitId w HI) in Hup. rewrite Hup. reflexivity.
    + now apply statusOf_whack_hit.
    + intros j Hj. now apply statusOf_whack_other.
  - intros e w' He Hs. now apply step_score.
Qed.

Lemma C5_accepted_hit_scores_one_witness :
  reachable afterFirstStart /\
  isPlaying afterFirstStart = true /\
  statusOf 0 (moles afterFirstStart) = Some UP /\
  score (handleWhack 0 true afterFirstStart) = score afterFirstStart + 1 /\
  statusOf 0 (moles (handleWhack 0 true afterFirstStart)) = Some WHACKED.
Proof.
  split; [exact afterFirstStart_reachable|].
  split; [reflexivity|]. split; [reflexivity|].
  destruct (proj1 (C5_accepted_hit_scores_one afterFirstStart
                     afterFirstStart_reachable) 0 eq_refl eq_refl)
    as (Hs & Hm & _).
  split; [exact Hs|exact Hm].
Defined.

(** ** The hide timer *)

Lemma find_in_ids (i : Z) (ms : list MoleData) :
  In i (map id ms) ->
  exists m, find (fun m0 => id m0 =? i) ms = Some m /\ id m = i.
Proof.
  induction ms as [|m ms IH]; [contradiction|].
  simpl. intros [E|Hin].
  - exists m. rewrite E, Z.eqb_refl. auto.
  - destruct (id m =? i) eqn:Ei.
    + apply Z.eqb_eq in Ei. eauto.
    + auto.
Qed.

(** After [lower holeIdx] and a [raise] of another hole, slot [holeIdx] is
    IDLE whatever its status was. *)
Lemma statusOf_lowered (holeIdx hole : Z) (ms : list MoleData) :
  In holeIdx (map id ms) -> hole <> holeIdx ->
  statusOf holeIdx (map (raise hole) (map (lower holeIdx) ms)) = Some IDLE.
Proof.
  intros Hin Hne. rewrite map_map, statusOf_map.
  - destruct (find_in_ids holeIdx ms Hin) as (m & -> & Hid). simpl.
    unfold lower. rewrite Hid, Z.eqb_refl. unfold raise. simpl.
    apply not_eq_sym in Hne. apply Z.eqb_neq in Hne.
    rewrite Hne. reflexivity.
  - intros m. unfold raise, lower.
    destruct (id m =? holeIdx); simpl;
      destruct (_ =? hole); reflexivity.
Qed.

Lemma peep_returns (pmoles : list MoleData) (r : Q) (rnd : list Q)
    (w : World) (h : Z) (w1 : World) :
  isPlayingRef w = true -> randomHole pmoles rnd w = Some (h, w1) ->
  exists w', peep pmoles (r :: rnd) w = Some w'.
Proof.
  intros Hp Hr. unfold peep. rewrite Hp. cbn [negb]. rewrite Hr.
  unfold setTimeout. eexists. reflexivity.
Qed.

(** A pending hide timer that is due can fire: there are draws with which
    its callback returns. *)
Lemma hide_can_fire (w : World) (t : HideTimer) (time : Z) :
  Inv w -> timeouts w = [t] -> now w <= time -> ht_due t <= time ->
  exists rnd w',
    validEvent (HideFires time (ht_id t) rnd) = true /\
    step (HideFires time (ht_id t) rnd) w = Some w'.
Proof.
  intros HI Hto Hn Hd. pose proof (inv_timers w HI) as Ht.
  destruct (isPlayingRef w) eqn:Hp;
    [|destruct Ht as [E _]; rewrite E in Hto; discriminate].
  destruct Ht as (t0 & c & Hto0 & _ & _ & _ & _ & _ & _ & Hpm & _).
  rewrite Hto in Hto0. injection Hto0 as <-.
  assert (Hlen : (2 <= length (ht_moles t))%nat).
  { rewrite <- (length_map id), Hpm. simpl. lia. }
  assert (Hnd : NoDup (map id (ht_moles t)))
    by (rewrite Hpm; exact boardIds_NoDup).
  destruct (other_hole_exists (ht_moles t) (lastHoleRef w) Hlen Hnd)
    as (r & h & Hr & Hpk & Hne).
  set (w1 := setMoles (map (lower (ht_holeIdx t)))
               (clearTimeout (ht_id t) (set_now time w))).
  assert (Hp1 : isPlayingRef w1 = true) by (destruct w; exact Hp).
  assert (Hl1 : lastHoleRef w1 = lastHoleRef w) by (destruct w; reflexivity).
  assert (Hnil : ht_moles t <> [])
    by (destruct (ht_moles t); [simpl in Hlen; lia|discriminate]).
  destruct (randomHole_returns (ht_moles t) [] r w1 h Hnil eq_refl Hpk)
    as [hole Hrh]; [now rewrite Hl1|].
  destruct (peep_returns (ht_moles t) 0%Q _ w1 hole _ Hp1 Hrh) as [w' Hw'].
  exists [0%Q; r], w'. split.
  - unfold validEvent. simpl. rewrite Hr. reflexivity.
  - unfold step. cbn [eventTime].
    destruct (time <? now w) eqn:E; [apply Z.ltb_lt in E; lia|].
    change (timeouts (set_now time w)) with (timeouts w).
    rewrite Hto. simpl find. rewrite Z.eqb_refl.
    destruct (time <? ht_due t) eqn:E'; [apply Z.ltb_lt in E'; lia|].
    unfold hideCallback. fold w1. rewrite Hp1. exact Hw'.
Qed.

(** C6.  In a reachable world, when hide timer [h] fires and its callback
    returns, the slot the timer had shown is IDLE, whatever its status was
    (UP, or WHACKED by a hit in between); a hit leaves the pending hide timer
    as it was, due time included; and a hide timer that is due can fire. *)
Theorem C6_hide_timer_is_unconditional (w : World) (Hr : reachable w) :
  (forall time h rnd w',
      step (HideFires time h rnd) w = Some w' ->
      exists t, timeouts w = [t] /\ ht_id t = h /\
                statusOf (ht_holeIdx t) (moles w') = Some IDLE) /\
  (forall time hitId isTrusted w',
      step (Whack time hitId isTrusted) w = Some w' ->
      timeouts w' = timeouts w) /\
  (forall t time,
      timeouts w = [t] -> now w <= time -> ht_due t <= time ->
      exists rnd w',
        validEvent (HideFires time (ht_id t) rnd) = true /\
        step (HideFires time (ht_id t) rnd) w = Some w').
Proof.
  pose proof (reachable_Inv w Hr) as HI. split; [|split].
  - intros time h rnd w' Hs. apply step_hide_spec in Hs; [|exact HI].
    destruct Hs as (t & r & rnd' & hole & Hto & Hh & Hp & _ & _ & _ & Hne & _ & ->).
    exists t. split; [exact Hto|]. split; [exact Hh|].
    pose proof (inv_timers w HI) as Ht. rewrite Hp in Ht.
    destruct Ht as (t0 & c & Hto0 & _ & _ & _ & _ & _ & _ & _ & Hb).
    rewrite Hto in Hto0. injection Hto0 as <-.
    rewrite <- (inv_ids w HI) in Hb.
    assert (Em : moles (peepTo hole (randomTime MIN_PEEP_TIME MAX_PEEP_TIME r)
                          (ht_moles t)
                          (setMoles (map (lower (ht_holeIdx t)))
                             (set_timeouts [] (set_now time w))))
                 = map (raise hole) (map (lower (ht_holeIdx t)) (moles w)))
      by (destruct w; reflexivity).
    rewrite Em. now apply statusOf_lowered.
  - intros time hitId isTrusted w' Hs. apply step_whack_spec in Hs.
    destruct Hs as [_ ->]. rewrite handleWhack_eq.
    destruct (negb isTrusted || negb (isPlayingRef (set_now time w)));
      destruct w; reflexivity.
  - intros t time Hto Hn Hd. now apply hide_can_fire.
Qed.

Lemma C6_hide_timer_is_unconditional_witness :
  reachable afterFirstHit /\
  statusOf 0 (moles afterFirstHit) = Some WHACKED /\
  timeouts afterFirstHit = timeouts afterFirstStart /\
  forall w',
    step (HideFires 450 1 [171 # 1024; 1 # 4]%Q) afterFirstHit = Some w' ->
    exists t, timeouts afterFirstHit = [t] /\ ht_id t = 1 /\
              statusOf (ht_holeIdx t) (moles w') = Some IDLE.
Proof.
  split; [exact afterFirstHit_reachable|]. split; [reflexivity|].
  split; [reflexivity|]. intros w'.
  exact (proj1 (C6_hide_timer_is_unconditional afterFirstHit
                  afterFirstHit_reachable) 450 1 [171 # 1024; 1 # 4]%Q w').
Defined.

(** ** One target at a time *)

Lemma visible_allIdle (ms : list MoleData) :
  visible (map (fun m => mkMole (id m) IDLE) ms) = [].
Proof.
  unfold visible. induction ms as [|m ms IH]; [reflexivity|exact IH].
Qed.

Lemma isUp_true (m : MoleData) : isUp m = true <-> status m = UP.
Proof.
  unfold isUp. destruct (status m); simpl; intuition congruence.
Qed.

(** C8.  In every reachable world at most one slot is UP (no two slots are UP
    together), at most one hide timer is pending, and [endGame] leaves no
    slot UP. *)
Theorem C8_one_target_at_a_time (w : World) (Hr : reachable w) :
  (length (visible (moles w)) <= 1)%nat /\
  (forall i j,
      statusOf i (moles w) = Some UP -> statusOf j (moles w) = Some UP ->
      i = j) /\
  (length (timeouts w) <= 1)%nat /\
  (forall c, visible (moles (endGame c w)) = []).
Proof.
  pose proof (reachable_Inv w Hr) as HI. split; [|split; [|split]].
  - apply (filter_at_most_one isUp (lastHoleRef w)).
    + now apply Inv_NoDup.
    + intros m Hin Hup. apply isUp_true in Hup.
      apply (inv_shown w HI m Hin). rewrite Hup. discriminate.
  - intros i j Hi Hj.
    apply statusOf_some in Hi. destruct Hi as (mi & Hini & <- & Hupi).
    apply statusOf_some in Hj. destruct Hj as (mj & Hinj & <- & Hupj).
    destruct (inv_shown w HI mi Hini) as [Ei _]; [rewrite Hupi; discriminate|].
    destruct (inv_shown w HI mj Hinj) as [Ej _]; [rewrite Hupj; discriminate|].
    congruence.
  - pose proof (inv_timers w HI) as Ht. destruct (isPlayingRef w).
    + destruct Ht as (t & c & -> & _). simpl. lia.
    + destruct Ht as [-> _]. simpl. lia.
  - intros c. destruct (endGame_state c w) as (_ & _ & _ & _ & ->).
    apply visible_allIdle.
Qed.

Lemma C8_one_target_at_a_time_witness :
  reachable afterFirstStart /\
  length (visible (moles afterFirstStart)) = 1%nat /\
  (length (visible (moles afterFirstStart)) <= 1)%nat /\
  (length (timeouts afterFirstStart) <= 1)%nat.
Proof.
  split; [exact afterFirstStart_reachable|]. split; [reflexivity|].
  destruct (C8_one_target_at_a_time afterFirstStart afterFirstStart_reachable)
    as (Hv & _ & Ht & _).
  split; [exact Hv|exact Ht].
Defined.

(** ** After [endGame] *)

Lemma lower_idle (h : Z) (ms : list MoleData) :
  (forall m, In m ms -> status m = IDLE) -> map (lower h) ms = ms.
Proof.
  induction ms as [|m ms IH]; intros H; [reflexivity|].
  simpl. rewrite IH by (intros m' Hin; apply H; now right).
  f_equal. unfold lower. destruct (id m =? h); [|reflexivity].
  pose proof (H m (or_introl eq_refl)) as Hs. destruct m. simpl in *.
  now rewrite Hs.
Qed.

Lemma allIdle_twice (ms : list MoleData) :
  map (fun m => mkMole (id m) IDLE) (map (fun m => mkMole (id m) IDLE) ms)
  = map (fun m => mkMole (id m) IDLE) ms.
Proof.
  rewrite map_map. reflexivity.
Qed.

Lemma filter_twice {A : Type} (f : A -> bool) (l : list A) :
  filter f (filter f l) = filter f l.
Proof.
  induction l as [|a l IH]; [reflexivity|].
  simpl. destruct (f a) eqn:E; [|exact IH].
  simpl. rewrite E, IH. reflexivity.
Qed.

(** While no round is running, an event other than a click on Start only
    advances the clock. *)
Lemma stopped_step (e : Event) (w w' : World) :
  Inv w -> isPlayingRef w = false -> isClickStart e = false ->
  step e w = Some w' -> w' = set_now (eventTime e) w.
Proof.
  intros HI Hp He Hs.
  destruct e as [time rnd|time hitId isTrusted|time h rnd|time h];
    [discriminate| | |].
  - apply step_whack_spec in Hs. destruct Hs as [_ ->].
    rewrite handleWhack_eq.
    assert (E : isPlayingRef (set_now time w) = false) by (destruct w; exact Hp).
    rewrite E, orb_true_r. reflexivity.
  - apply step_hide_spec in Hs; [|exact HI].
    destruct Hs as (t & r & rnd' & hole & _ & _ & Hp' & _). congruence.
  - apply step_tick_spec in Hs; [|exact HI].
    destruct Hs as (c & _ & _ & Hp' & _). congruence.
Qed.

Lemma stopped_run (es : list Event) (w w' : World) :
  Inv w -> isPlayingRef w = false ->
  forallb (fun e => negb (isClickStart e)) es = true ->
  run es w = Some w' ->
  moles w' = moles w /\ score w' = score w /\
  timeouts w' = [] /\ intervals w' = [].
Proof.
  revert w. induction es as [|e es IH]; intros w HI Hp Hes Hrun.
  - injection Hrun as <-. pose proof (inv_timers w HI) as Ht.
    rewrite Hp in Ht. tauto.
  - simpl in Hes. apply andb_true_iff in Hes. destruct Hes as [He Hes].
    apply negb_true_iff in He.
    simpl in Hrun. destruct (step e w) as [w1|] eqn:Es; [|discriminate].
    apply stopped_step in Es; [|assumption..]. subst w1.
    destruct (IH (set_now (eventTime e) w)) as (Em & Esc & Eto & Eiv);
      [now apply Inv_set_now|destruct w; exact Hp|assumption|assumption|].
    rewrite Em, Esc. destruct w. auto.
Qed.

Lemma endGame_moles_idle (c : Z) (w : World) (m : MoleData) :
  In m (moles (endGame c w)) -> status m = IDLE.
Proof.
  destruct (endGame_state c w) as (_ & _ & _ & _ & ->). apply in_allIdle.
Qed.

(** C3.  Once [endGame] has returned from a reachable world: no hide timer
    and no clock is armed any more; whatever events follow before the next
    click on Start, every slot and the score stay as [endGame] left them and
    no timer is armed again; and even the callback of a timer armed before
    the stop, were it to run, would change no slot and no score and arm
    nothing.  The same holds of every reachable world in which no round is
    running. *)
Theorem C3_nothing_happens_after_stop (w : World) (c : Z) (Hr : reachable w) :
  timeouts (endGame c w) = [] /\ intervals (endGame c w) = [] /\
  (forall es w',
      forallb (fun e => negb (isClickStart e)) es = true ->
      run es (endGame c w) = Some w' ->
      moles w' = moles (endGame c w) /\ score w' = score (endGame c w) /\
      timeouts w' = [] /\ intervals w' = []) /\
  (forall t rnd,
      exists w',
        hideCallback t rnd (endGame c w) = Some w' /\
        moles w' = moles (endGame c w) /\ score w' = score (endGame c w) /\
        timeouts w' = [] /\ intervals w' = []) /\
  (forall c0,
      moles (clockCallback c0 (endGame c w)) = moles (endGame c w) /\
      score (clockCallback c0 (endGame c w)) = score (endGame c w) /\
      timeouts (clockCallback c0 (endGame c w)) = [] /\
      intervals (clockCallback c0 (endGame c w)) = []) /\
  (isPlaying w = false ->
   forall es w',
      forallb (fun e => negb (isClickStart e)) es = true ->
      run es w = Some w' ->
      moles w' = moles w /\ score w' = score w /\
      timeouts w' = [] /\ intervals w' = []).
Proof.
  pose proof (reachable_Inv w Hr) as HI.
  pose proof (Inv_endGame c w HI) as HI1.
  destruct (endGame_disarms c w HI) as [Eto Eiv].
  destruct (endGame_refs c w) as (Ep & _).
  split; [exact Eto|]. split; [exact Eiv|]. split; [|split; [|split]].
  - intros es w' Hes Hrun. now apply (stopped_run es).
  - intros t rnd. eexists. split; [now apply hideCallback_stopped|].
    rewrite <- Eto, <- Eiv.
    pose proof (lower_idle (ht_holeIdx t) (moles (endGame c w))
                  (endGame_moles_idle c w)) as El.
    destruct (endGame c w). world_cbv. auto.
  - intros c0. unfold clockCallback. destruct (timeLeft (endGame c w) <=? 1).
    + destruct (endGame_state (ct_score c0) (endGame c w)) as (_ & Es & _ & _ & Em).
      destruct (endGame_disarms (ct_score c0) (endGame c w) HI1) as [Eto' Eiv'].
      destruct (endGame_state c w) as (_ & _ & _ & _ & Em0).
      rewrite Em0, allIdle_twice, <- Em0 in Em.
      rewrite <- Em, <- Es, <- Eto', <- Eiv'.
      destruct (endGame (ct_score c0) (endGame c w)). auto.
    + rewrite <- Eto, <- Eiv. destruct (endGame c w). auto.
  - intros Hp es w' Hes Hrun. apply (stopped_run es); try assumption.
    now rewrite <- (inv_phase w HI).
Qed.

Lemma C3_nothing_happens_after_stop_witness :
  reachable afterFirstHit /\
  isPlaying afterFirstHit = true /\
  timeouts (endGame 0 afterFirstHit) = [] /\
  run [Whack 200 0 true; Whack 300 1 true] (endGame 0 afterFirstHit)
    = Some (set_now 300 (endGame 0 afterFirstHit)) /\
  score (set_now 300 (endGame 0 afterFirstHit)) = score (endGame 0 afterFirstHit).
Proof.
  split; [exact afterFirstHit_reachable|]. split; [reflexivity|].
  destruct (C3_nothing_happens_after_stop afterFirstHit 0
              afterFirstHit_reachable) as (Hto & _ & Hrun & _).
  split; [exact Hto|].
  assert (E : run [Whack 200 0 true; Whack 300 1 true] (endGame 0 afterFirstHit)
              = Some (set_now 300 (endGame 0 afterFirstHit)))
    by (vm_compute; reflexivity).
  split; [exact E|].
  exact (proj1 (proj2 (Hrun [Whack 200 0 true; Whack 300 1 true] _ eq_refl E))).
Defined.

(** ** [endGame] twice *)

Lemma world_ext (w1 w2 : World) :
  moles w1 = moles w2 -> score w1 = score w2 -> highScore w1 = highScore w2 ->
  timeLeft w1 = timeLeft w2 -> isPlaying w1 = isPlaying w2 ->
  lastHoleRef w1 = lastHoleRef w2 -> isPlayingRef w1 = isPlayingRef w2 ->
  gameTimerRef w1 = gameTimerRef w2 -> peepTimerRef w1 = peepTimerRef w2 ->
  timeouts w1 = timeouts w2 -> intervals w1 = intervals w2 ->
  nextTimer w1 = nextTimer w2 -> now w1 = now w2 -> cues w1 = cues w2 ->
  w1 = w2.
Proof.
  destruct w1, w2. simpl. intros. subst. reflexivity.
Qed.

Lemma endGame_twice (c : Z) (w : World) :
  endGame c (endGame c w) = play [GameOver] (endGame c w).
Proof.
  destruct (endGame_state c (endGame c w)) as (Ep & Es & Eh & Etl & Em).
  destruct (endGame_refs c (endGame c w)) as (Er & Elh & Eg & Ept & Ent & Enw & Ec).
  pose proof (endGame_timeouts c (endGame c w)) as Eto.
  pose proof (endGame_intervals c (endGame c w)) as Eiv.
  destruct (endGame_state c w) as (Ep0 & Es0 & Eh0 & Etl0 & Em0).
  destruct (endGame_refs c w) as (Er0 & Elh0 & Eg0 & Ept0 & Ent0 & Enw0 & Ec0).
  pose proof (endGame_timeouts c w) as Eto0.
  pose proof (endGame_intervals c w) as Eiv0.
  assert (Eto1 : timeouts (endGame c (endGame c w)) = timeouts (endGame c w)).
  { rewrite Eto, Ept0, Eto0.
    destruct (peepTimerRef w) as [h|]; [|reflexivity].
    destruct (h =? 0); [reflexivity|apply filter_twice]. }
  assert (Eiv1 : intervals (endGame c (endGame c w)) = intervals (endGame c w)).
  { rewrite Eiv, Eg0, Eiv0.
    destruct (gameTimerRef w) as [h|]; [|reflexivity].
    destruct (h =? 0); [reflexivity|apply filter_twice]. }
  assert (Em1 : moles (endGame c (endGame c w)) = moles (endGame c w))
    by (rewrite Em, Em0; apply allIdle_twice).
  assert (Eh1 : highScore (endGame c (endGame c w)) = highScore (endGame c w))
    by (rewrite Eh, Eh0; lia).
  generalize dependent (endGame c (endGame c w)). intros w2. intros.
  generalize dependent (endGame c w). intros w1. intros.
  apply world_ext; destruct w1, w2; world_cbv; congruence.
Qed.

Lemma allIdle_same (ms : list MoleData) :
  (forall m, In m ms -> status m = IDLE) ->
  map (fun m => mkMole (id m) IDLE) ms = ms.
Proof.
  induction ms as [|m ms IH]; intros H; [reflexivity|].
  simpl. rewrite IH by (intros m' Hin; apply H; now right).
  pose proof (H m (or_introl eq_refl)) as Hs. destruct m. simpl in *.
  now rewrite Hs.
Qed.

(** C7 as stated fails: a call of [endGame] is not ignored when the round
    has ended or was never started.  After the first round a call from the
    closure of the current render plays the round-ended cue again and
    raises the best score; on the component as mounted it plays the cue;
    and the second of two calls in a row plays the cue a second time. *)
Lemma C7_counterexample :
  run firstRound initialWorld = Some afterFirstRound /\
  isPlaying afterFirstRound = false /\
  timeLeft afterFirstRound = 0 /\
  cues (endGame (score afterFirstRound) afterFirstRound)
    <> cues afterFirstRound /\
  highScore (endGame (score afterFirstRound) afterFirstRound)
    <> highScore afterFirstRound /\
  observe (endGame (score afterFirstRound) afterFirstRound)
    <> observe afterFirstRound /\
  isPlaying initialWorld = false /\
  cues (endGame (score initialWorld) initialWorld) <> cues initialWorld /\
  cues (endGame 0 (endGame 0 afterFirstHit)) <> cues (endGame 0 afterFirstHit).
Proof.
  split; [exact firstRound_runs|]. split; [reflexivity|].
  split; [reflexivity|].
  split; [intros H; vm_compute in H; discriminate H|].
  split; [intros H; vm_compute in H; discriminate H|].
  split; [intros H; vm_compute in H; discriminate H|].
  split; [reflexivity|].
  split; [intros H; vm_compute in H; discriminate H|].
  intros H; vm_compute in H; discriminate H.
Qed.

(** C7, amended.  [endGame] has no guard and is never ignored: every call
    plays the round-ended cue and stores as best score the larger of the
    best score and the score its closure captured.  A second call by the
    same closure leaves phase, score, best score, clock, every slot, the
    refs and the timers as the first call left them, and plays the cue once
    more; a second call by a closure that captured the score [c2] leaves
    what the player sees unchanged exactly when [c2] is at most the best
    score the first call stored.  Called while no round is running and
    every slot is IDLE (the component as mounted, or a round that has
    ended), a call leaves what the player sees unchanged exactly when the
    score its closure captured does not exceed the best score. *)
Theorem C7_endGame_twice_is_once (w : World) (c : Z) :
  cues (endGame c w) = cues w ++ [GameOver] /\
  highScore (endGame c w) = Z.max (highScore w) c /\
  endGame c (endGame c w) = play [GameOver] (endGame c w) /\
  observe (endGame c (endGame c w)) = observe (endGame c w) /\
  observe (endGame (score initialWorld) initialWorld) = observe initialWorld /\
  (forall c2,
      observe (endGame c2 (endGame c w)) = observe (endGame c w) <->
      c2 <= Z.max (highScore w) c) /\
  (isPlaying w = false -> (forall m, In m (moles w) -> status m = IDLE) ->
   (observe (endGame c w) = observe w <-> c <= highScore w)).
Proof.
  split; [exact (proj2 (proj2 (proj2 (proj2 (proj2 (proj2
                   (endGame_refs c w)))))))|].
  split; [exact (proj1 (proj2 (proj2 (endGame_state c w))))|].
  split; [apply endGame_twice|].
  split; [rewrite endGame_twice; destruct (endGame c w); reflexivity|].
  split; [reflexivity|].
  split.
  - intros c2. rewrite (endGame_observe c2 (endGame c w)).
    destruct (endGame_state c w) as (Ep & Es & Eh & Etl & Em).
    unfold observe. rewrite Ep, Es, Eh, Etl, Em, allIdle_twice. split.
    + intros H. injection H as H. lia.
    + intros H. rewrite Z.max_l by assumption. reflexivity.
  - intros Hp Hidle. rewrite endGame_observe. unfold observe.
    rewrite Hp, (allIdle_same _ Hidle). split.
    + intros H. injection H as H. lia.
    + intros H. rewrite Z.max_l by assumption. reflexivity.
Qed.

Lemma C7_endGame_twice_is_once_witness :
  isPlaying afterFirstRound = false /\
  (forall m, In m (moles afterFirstRound) -> status m = IDLE) /\
  0 <= highScore afterFirstRound /\
  observe (endGame 0 afterFirstRound) = observe afterFirstRound.
Proof.
  assert (Hidle : forall m, In m (moles afterFirstRound) -> status m = IDLE).
  { intros m Hin. simpl in Hin.
    repeat (destruct Hin as [<-|Hin]; [reflexivity|]). contradiction. }
  assert (Hc : 0 <= highScore afterFirstRound) by (simpl; lia).
  split; [reflexivity|]. split; [exact Hidle|]. split; [exact Hc|].
  exact (proj2 (proj2 (proj2 (proj2 (proj2 (proj2 (proj2
           (C7_endGame_twice_is_once afterFirstRound 0))))))
           eq_refl Hidle) Hc).
Defined.

(** ** The best score *)

(** The clock armed by a click on Start carries the score of the render the
    click came from: the score shown before the round. *)
Lemma start_captures_score (time : Z) (rnd : list Q) (w w' : World) :
  isPlaying w = false -> step (ClickStart time rnd) w = Some w' ->
  exists c, intervals w' = intervals w ++ [c] /\ ct_score c = score w.
Proof.
  intros Hp Hs. apply step_start_spec in Hs; [|exact Hp].
  destruct Hs as (_ & r & rnd' & h & _ & _ & _ & _ & ->).
  destruct w. world_cbv. eexists. split; reflexivity.
Qed.

(** The tick that ends the round stores the larger of the best score and
    the score its clock carries; the round's own score plays no part. *)
Lemma expiry_best_score (time h : Z) (w w' : World) :
  reachable w -> timeLeft w <= 1 -> step (ClockTick time h) w = Some w' ->
  exists c,
    intervals w = [c] /\ isPlaying w' = false /\ score w' = score w /\
    highScore w' = Z.max (highScore w) (ct_score c).
Proof.
  intros Hr Htl Hs. pose proof (reachable_Inv w Hr) as HI.
  apply step_tick_spec in Hs; [|exact HI].
  destruct Hs as (c & Hiv & _ & _ & _ & _ & ->).
  apply Z.leb_le in Htl. rewrite Htl. exists c. split; [exact Hiv|].
  destruct (endGame_state (ct_score c) (set_now time w)) as (Ep & Es & Eh & _).
  assert (E : forall v x,
             isPlaying (setTimeLeft v x) = isPlaying x /\
             score (setTimeLeft v x) = score x /\
             highScore (setTimeLeft v x) = highScore x)
    by (intros v x; destruct x; auto).
  destruct (E 0 (endGame (ct_score c) (set_now time w))) as (-> & -> & ->).
  rewrite Ep, Es, Eh. destruct w. auto.
Qed.

(** C1.  The first round, played to the end with one accepted hit: the round
    is over with score 1 and the best score is still 0, not
    max(0, 1) = 1. *)
Theorem C1_best_score_misses_the_round (w : World) :
  run firstRound initialWorld = Some w ->
  isPlaying w = false /\ timeLeft w = 0 /\ score w = 1 /\ highScore w = 0 /\
  highScore w <> Z.max (highScore initialWorld) (score w).
Proof.
  rewrite firstRound_runs. intros H. injection H as <-.
  repeat split. discriminate.
Qed.

Lemma C1_best_score_misses_the_round_witness :
  run firstRound initialWorld = Some afterFirstRound /\
  score afterFirstRound = 1 /\ highScore afterFirstRound = 0.
Proof.
  split; [exact firstRound_runs|].
  destruct (C1_best_score_misses_the_round afterFirstRound firstRound_runs)
    as (_ & _ & Hs & Hh & _).
  split; [exact Hs|exact Hh].
Defined.

(** ** The first hole of a round *)

Lemma statusOf_raised (hole : Z) (ms : list MoleData) :
  In hole (map id ms) -> statusOf hole (map (raise hole) ms) = Some UP.
Proof.
  intros Hin. rewrite statusOf_map.
  - destruct (find_in_ids hole ms Hin) as (m & -> & Hid). simpl.
    unfold raise. rewrite Hid, Z.eqb_refl. reflexivity.
  - intros m. unfold raise. destruct (id m =? hole); reflexivity.
Qed.

Lemma statusOf_not_raised (hole j : Z) (ms : list MoleData) :
  j <> hole -> (forall m, In m ms -> status m = IDLE) ->
  statusOf j (map (raise hole) ms) <> Some UP.
Proof.
  intros Hne Hidle. rewrite statusOf_map.
  - destruct (find (fun m0 => id m0 =? j) ms) as [m|] eqn:Ef; [|discriminate].
    apply find_id_some in Ef. destruct Ef as [Hin Hid]. simpl.
    unfold raise. rewrite Hid. apply Z.eqb_neq in Hne. rewrite Hne.
    rewrite (Hidle m Hin). discriminate.
  - intros m. unfold raise. destruct (id m =? hole); reflexivity.
Qed.

Lemma startedWith_fields (h time : Z) (w : World) :
  moles (startedWith h time w) = map (raise h) freshBoard /\
  lastHoleRef (startedWith h time w) = h.
Proof.
  destruct w. world_cbv. auto.
Qed.

(** The first appearance of a round is never the hole stored when the round
    starts. *)
Lemma first_hole_differs (time : Z) (rnd : list Q) (w w' : World) :
  Inv w -> isPlaying w = false -> step (ClickStart time rnd) w = Some w' ->
  lastHoleRef w' <> lastHoleRef w /\
  statusOf (lastHoleRef w') (moles w') = Some UP /\
  statusOf (lastHoleRef w) (moles w') <> Some UP.
Proof.
  intros HI Hp Hs. apply step_start_spec in Hs; [|exact Hp].
  destruct Hs as (_ & r & rnd' & h & _ & Hne & Hin & _ & ->).
  destruct (startedWith_fields h (randomTime MIN_PEEP_TIME MAX_PEEP_TIME r)
              (set_now time w)) as [-> ->].
  rewrite (inv_ids w HI) in Hin.
  split; [exact Hne|]. split.
  - now apply statusOf_raised.
  - apply statusOf_not_raised; [congruence|]. apply freshBoard_idle.
Qed.

(** On a board with the ids of the game, every slot is selected by some
    draw. *)
Lemma pick_slot (ms : list MoleData) (k : Z) :
  map id ms = boardIds -> In k boardIds ->
  exists r, isDouble r = true /\ validDraw r = true /\ pick ms r = Some k.
Proof.
  intros Hids Hk.
  destruct ms as [|m0 [|m1 [|m2 [|m3 [|m4 [|m5 [|m6 ms]]]]]]]; try discriminate.
  injection Hids as E0 E1 E2 E3 E4 E5.
  simpl in Hk.
  destruct Hk as [<-|[<-|[<-|[<-|[<-|[<-|[]]]]]]];
    [exists 0%Q|exists (1 # 4)%Q|exists (3 # 8)%Q
    |exists (1 # 2)%Q|exists (3 # 4)%Q|exists (7 # 8)%Q];
    (split; [vm_compute; reflexivity|]); (split; [reflexivity|]);
    unfold pick; simpl; congruence.
Qed.

Lemma start_returns (time : Z) (r0 r : Q) (k : Z) (w : World) :
  isPlaying w = false -> now w <= time ->
  pick (moles w) r = Some k -> k <> lastHoleRef w ->
  step (ClickStart time [r0; r]) w
  = Some (startedWith k (randomTime MIN_PEEP_TIME MAX_PEEP_TIME r0)
            (set_now time w)).
Proof.
  intros Hp Hn Hpk Hne. unfold step. cbn [eventTime].
  destruct (time <? now w) eqn:E; [apply Z.ltb_lt in E; lia|].
  destruct (startGame (render (set_now time w)) [r0; r] (set_now time w))
    as [w'|] eqn:Es.
  - apply startGame_spec in Es; [|destruct w; exact Hp].
    destruct Es as (r1 & rnd' & h & Er & Hrh & _ & _ & ->).
    injection Er as <- <-.
    rewrite randomHole_unfold in Hrh.
    assert (Em : moles (set_now time w) = moles w) by (destruct w; reflexivity).
    rewrite Em, Hpk in Hrh.
    assert (El : lastHoleRef (resetRound (set_now time w)) = lastHoleRef w)
      by (destruct w; reflexivity).
    rewrite El in Hrh. apply Z.eqb_neq in Hne. rewrite Hne in Hrh.
    injection Hrh as <-. reflexivity.
  - exfalso. unfold startGame, render in Es.
    cbn [r_isPlaying r_moles r_score] in Es.
    assert (Ep : isPlaying (set_now time w) = false) by (destruct w; exact Hp).
    rewrite Ep in Es. fold (resetRound (set_now time w)) in Es.
    assert (Hrh : randomHole (moles (set_now time w)) [r]
                    (resetRound (set_now time w))
                  = Some (k, set_lastHoleRef k (resetRound (set_now time w)))).
    { rewrite randomHole_unfold.
      assert (Em : moles (set_now time w) = moles w) by (destruct w; reflexivity).
      assert (El : lastHoleRef (resetRound (set_now time w)) = lastHoleRef w)
        by (destruct w; reflexivity).
      rewrite Em, Hpk, El. apply Z.eqb_neq in Hne. rewrite Hne. reflexivity. }
    destruct (peep_returns (moles (set_now time w)) r0 [r]
                (resetRound (set_now time w)) k _ eq_refl Hrh) as [w' Hw'].
    rewrite Hw' in Es. unfold setInterval in Es. discriminate.
Qed.

(** The stored hole changes only when a mole is shown, and then it is the
    slot shown: nothing ever puts the sentinel back. *)
Lemma lastHoleRef_changes_by_showing (e : Event) (w w' : World) :
  Inv w -> step e w = Some w' ->
  lastHoleRef w' = lastHoleRef w \/
  (lastHoleRef w' <> lastHoleRef w /\
   statusOf (lastHoleRef w') (moles w') = Some UP).
Proof.
  intros HI Hs. destruct e as [time rnd|time hitId isTrusted|time h rnd|time h].
  - destruct (isPlaying w) eqn:Hp.
    + left. unfold step in Hs. cbn [eventTime] in Hs.
      destruct (time <? now w); [discriminate|].
      rewrite startGame_running in Hs by (destruct w; exact Hp).
      injection Hs as <-. destruct w; reflexivity.
    + right. destruct (first_hole_differs time rnd w w' HI Hp Hs) as (H1 & H2 & _).
      auto.
  - left. apply step_whack_spec in Hs. destruct Hs as [_ ->].
    rewrite handleWhack_eq.
    destruct (negb isTrusted || negb (isPlayingRef (set_now time w)));
      destruct w; reflexivity.
  - right. apply step_hide_spec in Hs; [|exact HI].
    destruct Hs as (t & r & rnd' & hole & Hto & _ & Hp & _ & _ & _ & Hne & Hb & ->).
    pose proof (inv_timers w HI) as Ht. rewrite Hp in Ht.
    destruct Ht as (t0 & c & Hto0 & _ & _ & _ & Hh & _).
    rewrite Hto in Hto0. injection Hto0 as <-.
    assert (E : forall x y z,
               lastHoleRef (peepTo hole x y z) = hole /\
               moles (peepTo hole x y z) = map (raise hole) (moles z))
      by (intros x y z; destruct z; auto).
    destruct (E (randomTime MIN_PEEP_TIME MAX_PEEP_TIME r) (ht_moles t)
                (setMoles (map (lower (ht_holeIdx t)))
                   (set_timeouts [] (set_now time w)))) as [-> ->].
    split; [congruence|]. apply statusOf_raised.
    assert (Em : moles (setMoles (map (lower (ht_holeIdx t)))
                          (set_timeouts [] (set_now time w)))
                 = map (lower (ht_holeIdx t)) (moles w))
      by (destruct w; reflexivity).
    rewrite Em, ids_lower, (inv_ids w HI). exact Hb.
  - left. apply step_tick_spec in Hs; [|exact HI].
    destruct Hs as (c & _ & _ & _ & _ & _ & ->).
    destruct (timeLeft w <=? 1).
    + destruct (endGame_refs (ct_score c) (set_now time w)) as (_ & E & _).
      assert (E' : lastHoleRef (setTimeLeft 0
                                  (endGame (ct_score c) (set_now time w)))
                   = lastHoleRef (endGame (ct_score c) (set_now time w)))
        by (destruct (endGame (ct_score c) (set_now time w)); reflexivity).
      rewrite E', E. destruct w; reflexivity.
    + destruct w; reflexivity.
Qed.

(** C2, as stated, fails.  After the first round the stored hole is slot 0,
    the last slot that round showed, not the sentinel -1.  At the next click
    on Start the draw that selects slot 0 is turned down and slot 3 is shown
    instead; whatever the draws, slot 0 is never the first to appear. *)
Lemma C2_counterexample :
  run firstRound initialWorld = Some afterFirstRound /\
  isPlaying afterFirstRound = false /\
  lastHoleRef afterFirstRound = 0 /\
  lastHoleRef afterFirstRound <> -1 /\
  pick (moles afterFirstRound) 0 = Some 0 /\
  step secondStart afterFirstRound = Some afterSecondStart /\
  statusOf 0 (moles afterSecondStart) = Some IDLE /\
  statusOf 3 (moles afterSecondStart) = Some UP /\
  (forall time rnd w',
      step (ClickStart time rnd) afterFirstRound = Some w' ->
      statusOf 0 (moles w') <> Some UP).
Proof.
  split; [exact firstRound_runs|]. split; [reflexivity|].
  split; [reflexivity|]. split; [discriminate|]. split; [reflexivity|].
  split; [exact secondStart_runs|]. split; [reflexivity|].
  split; [reflexivity|].
  intros time rnd w' Hs.
  exact (proj2 (proj2 (first_hole_differs time rnd afterFirstRound w'
                         (reachable_Inv _ afterFirstRound_reachable)
                         eq_refl Hs))).
Qed.

(** The stored hole is the sentinel until the first mole is shown, and a
    slot of the board ever after. *)
Lemma stored_hole_step (e : Event) (w w' : World) :
  Inv w -> step e w = Some w' ->
  (lastHoleRef w = -1 /\ cues w = [] /\ isPlayingRef w = false) \/
  (In (lastHoleRef w) boardIds /\ cues w <> []) ->
  (lastHoleRef w' = -1 /\ cues w' = [] /\ isPlayingRef w' = false) \/
  (In (lastHoleRef w') boardIds /\ cues w' <> []).
Proof.
  intros HI Hs HP. destruct e as [time rnd|time hitId isTrusted|time h rnd|time h].
  - destruct (isPlaying w) eqn:Hp.
    + unfold step in Hs. cbn [eventTime] in Hs.
      destruct (time <? now w); [discriminate|].
      rewrite startGame_running in Hs by (destruct w; exact Hp).
      injection Hs as <-. destruct w; exact HP.
    + right. apply step_start_spec in Hs; [|exact Hp].
      destruct Hs as (_ & r & rnd' & h & _ & _ & Hin & _ & ->).
      rewrite (inv_ids w HI) in Hin.
      destruct (startedWith_fields h (randomTime MIN_PEEP_TIME MAX_PEEP_TIME r)
                  (set_now time w)) as [_ ->].
      split; [exact Hin|].
      destruct w. world_cbv. intros H. now apply app_eq_nil in H.
  - apply step_whack_spec in Hs. destruct Hs as [_ ->].
    rewrite handleWhack_eq.
    destruct (negb isTrusted || negb (isPlayingRef (set_now time w))) eqn:G.
    + destruct w; exact HP.
    + apply orb_false_iff in G. destruct G as [_ G].
      apply negb_false_iff in G.
      assert (Hpl : isPlayingRef w = true) by (destruct w; exact G).
      destruct HP as [(_ & _ & Hf)|[Hin Hc]]; [congruence|].
      right. destruct w. world_cbv. split; [exact Hin|].
      intros H. apply app_eq_nil in H. now destruct H.
  - right. apply step_hide_spec in Hs; [|exact HI].
    destruct Hs as (t & r & rnd' & hole & _ & _ & _ & _ & _ & _ & _ & Hb & ->).
    destruct w. world_cbv. split; [exact Hb|].
    intros H. now apply app_eq_nil in H.
  - apply step_tick_spec in Hs; [|exact HI].
    destruct Hs as (c & _ & _ & Hpl & _ & _ & ->).
    destruct HP as [(_ & _ & Hf)|[Hin Hc]]; [congruence|].
    right. destruct (timeLeft w <=? 1).
    + destruct (endGame_refs (ct_score c) (set_now time w))
        as (_ & El & _ & _ & _ & _ & Ec).
      assert (E' : forall z,
                 lastHoleRef (setTimeLeft 0 z) = lastHoleRef z /\
                 cues (setTimeLeft 0 z) = cues z)
        by (intros z; destruct z; auto).
      destruct (E' (endGame (ct_score c) (set_now time w))) as [-> ->].
      rewrite El, Ec. split.
      * destruct w; exact Hin.
      * intros H. now apply app_eq_nil in H.
    + destruct w. world_cbv. auto.
Qed.

Lemma stored_hole (w : World) :
  reachable w ->
  (lastHoleRef w = -1 /\ cues w = [] /\ isPlayingRef w = false) \/
  (In (lastHoleRef w) boardIds /\ cues w <> []).
Proof.
  induction 1 as [|w w' e Hr IH Hv Hs].
  - left. auto.
  - exact (stored_hole_step e w w' (reachable_Inv w Hr) Hs IH).
Qed.

(** Once the stored hole is a slot of the board it stays one, whatever
    happens next. *)
Lemma stored_hole_kept (es : list Event) (w w1 : World) :
  Inv w -> In (lastHoleRef w) boardIds -> run es w = Some w1 ->
  In (lastHoleRef w1) boardIds.
Proof.
  revert w. induction es as [|e es IH]; intros w HI Hin Hrun.
  - injection Hrun as <-. exact Hin.
  - simpl in Hrun. destruct (step e w) as [w'|] eqn:Es; [|discriminate].
    pose proof (Inv_step e w w' HI Es) as HI'.
    apply (IH w' HI'); [|exact Hrun].
    destruct (lastHoleRef_changes_by_showing e w w' HI Es) as [->|[_ Hup]];
      [exact Hin|].
    apply statusOf_some in Hup. destruct Hup as (m & Hm & <- & _).
    rewrite <- (inv_ids w' HI'). now apply in_map.
Qed.

Lemma sentinel_off_board : ~ In (-1) boardIds.
Proof.
  simpl. intuition discriminate.
Qed.

(** C2, amended.  The stored hole is the sentinel -1 when the component is
    mounted, and from then on it changes only by showing a mole.  In every
    reachable world [endGame] keeps it, and so does the clock tick that
    ends a round, after which it is the slot of the last mole the round
    showed; while no round is running no event but a click on Start
    changes it.  It is the sentinel exactly as long as nothing has been
    played; the first click on Start makes it a slot of the board, and a
    slot of the board it stays, whatever events follow.  So a click on
    Start in a world where no round is running shows a slot other than the
    stored one; and only while the stored hole is still the sentinel may
    the first appearance be any slot of the board. *)
Theorem C2_first_hole_of_a_round (w : World) (Hr : reachable w) :
  lastHoleRef initialWorld = -1 /\
  (forall c, lastHoleRef (endGame c w) = lastHoleRef w) /\
  (forall e w',
      step e w = Some w' ->
      lastHoleRef w' = lastHoleRef w \/
      (lastHoleRef w' <> lastHoleRef w /\
       statusOf (lastHoleRef w') (moles w') = Some UP)) /\
  (forall time h w',
      step (ClockTick time h) w = Some w' -> isPlaying w' = false ->
      lastHoleRef w' = lastHoleRef w /\ In (lastHoleRef w') boardIds /\
      exists t, timeouts w = [t] /\ ht_holeIdx t = lastHoleRef w') /\
  (isPlaying w = false ->
   forall e w', isClickStart e = false -> step e w = Some w' ->
                lastHoleRef w' = lastHoleRef w /\ isPlaying w' = false) /\
  (lastHoleRef w = -1 <-> cues w = []) /\
  (cues w <> [] -> In (lastHoleRef w) boardIds) /\
  (In (lastHoleRef w) boardIds ->
   forall es w1, run es w = Some w1 ->
                 In (lastHoleRef w1) boardIds /\ lastHoleRef w1 <> -1) /\
  (isPlaying w = false ->
   forall time rnd w',
      step (ClickStart time rnd) w = Some w' ->
      lastHoleRef w' <> lastHoleRef w /\
      statusOf (lastHoleRef w') (moles w') = Some UP /\
      statusOf (lastHoleRef w) (moles w') <> Some UP /\
      In (lastHoleRef w') boardIds) /\
  (isPlaying w = false -> lastHoleRef w = -1 ->
   forall k, In k boardIds ->
     exists r,
       isDouble r = true /\ validDraw r = true /\
       forall r0 time, now w <= time ->
         exists w',
           step (ClickStart time [r0; r]) w = Some w' /\
           statusOf k (moles w') = Some UP).
Proof.
  pose proof (reachable_Inv w Hr) as HI.
  pose proof (stored_hole w Hr) as HS.
  split; [reflexivity|].
  split; [intros c; exact (proj1 (proj2 (endGame_refs c w)))|].
  split; [intros e w' Hs; now apply (lastHoleRef_changes_by_showing e)|].
  split.
  { intros time h w' Hs Hp'.
    assert (El : lastHoleRef w' = lastHoleRef w).
    { destruct (lastHoleRef_changes_by_showing _ w w' HI Hs) as [E|[_ Hup]];
        [exact E|].
      apply step_tick_spec in Hs; [|exact HI].
      destruct Hs as (c & _ & _ & _ & _ & _ & ->).
      destruct (timeLeft w <=? 1).
      - destruct (endGame_refs (ct_score c) (set_now time w)) as (_ & E & _).
        assert (E' : lastHoleRef (setTimeLeft 0
                                    (endGame (ct_score c) (set_now time w)))
                     = lastHoleRef (endGame (ct_score c) (set_now time w)))
          by (destruct (endGame (ct_score c) (set_now time w)); reflexivity).
        rewrite E', E. destruct w; reflexivity.
      - destruct w; reflexivity. }
    apply step_tick_spec in Hs; [|exact HI].
    destruct Hs as (c & _ & _ & Hpl & _ & _ & _).
    pose proof (inv_timers w HI) as Ht. rewrite Hpl in Ht.
    destruct Ht as (t & c0 & Hto & _ & _ & _ & Hh & _ & _ & _ & Hin).
    rewrite El. split; [reflexivity|]. split; [now rewrite <- Hh|].
    exists t. split; assumption. }
  split.
  { intros Hp e w' He Hs.
    assert (Hpl : isPlayingRef w = false)
      by (rewrite <- (inv_phase w HI); exact Hp).
    rewrite (stopped_step e w w' HI Hpl He Hs).
    destruct w; split; [reflexivity|exact Hp]. }
  split.
  { destruct HS as [(Hl & Hc & _)|[Hin Hc]].
    - tauto.
    - split; [|tauto]. intros Hl. rewrite Hl in Hin.
      destruct (sentinel_off_board Hin). }
  split.
  { intros Hc. destruct HS as [(_ & Hc' & _)|[Hin _]]; [congruence|exact Hin]. }
  split.
  { intros Hin es w1 Hrun.
    pose proof (stored_hole_kept es w w1 HI Hin Hrun) as Hin1.
    split; [exact Hin1|]. intros E. rewrite E in Hin1.
    destruct (sentinel_off_board Hin1). }
  split.
  { intros Hp time rnd w' Hs.
    destruct (first_hole_differs time rnd w w' HI Hp Hs) as (H1 & H2 & H3).
    split; [exact H1|]. split; [exact H2|]. split; [exact H3|].
    pose proof (Inv_step _ w w' HI Hs) as HI'.
    apply statusOf_some in H2. destruct H2 as (m & Hm & <- & _).
    rewrite <- (inv_ids w' HI'). now apply in_map. }
  intros Hp Hl k Hk.
  destruct (pick_slot (moles w) k (inv_ids w HI) Hk) as (r & Hd & Hr' & Hpk).
  exists r. split; [exact Hd|]. split; [exact Hr'|]. intros r0 time Hn.
  assert (Hne : k <> lastHoleRef w).
  { rewrite Hl. intros ->. destruct (sentinel_off_board Hk). }
  exists (startedWith k (randomTime MIN_PEEP_TIME MAX_PEEP_TIME r0)
            (set_now time w)).
  split; [apply (start_returns time r0 r k w); assumption|].
  destruct (startedWith_fields k (randomTime MIN_PEEP_TIME MAX_PEEP_TIME r0)
              (set_now time w)) as [-> _].
  apply statusOf_raised. exact Hk.
Qed.

Lemma C2_first_hole_of_a_round_witness :
  reachable afterFirstRound /\
  lastHoleRef (endGame 0 afterFirstRound) = lastHoleRef afterFirstRound /\
  In (lastHoleRef afterFirstRound) boardIds /\
  lastHoleRef afterSecondStart <> lastHoleRef afterFirstRound /\
  statusOf (lastHoleRef afterFirstRound) (moles afterSecondStart) <> Some UP.
Proof.
  split; [exact afterFirstRound_reachable|].
  destruct (C2_first_hole_of_a_round afterFirstRound afterFirstRound_reachable)
    as (_ & Hend & _ & _ & _ & _ & Hin & _ & Hstart & _).
  split; [exact (Hend 0)|]. split; [apply Hin; discriminate|].
  destruct (Hstart eq_refl 40000 [85 # 1024; 0; 1 # 2]%Q afterSecondStart
              secondStart_runs) as (H1 & _ & H3 & _).
  split; [exact H1|exact H3].
Defined.

(** ** Counters and cues *)

Lemma visible_raise_le (h : Z) (ms : list MoleData) :
  NoDup (map id ms) ->
  (forall m, In m ms -> isUp m = false) ->
  (length (visible (map (raise h) ms)) <= 1)%nat.
Proof.
  intros Hnd Hdown. apply (filter_at_most_one isUp h).
  - now rewrite ids_raise.
  - intros m Hin Hup. apply in_raise in Hin. destruct Hin as [[E _]|[_ Hin]].
    + exact E.
    + rewrite (Hdown m Hin) in Hup. discriminate.
Qed.

Lemma visible_whack (h : Z) (ms : list MoleData) :
  (length (visible (map (whack h) ms)) + length (filter (validWhack h) ms)
   = length (visible ms))%nat.
Proof.
  unfold visible. induction ms as [|m ms IH]; [reflexivity|].
  simpl. unfold whack at 1. destruct (validWhack h m) eqn:Ev.
  - apply validWhack_true in Ev. destruct Ev as [_ Hup].
    apply isUp_true in Hup. rewrite Hup. unfold isUp at 1. simpl. lia.
  - destruct (isUp m); simpl; lia.
Qed.

Lemma count_repeat_bonk (n : nat) :
  length (filter isBonk (repeat Bonk n)) = n /\
  length (filter isPop (repeat Bonk n)) = 0%nat.
Proof.
  induction n as [|n [IH1 IH2]]; [auto|]. simpl. auto.
Qed.

Lemma count_snoc (f : Cue -> bool) (l : list Cue) (c : Cue) :
  length (filter f (l ++ [c]))
  = (length (filter f l) + (if f c then 1 else 0))%nat.
Proof.
  rewrite filter_app, length_app. simpl. destruct (f c); reflexivity.
Qed.

Lemma lowered_all_down (w : World) (t : HideTimer) :
  Inv w -> timeouts w = [t] -> isPlayingRef w = true ->
  forall m, In m (map (lower (ht_holeIdx t)) (moles w)) -> isUp m = false.
Proof.
  intros HI Hto Hp m Hin. apply not_true_is_false. intros Hup.
  apply isUp_true in Hup.
  pose proof (inv_timers w HI) as Ht. rewrite Hp in Ht.
  destruct Ht as (t0 & c & Hto0 & _ & _ & _ & Hh & _).
  rewrite Hto in Hto0. injection Hto0 as <-.
  apply in_lower in Hin. destruct Hin as [[_ E]|[Hn Hin]].
  - congruence.
  - apply Hn. rewrite Hh. apply (inv_shown w HI m Hin). rewrite Hup. discriminate.
Qed.

Lemma Counters_init : Counters initialWorld.
Proof.
  constructor; simpl; try lia; auto. unfold GAME_DURATION. lia.
Qed.

Lemma Counters_set_now (t : Z) (w : World) : Counters w -> Counters (set_now t w).
Proof.
  intros [H1 H2 H3 H4 H5 H6]. destruct w. constructor; assumption.
Qed.

Lemma Counters_startedWith (h time : Z) (w : World) :
  Counters w -> Counters (startedWith h time w).
Proof.
  intros [H1 H2 H3 H4 H5 H6].
  pose proof (visible_raise_le h freshBoard boardIds_NoDup) as Hv.
  assert (Hdown : forall m, In m freshBoard -> isUp m = false).
  { intros m Hin. unfold isUp. now rewrite (freshBoard_idle m Hin). }
  specialize (Hv Hdown).
  destruct w. unfold pops, bonks in *. world_cbv.
  constructor; unfold pops, bonks; world_cbv.
  - lia.
  - assumption.
  - unfold GAME_DURATION. lia.
  - discriminate.
  - rewrite !count_snoc. cbn [isPop isBonk]. lia.
  - rewrite count_snoc. cbn [isBonk]. lia.
Qed.

Lemma Counters_handleWhack (hitId : Z) (isTrusted : bool) (w : World) :
  Counters w -> Counters (handleWhack hitId isTrusted w).
Proof.
  intros HC. rewrite handleWhack_eq.
  destruct (negb isTrusted || negb (isPlayingRef w)) eqn:G; [assumption|].
  apply orb_false_iff in G. destruct G as [_ Gp]. apply negb_false_iff in Gp.
  destruct HC as [H1 H2 H3 H4 H5 H6].
  pose proof (visible_whack hitId (moles w)) as Hv.
  destruct (count_repeat_bonk (credited hitId w)) as [Hb Hp].
  unfold credited in *.
  destruct w. unfold pops, bonks in *. world_cbv.
  constructor; unfold pops, bonks; world_cbv.
  - lia.
  - assumption.
  - assumption.
  - intros E. congruence.
  - rewrite !filter_app, !length_app, Hb, Hp. lia.
  - rewrite filter_app, length_app, Hb. lia.
Qed.

Lemma Counters_hidden (hole time : Z) (t : HideTimer) (at_ : Z) (w : World) :
  Inv w -> Counters w -> timeouts w = [t] -> isPlayingRef w = true ->
  Counters (peepTo hole time (ht_moles t)
              (setMoles (map (lower (ht_holeIdx t)))
                 (set_timeouts [] (set_now at_ w)))).
Proof.
  intros HI [H1 H2 H3 H4 H5 H6] Hto Hp.
  pose proof (lowered_all_down w t HI Hto Hp) as Hdown.
  pose proof (visible_raise_le hole (map (lower (ht_holeIdx t)) (moles w))) as Hv.
  rewrite ids_lower in Hv. specialize (Hv (Inv_NoDup w HI) Hdown).
  destruct w. unfold pops, bonks in *. world_cbv.
  constructor; unfold pops, bonks; world_cbv; try assumption.
  - intros E. congruence.
  - rewrite !count_snoc. cbn [isPop isBonk]. lia.
  - rewrite count_snoc. cbn [isBonk]. lia.
Qed.

Lemma Counters_endGame (c : Z) (w : World) :
  Counters w -> Counters (setTimeLeft 0 (endGame c w)).
Proof.
  intros [H1 H2 H3 H4 H5 H6].
  destruct (endGame_state c w) as (_ & Es & Eh & _ & Em).
  destruct (endGame_refs c w) as (_ & _ & _ & _ & _ & _ & Ec).
  pose proof (visible_allIdle (moles w)) as Hv.
  unfold pops, bonks in *.
  destruct (endGame c w). world_cbv. subst.
  constructor; unfold pops, bonks; world_cbv.
  - assumption.
  - lia.
  - unfold GAME_DURATION. lia.
  - auto.
  - rewrite Hv, !count_snoc. cbn [isPop isBonk length]. lia.
  - rewrite count_snoc. cbn [isBonk]. lia.
Qed.

Lemma Counters_ticked (h : Z) (c : ClockTimer) (at_ : Z) (w : World) :
  Counters w -> isPlayingRef w = true -> 1 < timeLeft w ->
  Counters (set_intervals [mkClock h (ct_due c + 1000) (ct_score c)]
              (setTimeLeft (timeLeft w - 1) (set_now at_ w))).
Proof.
  intros [H1 H2 H3 H4 H5 H6] Hp Htl.
  destruct w. unfold pops, bonks in *. world_cbv.
  constructor; unfold pops, bonks; world_cbv; try assumption.
  - lia.
  - intros E. congruence.
Qed.

Lemma Counters_step (e : Event) (w w' : World) :
  Inv w -> Counters w -> step e w = Some w' -> Counters w'.
Proof.
  intros HI HC Hs.
  destruct e as [time rnd|time hitId isTrusted|time h rnd|time h].
  - destruct (isPlaying w) eqn:Hp.
    + unfold step in Hs. cbn [eventTime] in Hs.
      destruct (time <? now w); [discriminate|].
      rewrite startGame_running in Hs by (destruct w; exact Hp).
      injection Hs as <-. now apply Counters_set_now.
    + apply step_start_spec in Hs; [|exact Hp].
      destruct Hs as (_ & r & rnd' & h & _ & _ & _ & _ & ->).
      apply Counters_startedWith. now apply Counters_set_now.
  - apply step_whack_spec in Hs. destruct Hs as [_ ->].
    apply Counters_handleWhack. now apply Counters_set_now.
  - apply step_hide_spec in Hs; [|exact HI].
    destruct Hs as (t & r & rnd' & hole & Hto & _ & Hp & _ & _ & _ & _ & _ & ->).
    now apply Counters_hidden.
  - apply step_tick_spec in Hs; [|exact HI].
    destruct Hs as (c & _ & _ & Hp & _ & _ & ->).
    destruct (timeLeft w <=? 1) eqn:Etl.
    + apply Counters_endGame. now apply Counters_set_now.
    + apply Z.leb_gt in Etl. now apply Counters_ticked.
Qed.

Lemma reachable_Counters (w : World) : reachable w -> Counters w.
Proof.
  induction 1 as [|w w' e Hr IH _ Hs]; [exact Counters_init|].
  eapply Counters_step; eauto. now apply reachable_Inv.
Qed.

(** ** The board, the timers and the counters in every reachable world *)

(** X1.  The grid always holds the six slots 0..5 in order; a slot that is not
    IDLE is the slot shown last, so at most one slot is UP or WHACKED; and
    while no round is running every slot is IDLE. *)
Theorem board_shape (w : World) (Hr : reachable w) :
  map id (moles w) = [0; 1; 2; 3; 4; 5] /\
  (forall m, In m (moles w) -> status m <> IDLE -> id m = lastHoleRef w) /\
  (forall i j s1 s2,
      statusOf i (moles w) = Some s1 -> statusOf j (moles w) = Some s2 ->
      s1 <> IDLE -> s2 <> IDLE -> i = j) /\
  (isPlaying w = false -> forall m, In m (moles w) -> status m = IDLE).
Proof.
  pose proof (reachable_Inv w Hr) as HI. split; [|split; [|split]].
  - exact (inv_ids w HI).
  - intros m Hin Hs. now apply (inv_shown w HI m Hin).
  - intros i j s1 s2 Hi Hj H1 H2.
    apply statusOf_some in Hi. destruct Hi as (mi & Hini & <- & <-).
    apply statusOf_some in Hj. destruct Hj as (mj & Hinj & <- & <-).
    destruct (inv_shown w HI mi Hini H1) as [-> _].
    destruct (inv_shown w HI mj Hinj H2) as [-> _]. reflexivity.
  - intros Hp m Hin. destruct (status m) eqn:Es; [reflexivity| |].
    + destruct (inv_shown w HI m Hin) as [_ E]; [rewrite Es; discriminate|].
      rewrite (inv_phase w HI) in Hp. congruence.
    + destruct (inv_shown w HI m Hin) as [_ E]; [rewrite Es; discriminate|].
      rewrite (inv_phase w HI) in Hp. congruence.
Qed.

Lemma board_shape_witness :
  reachable afterFirstHit /\
  map id (moles afterFirstHit) = [0; 1; 2; 3; 4; 5] /\
  statusOf 0 (moles afterFirstHit) = Some WHACKED /\
  forall m, In m (moles afterFirstHit) -> status m <> IDLE ->
    id m = lastHoleRef afterFirstHit.
Proof.
  split; [exact afterFirstHit_reachable|].
  destruct (board_shape afterFirstHit afterFirstHit_reachable) as (H1 & H2 & _).
  split; [exact H1|]. split; [reflexivity|exact H2].
Defined.

(** X2.  While a round is running exactly one hide timer and exactly one clock
    are armed, [peepTimerRef] and [gameTimerRef] hold their handles, and the
    hide timer is the one of the slot shown last; while none is running no
    timer is armed. *)
Theorem timers_follow_phase (w : World) (Hr : reachable w) :
  (isPlaying w = true ->
   exists t c,
     timeouts w = [t] /\ intervals w = [c] /\
     peepTimerRef w = Some (ht_id t) /\ gameTimerRef w = Some (ct_id c) /\
     ht_holeIdx t = lastHoleRef w /\ 0 < ht_id t /\ 0 < ct_id c) /\
  (isPlaying w = false -> timeouts w = [] /\ intervals w = []).
Proof.
  pose proof (reachable_Inv w Hr) as HI.
  pose proof (inv_timers w HI) as Ht. rewrite (inv_phase w HI).
  destruct (isPlayingRef w).
  - split; [|discriminate]. intros _.
    destruct Ht as (t & c & H1 & H2 & H3 & H4 & H5 & H6 & H7 & _).
    exists t, c. repeat (split; [assumption|]). split; lia.
  - split; [discriminate|]. intros _. exact Ht.
Qed.

Lemma timers_follow_phase_witness :
  reachable afterFirstStart /\ isPlaying afterFirstStart = true /\
  exists t c,
    timeouts afterFirstStart = [t] /\ intervals afterFirstStart = [c] /\
    peepTimerRef afterFirstStart = Some (ht_id t) /\
    gameTimerRef afterFirstStart = Some (ct_id c) /\
    ht_holeIdx t = lastHoleRef afterFirstStart /\ 0 < ht_id t /\ 0 < ct_id c.
Proof.
  split; [exact afterFirstStart_reachable|]. split; [reflexivity|].
  exact (proj1 (timers_follow_phase afterFirstStart afterFirstStart_reachable)
           eq_refl).
Defined.

(** X3.  The score and the best score are never negative, and the seconds left
    stay between 0 and GAME_DURATION, at 1 or more while a round runs. *)
Theorem counters_in_range (w : World) (Hr : reachable w) :
  0 <= score w /\ 0 <= highScore w /\
  0 <= timeLeft w <= GAME_DURATION /\
  (isPlaying w = true -> 1 <= timeLeft w).
Proof.
  pose proof (reachable_Inv w Hr) as HI.
  destruct (reachable_Counters w Hr) as [H1 H2 H3 _ _ _].
  repeat (split; [assumption|]).
  rewrite (inv_phase w HI). exact (inv_clock w HI).
Qed.

Lemma counters_in_range_witness :
  reachable afterFirstRound /\
  0 <= score afterFirstRound /\ 0 <= highScore afterFirstRound /\
  0 <= timeLeft afterFirstRound <= GAME_DURATION.
Proof.
  split; [exact afterFirstRound_reachable|].
  destruct (counters_in_range afterFirstRound afterFirstRound_reachable)
    as (H1 & H2 & H3 & _).
  split; [exact H1|]. split; [exact H2|exact H3].
Defined.

(** What an event does to the best score: nothing, except the tick that
    ends the round. *)
Lemma step_highScore (e : Event) (w w' : World) :
  Inv w -> step e w = Some w' ->
  highScore w' = highScore w \/
  (exists time h c,
      e = ClockTick time h /\ intervals w = [c] /\ timeLeft w <= 1 /\
      highScore w' = Z.max (highScore w) (ct_score c)).
Proof.
  intros HI Hs. destruct e as [time rnd|time hitId isTrusted|time h rnd|time h].
  - left. destruct (isPlaying w) eqn:Hp.
    + unfold step in Hs. cbn [eventTime] in Hs.
      destruct (time <? now w); [discriminate|].
      rewrite startGame_running in Hs by (destruct w; exact Hp).
      injection Hs as <-. destruct w; reflexivity.
    + apply step_start_spec in Hs; [|exact Hp].
      destruct Hs as (_ & r & rnd' & h & _ & _ & _ & _ & ->).
      destruct w; reflexivity.
  - left. apply step_whack_spec in Hs. destruct Hs as [_ ->].
    rewrite handleWhack_eq.
    destruct (negb isTrusted || negb (isPlayingRef (set_now time w)));
      destruct w; reflexivity.
  - left. apply step_hide_spec in Hs; [|exact HI].
    destruct Hs as (t & r & rnd' & hole & _ & _ & _ & _ & _ & _ & _ & _ & ->).
    destruct w; reflexivity.
  - apply step_tick_spec in Hs; [|exact HI].
    destruct Hs as (c & Hiv & _ & _ & _ & _ & ->).
    destruct (timeLeft w <=? 1) eqn:Etl.
    + right. apply Z.leb_le in Etl. exists time, h, c.
      split; [reflexivity|]. split; [exact Hiv|]. split; [exact Etl|].
      destruct (endGame_state (ct_score c) (set_now time w)) as (_ & _ & Eh & _).
      assert (E : highScore (setTimeLeft 0 (endGame (ct_score c) (set_now time w)))
                  = highScore (endGame (ct_score c) (set_now time w)))
        by (destruct (endGame (ct_score c) (set_now time w)); reflexivity).
      rewrite E, Eh. destruct w; reflexivity.
    + left. destruct w; reflexivity.
Qed.

(** X4.  No event lowers the best score, and only the clock tick that ends a round
    can change it. *)
Theorem best_score_never_decreases (w w' : World) (e : Event)
    (Hr : reachable w) (Hs : step e w = Some w') :
  highScore w <= highScore w' /\
  (highScore w' <> highScore w ->
   isClockTick e = true /\ timeLeft w <= 1 /\ isPlaying w' = false).
Proof.
  pose proof (reachable_Inv w Hr) as HI.
  destruct (step_highScore e w w' HI Hs)
    as [E|(time & h & c & -> & Hiv & Htl & E)].
  - split; [lia|]. intros Hne. contradiction.
  - split; [lia|]. intros _. split; [reflexivity|]. split; [exact Htl|].
    apply step_tick_spec in Hs; [|exact HI].
    destruct Hs as (c0 & _ & _ & _ & _ & _ & ->).
    apply Z.leb_le in Htl. rewrite Htl.
    destruct (endGame_state (ct_score c0) (set_now time w)) as (Ep & _).
    destruct (endGame (ct_score c0) (set_now time w)). exact Ep.
Qed.

Lemma best_score_never_decreases_witness :
  reachable afterFirstRound /\
  step secondStart afterFirstRound = Some afterSecondStart /\
  highScore afterFirstRound <= highScore afterSecondStart.
Proof.
  split; [exact afterFirstRound_reachable|].
  split; [exact secondStart_runs|].
  exact (proj1 (best_score_never_decreases afterFirstRound afterSecondStart
                  secondStart afterFirstRound_reachable secondStart_runs)).
Defined.

(** X5.  The component never plays more bonks than it has shown moles, and the
    score never exceeds the number of bonks played. *)
Theorem bonks_within_pops (w : World) (Hr : reachable w) :
  (bonks w + length (visible (moles w)) <= pops w)%nat /\
  score w <= Z.of_nat (bonks w).
Proof.
  destruct (reachable_Counters w Hr) as [_ _ _ _ H5 H6]. auto.
Qed.

Lemma bonks_within_pops_witness :
  reachable afterFirstRound /\
  bonks afterFirstRound = 1%nat /\ pops afterFirstRound = 61%nat /\
  score afterFirstRound <= Z.of_nat (bonks afterFirstRound).
Proof.
  split; [exact afterFirstRound_reachable|].
  split; [reflexivity|]. split; [reflexivity|].
  exact (proj2 (bonks_within_pops afterFirstRound afterFirstRound_reachable)).
Defined.

(** ** What is on screen *)

(** X6.  While a round runs the Start button is replaced by the disabled one and
    neither panel is shown.  While none runs the Start button is offered and
    exactly one panel is shown: the instructions before the first round (no
    sound has been played yet), "Game Over!" after a round.  The figure shown
    as high score is never below the score nor below the stored best
    score. *)
Theorem screen_follows_phase (w : World) (Hr : reachable w) :
  (isPlaying w = true ->
   v_startButton (view w) = false /\ v_instructions (view w) = false /\
   v_gameOver (view w) = false) /\
  (isPlaying w = false ->
   v_startButton (view w) = true /\
   xorb (v_instructions (view w)) (v_gameOver (view w)) = true) /\
  (v_instructions (view w) = true -> cues w = []) /\
  v_score (view w) <= v_highScore (view w) /\
  highScore w <= v_highScore (view w).
Proof.
  pose proof (reachable_Inv w Hr) as HI.
  destruct (reachable_Counters w Hr) as [_ _ _ H4 _ _].
  rewrite <- (inv_phase w HI) in H4.
  unfold view. cbn [v_startButton v_instructions v_gameOver v_score v_highScore].
  split; [|split; [|split; [|split]]].
  - intros ->. auto.
  - intros Hp. rewrite Hp. split; [reflexivity|].
    destruct (H4 Hp) as [(Et & Es & _)|Et]; rewrite Et.
    + rewrite Es. reflexivity.
    + unfold GAME_DURATION. reflexivity.
  - intros Hi. apply andb_true_iff in Hi. destruct Hi as [Hi _].
    apply andb_true_iff in Hi. destruct Hi as [Hp Et].
    apply negb_true_iff in Hp. apply Z.eqb_eq in Et.
    destruct (H4 Hp) as [(_ & _ & Ec)|E0]; [exact Ec|].
    rewrite Et in E0. discriminate.
  - lia.
  - lia.
Qed.

Lemma screen_follows_phase_witness :
  reachable afterFirstRound /\ isPlaying afterFirstRound = false /\
  v_startButton (view afterFirstRound) = true /\
  v_gameOver (view afterFirstRound) = true /\
  v_instructions (view afterFirstRound) = false /\
  v_highScore (view afterFirstRound) = 1.
Proof.
  split; [exact afterFirstRound_reachable|]. split; [reflexivity|].
  destruct (proj1 (proj2 (screen_follows_phase afterFirstRound
                            afterFirstRound_reachable)) eq_refl) as [Hb _].
  split; [exact Hb|]. repeat split; reflexivity.
Defined.

(** ** Starting a round *)

(** X7.  A click on Start while no round is running starts one: the score is 0,
    thirty seconds are left, the best score is untouched, exactly one slot is
    UP (the slot now stored in [lastHoleRef]) and every other slot is IDLE,
    and one hide timer for that slot and one clock, first due a second
    later, are armed. *)
Theorem start_sets_up_the_round (w w' : World) (time : Z) (rnd : list Q)
    (Hr : reachable w) (Hp : isPlaying w = false)
    (Hs : step (ClickStart time rnd) w = Some w') :
  isPlaying w' = true /\ score w' = 0 /\ timeLeft w' = GAME_DURATION /\
  highScore w' = highScore w /\
  statusOf (lastHoleRef w') (moles w') = Some UP /\
  length (visible (moles w')) = 1%nat /\
  (forall m, In m (moles w') -> id m <> lastHoleRef w' -> status m = IDLE) /\
  exists t c,
    timeouts w' = [t] /\ intervals w' = [c] /\
    ht_holeIdx t = lastHoleRef w' /\ ct_due c = time + 1000.
Proof.
  pose proof (reachable_Inv w Hr) as HI.
  pose proof (Inv_step _ _ _ HI Hs) as HI'.
  destruct (first_hole_differs time rnd w w' HI Hp Hs) as (_ & Hup & _).
  pose proof (inv_timers w HI) as Ht. rewrite <- (inv_phase w HI), Hp in Ht.
  destruct Ht as [Eto Eiv].
  apply step_start_spec in Hs; [|exact Hp].
  destruct Hs as (_ & r & rnd' & h & _ & _ & _ & _ & ->).
  split; [destruct w; reflexivity|]. split; [destruct w; reflexivity|].
  split; [destruct w; reflexivity|]. split; [destruct w; reflexivity|].
  split; [exact Hup|]. split; [|split].
  - assert (Hle : (length (visible (moles (startedWith h
                     (randomTime MIN_PEEP_TIME MAX_PEEP_TIME r)
                     (set_now time w)))) <= 1)%nat).
    { apply (filter_at_most_one isUp
               (lastHoleRef (startedWith h
                  (randomTime MIN_PEEP_TIME MAX_PEEP_TIME r) (set_now time w)))).
      - now apply Inv_NoDup.
      - intros m Hin Hu. apply isUp_true in Hu.
        apply (inv_shown _ HI' m Hin). rewrite Hu. discriminate. }
    apply statusOf_some in Hup. destruct Hup as (m & Hin & _ & Hu).
    assert (Hv : In m (visible (moles (startedWith h
                   (randomTime MIN_PEEP_TIME MAX_PEEP_TIME r)
                   (set_now time w))))).
    { apply filter_In. split; [exact Hin|now apply isUp_true]. }
    destruct (visible _); [contradiction|]. simpl in *. lia.
  - intros m Hin Hne. destruct (status m) eqn:Es; [reflexivity| |];
      exfalso; apply Hne; apply (inv_shown _ HI' m Hin); rewrite Es; discriminate.
  - destruct w. world_cbv. subst. simpl. eexists. eexists.
    repeat split; reflexivity.
Qed.

Lemma start_sets_up_the_round_witness :
  reachable afterFirstRound /\ isPlaying afterFirstRound = false /\
  step secondStart afterFirstRound = Some afterSecondStart /\
  score afterSecondStart = 0 /\ timeLeft afterSecondStart = GAME_DURATION /\
  length (visible (moles afterSecondStart)) = 1%nat.
Proof.
  split; [exact afterFirstRound_reachable|]. split; [reflexivity|].
  split; [exact secondStart_runs|].
  destruct (start_sets_up_the_round afterFirstRound afterSecondStart 40000
              [85 # 1024; 0; 1 # 2]%Q afterFirstRound_reachable eq_refl
              secondStart_runs) as (_ & H1 & H2 & _ & _ & H3 & _).
  split; [exact H1|]. split; [exact H2|exact H3].
Defined.

Lemma started_is_running (w w' : World) (time : Z) (rnd : list Q) :
  step (ClickStart time rnd) w = Some w' ->
  isPlaying w' = true /\ now w' = time.
Proof.
  intros Hs. destruct (isPlaying w) eqn:Hp.
  - unfold step in Hs. cbn [eventTime] in Hs.
    destruct (time <? now w); [discriminate|].
    rewrite startGame_running in Hs by (destruct w; exact Hp).
    injection Hs as <-. destruct w; auto.
  - apply step_start_spec in Hs; [|exact Hp].
    destruct Hs as (_ & r & rnd' & h & _ & _ & _ & _ & ->).
    destruct w; auto.
Qed.

(** X8.  A second click on Start is ignored: after any click on Start that was
    handled, a further click only lets time pass.  It draws no random
    number, arms no timer and resets nothing. *)
Theorem start_twice_is_once (w w1 : World) (time1 time2 : Z)
    (rnd1 rnd2 : list Q)
    (Hs : step (ClickStart time1 rnd1) w = Some w1) (Ht : time1 <= time2) :
  step (ClickStart time2 rnd2) w1 = Some (set_now time2 w1).
Proof.
  destruct (started_is_running w w1 time1 rnd1 Hs) as [Hp Hn].
  unfold step. cbn [eventTime]. rewrite Hn.
  destruct (time2 <? time1) eqn:E; [apply Z.ltb_lt in E; lia|].
  apply startGame_running. destruct w1; exact Hp.
Qed.

Lemma start_twice_is_once_witness :
  step (ClickStart 0 [85 # 1024; 0]%Q) initialWorld = Some afterFirstStart /\
  0 <= 50 /\
  step (ClickStart 50 []) afterFirstStart = Some (set_now 50 afterFirstStart).
Proof.
  assert (Hs : step (ClickStart 0 [85 # 1024; 0]%Q) initialWorld
               = Some afterFirstStart) by (vm_compute; reflexivity).
  assert (Ht : 0 <= 50) by lia.
  split; [exact Hs|]. split; [exact Ht|].
  exact (start_twice_is_once initialWorld afterFirstStart 0 50
           [85 # 1024; 0]%Q [] Hs Ht).
Defined.

(** ** How long a mole stays up *)

Lemma peepTo_timeouts (hole time : Z) (pm : list MoleData) (w : World) :
  timeouts (peepTo hole time pm w)
  = timeouts w ++ [mkHide (nextTimer w) (now w + time) hole pm].
Proof.
  destruct w. reflexivity.
Qed.

(** X9.  Whenever a mole is shown, by a click on Start or by the hide timer of
    the mole before, the hide timer armed for it is due between
    MIN_PEEP_TIME and MAX_PEEP_TIME milliseconds later. *)
Theorem mole_stays_up_400_to_1000 (w : World) (Hr : reachable w) :
  (forall time rnd w',
      isPlaying w = false -> validEvent (ClickStart time rnd) = true ->
      step (ClickStart time rnd) w = Some w' ->
      exists t, timeouts w' = [t] /\
                time + MIN_PEEP_TIME <= ht_due t <= time + MAX_PEEP_TIME) /\
  (forall time h rnd w',
      validEvent (HideFires time h rnd) = true ->
      step (HideFires time h rnd) w = Some w' ->
      exists t, timeouts w' = [t] /\
                time + MIN_PEEP_TIME <= ht_due t <= time + MAX_PEEP_TIME).
Proof.
  pose proof (reachable_Inv w Hr) as HI.
  assert (Hmm : MIN_PEEP_TIME <= MAX_PEEP_TIME)
    by (unfold MIN_PEEP_TIME, MAX_PEEP_TIME; lia).
  assert (Hm0 : 0 <= MIN_PEEP_TIME) by (unfold MIN_PEEP_TIME; lia).
  assert (Hm53 : MAX_PEEP_TIME <= 2 ^ 53) by (unfold MAX_PEEP_TIME; lia).
  split.
  - intros time rnd w' Hp Hv Hs.
    pose proof (inv_timers w HI) as Ht. rewrite <- (inv_phase w HI), Hp in Ht.
    destruct Ht as [Eto _].
    apply step_start_spec in Hs; [|exact Hp].
    destruct Hs as (_ & r & rnd' & hole & -> & _ & _ & _ & ->).
    unfold validEvent in Hv. simpl in Hv. apply andb_true_iff in Hv.
    destruct Hv as [Hr0 _].
    pose proof (randomTime_bounds _ _ r Hm0 Hmm Hm53 Hr0) as Hb.
    exists (mkHide (nextTimer w)
              (time + randomTime MIN_PEEP_TIME MAX_PEEP_TIME r) hole (moles w)).
    split.
    + destruct w. world_cbv. subst. reflexivity.
    + simpl. lia.
  - intros time h rnd w' Hv Hs.
    apply step_hide_spec in Hs; [|exact HI].
    destruct Hs as (t & r & rnd' & hole & _ & _ & _ & _ & _ & -> & _ & _ & ->).
    unfold validEvent in Hv. simpl in Hv. apply andb_true_iff in Hv.
    destruct Hv as [Hr0 _].
    pose proof (randomTime_bounds _ _ r Hm0 Hmm Hm53 Hr0) as Hb.
    exists (mkHide (nextTimer w)
              (time + randomTime MIN_PEEP_TIME MAX_PEEP_TIME r) hole
              (ht_moles t)).
    split.
    + rewrite peepTo_timeouts. destruct w. reflexivity.
    + simpl. lia.
Qed.

Lemma mole_stays_up_400_to_1000_witness :
  reachable afterFirstRound /\ isPlaying afterFirstRound = false /\
  validEvent secondStart = true /\
  exists t, timeouts afterSecondStart = [t] /\
            40000 + MIN_PEEP_TIME <= ht_due t <= 40000 + MAX_PEEP_TIME.
Proof.
  split; [exact afterFirstRound_reachable|]. split; [reflexivity|].
  split; [reflexivity|].
  exact (proj1 (mole_stays_up_400_to_1000 afterFirstRound
                  afterFirstRound_reachable)
           40000 [85 # 1024; 0; 1 # 2]%Q afterSecondStart eq_refl eq_refl
           secondStart_runs).
Defined.

(** ** Unmounting *)

Lemma unmountCleanup_fields (w : World) :
  observe (unmountCleanup w) = observe w /\
  timeouts (unmountCleanup w)
  = match peepTimerRef w with
    | Some h => if h =? 0 then timeouts w
                else filter (fun t => negb (ht_id t =? h)) (timeouts w)
    | None => timeouts w
    end /\
  intervals (unmountCleanup w)
  = match gameTimerRef w with
    | Some h => if h =? 0 then intervals w
                else filter (fun c => negb (ct_id c =? h)) (intervals w)
    | None => intervals w
    end /\
  now (unmountCleanup w) = now w.
Proof.
  destruct w as [ms sc hs tl ip lh ipr [g|] [p|] tos ivs nt nw cs];
    unfold unmountCleanup, whenTruthy; world_cbv;
    repeat (match goal with
            | |- context [if ?b then _ else _] => destruct b
            end; world_cbv);
    repeat split; reflexivity.
Qed.

(** X10.  The cleanup run at unmount leaves no timer armed, whatever the game was
    doing, so that no callback of the component runs afterwards; it changes
    nothing of the state. *)
Theorem unmount_disarms (w : World) (Hr : reachable w) :
  timeouts (unmountCleanup w) = [] /\ intervals (unmountCleanup w) = [] /\
  observe (unmountCleanup w) = observe w /\
  (forall time h rnd, step (HideFires time h rnd) (unmountCleanup w) = None) /\
  (forall time h, step (ClockTick time h) (unmountCleanup w) = None).
Proof.
  pose proof (reachable_Inv w Hr) as HI.
  destruct (unmountCleanup_fields w) as (Eo & Eto & Eiv & _).
  assert (H : timeouts (unmountCleanup w) = [] /\ intervals (unmountCleanup w) = []).
  { rewrite Eto, Eiv. pose proof (inv_timers w HI) as Ht.
    destruct (isPlayingRef w).
    - destruct Ht as (t & c0 & -> & -> & -> & -> & _ & [Ht _] & [Hc _] & _ & _).
      assert (E1 : (ht_id t =? 0) = false) by (apply Z.eqb_neq; lia).
      assert (E2 : (ct_id c0 =? 0) = false) by (apply Z.eqb_neq; lia).
      rewrite E1, E2. simpl. rewrite !Z.eqb_refl. simpl. auto.
    - destruct Ht as [-> ->].
      destruct (peepTimerRef w) as [h|], (gameTimerRef w) as [g|];
        repeat match goal with |- context [if ?b then _ else _] => destruct b end;
        simpl; auto. }
  destruct H as [H1 H2].
  split; [exact H1|]. split; [exact H2|]. split; [exact Eo|]. split.
  - intros time h rnd. unfold step. cbn [eventTime].
    destruct (time <? now (unmountCleanup w)); [reflexivity|].
    change (timeouts (set_now time (unmountCleanup w)))
      with (timeouts (unmountCleanup w)).
    rewrite H1. reflexivity.
  - intros time h. unfold step. cbn [eventTime].
    destruct (time <? now (unmountCleanup w)); [reflexivity|].
    change (intervals (set_now time (unmountCleanup w)))
      with (intervals (unmountCleanup w)).
    rewrite H2. reflexivity.
Qed.

Lemma unmount_disarms_witness :
  reachable afterFirstHit /\ length (timeouts afterFirstHit) = 1%nat /\
  timeouts (unmountCleanup afterFirstHit) = [] /\
  intervals (unmountCleanup afterFirstHit) = [] /\
  step (HideFires 450 1 [171 # 1024; 1 # 4]%Q) (unmountCleanup afterFirstHit) = None.
Proof.
  split; [exact afterFirstHit_reachable|]. split; [reflexivity|].
  destruct (unmount_disarms afterFirstHit afterFirstHit_reachable)
    as (H1 & H2 & _ & H3 & _).
  split; [exact H1|]. split; [exact H2|]. apply H3.
Defined.

(** ** More on the random helpers *)

(** X11.  When no slot of the board differs from the stored hole (an empty board,
    or a single slot that was shown last), [randomHole] never returns,
    whatever the draws. *)
Theorem randomHole_needs_another_slot (currentMoles : list MoleData)
    (w : World)
    (H : forall m, In m currentMoles -> id m = lastHoleRef w) :
  forall rnd, randomHole currentMoles rnd w = None.
Proof.
  induction rnd as [|r rnd IH]; [reflexivity|].
  rewrite randomHole_unfold.
  destruct (pick currentMoles r) as [h|] eqn:Ep; [|reflexivity].
  apply pick_in in Ep. apply in_map_iff in Ep. destruct Ep as (m & <- & Hin).
  rewrite (H m Hin), Z.eqb_refl. exact IH.
Qed.

Lemma randomHole_needs_another_slot_witness :
  (forall m, In m [mkMole 0 IDLE] -> id m = lastHoleRef afterFirstStart) /\
  randomHole [mkMole 0 IDLE] [0; 1 # 2; 1 # 4]%Q afterFirstStart = None.
Proof.
  assert (H : forall m, In m [mkMole 0 IDLE] -> id m = lastHoleRef afterFirstStart).
  { intros m [<-|[]]. reflexivity. }
  split; [exact H|].
  exact (randomHole_needs_another_slot [mkMole 0 IDLE] afterFirstStart H
           [0; 1 # 2; 1 # 4]%Q).
Defined.

(** X12.  On a board with the six ids of the game [randomHole] returns only ids of
    the board, and every slot other than the stored one is returned for some
    draw. *)
Theorem randomHole_reaches_every_other_slot (currentMoles : list MoleData)
    (w : World) (Hids : map id currentMoles = boardIds) :
  (forall rnd hole w',
      randomHole currentMoles rnd w = Some (hole, w') -> In hole boardIds) /\
  (forall k, In k boardIds -> k <> lastHoleRef w ->
     exists r, validDraw r = true /\
               randomHole currentMoles [r] w = Some (k, set_lastHoleRef k w)).
Proof.
  split.
  - intros rnd hole w' H. apply randomHole_spec in H.
    destruct H as (_ & _ & Hin). now rewrite Hids in Hin.
  - intros k Hk Hne.
    destruct (pick_slot currentMoles k Hids Hk) as (r & _ & Hr & Hp).
    exists r. split; [exact Hr|].
    rewrite randomHole_unfold, Hp. apply Z.eqb_neq in Hne. now rewrite Hne.
Qed.

Lemma randomHole_reaches_every_other_slot_witness :
  map id freshBoard = boardIds /\
  exists r, validDraw r = true /\
            randomHole freshBoard [r] afterFirstStart
            = Some (4, set_lastHoleRef 4 afterFirstStart).
Proof.
  split; [reflexivity|].
  apply (proj2 (randomHole_reaches_every_other_slot freshBoard afterFirstStart
                  eq_refl) 4).
  - simpl. tauto.
  - discriminate.
Defined.

(** X13.  With integer bounds [0 <= min <= max < 2^26], every integer from
    [min] to [max] is the duration [randomTime] returns for some draw in
    [0, 1) that is a double: [drawFor min max k] for the duration [k]. *)
Theorem every_duration_can_come (min max k : Z)
    (H0 : 0 <= min) (Hk : min <= k <= max) (Hb : max < 2 ^ 26) :
  isDouble (drawFor min max k) = true /\
  validDraw (drawFor min max k) = true /\
  randomTime min max (drawFor min max k) = k.
Proof.
  apply drawFor_ok; lia.
Qed.

Lemma every_duration_can_come_witness :
  0 <= MIN_PEEP_TIME /\ MIN_PEEP_TIME <= 777 <= MAX_PEEP_TIME /\
  MAX_PEEP_TIME < 2 ^ 26 /\
  isDouble (drawFor MIN_PEEP_TIME MAX_PEEP_TIME 777) = true /\
  validDraw (drawFor MIN_PEEP_TIME MAX_PEEP_TIME 777) = true /\
  randomTime MIN_PEEP_TIME MAX_PEEP_TIME
    (drawFor MIN_PEEP_TIME MAX_PEEP_TIME 777) = 777.
Proof.
  assert (H0 : 0 <= MIN_PEEP_TIME) by (unfold MIN_PEEP_TIME; lia).
  assert (H : MIN_PEEP_TIME <= 777 <= MAX_PEEP_TIME)
    by (unfold MIN_PEEP_TIME, MAX_PEEP_TIME; lia).
  assert (Hb : MAX_PEEP_TIME < 2 ^ 26) by (unfold MAX_PEEP_TIME; lia).
  split; [exact H0|]. split; [exact H|]. split; [exact Hb|].
  exact (every_duration_can_come MIN_PEEP_TIME MAX_PEEP_TIME 777 H0 H Hb).
Defined.

(** ** More on hits *)

Lemma handleWhack_not_up (w : World) (hitId : Z) (isTrusted : bool) :
  Inv w -> statusOf hitId (moles w) <> Some UP ->
  handleWhack hitId isTrusted w = w.
Proof.
  intros HI Hs. rewrite handleWhack_eq.
  destruct (negb isTrusted || negb (isPlayingRef w)); [reflexivity|].
  assert (Hn : forall m, In m (moles w) -> validWhack hitId m = false).
  { intros m Hin. apply not_true_is_false. intros Hv.
    apply validWhack_true in Hv. destruct Hv as [<- Hup]. apply Hs.
    rewrite <- Hup. apply statusOf_in; [now apply Inv_NoDup|exact Hin]. }
  apply whack_none in Hn. destruct Hn as [Hm Hf].
  unfold credited. rewrite Hf. destruct w. world_cbv. simpl in Hm.
  rewrite Hm, app_nil_r, Z.add_0_r. reflexivity.
Qed.

Lemma statusOf_whack_not_up (hitId : Z) (ms : list MoleData) :
  statusOf hitId (map (whack hitId) ms) <> Some UP.
Proof.
  rewrite statusOf_map.
  - destruct (find (fun m0 => id m0 =? hitId) ms) as [m|] eqn:Ef; [|discriminate].
    apply find_id_some in Ef. destruct Ef as [_ Hid]. simpl. unfold whack.
    destruct (validWhack hitId m) eqn:Ev; [discriminate|].
    intros H. injection H as Hup.
    assert (Hv : validWhack hitId m = true) by now apply validWhack_true.
    congruence.
  - intros m. unfold whack. destruct (validWhack hitId m); reflexivity.
Qed.

(** X14.  One appearance is credited once: after a trusted hit on a slot, a second
    hit on the same slot changes nothing, whether the first was credited or
    not. *)
Theorem second_hit_changes_nothing (w : World) (hitId : Z) (isTrusted : bool)
    (Hr : reachable w) :
  handleWhack hitId isTrusted (handleWhack hitId true w)
  = handleWhack hitId true w.
Proof.
  pose proof (reachable_Inv w Hr) as HI.
  apply handleWhack_not_up; [now apply Inv_handleWhack|].
  destruct (isPlayingRef w) eqn:Hp.
  - destruct (handleWhack_accepted hitId w Hp) as (_ & -> & _).
    apply statusOf_whack_not_up.
  - assert (E : handleWhack hitId true w = w)
      by (rewrite handleWhack_eq, Hp; reflexivity).
    rewrite E. intros Hup. apply statusOf_some in Hup.
    destruct Hup as (m & Hin & _ & Hs).
    destruct (inv_shown w HI m Hin) as [_ E']; [rewrite Hs; discriminate|].
    congruence.
Qed.

Lemma second_hit_changes_nothing_witness :
  reachable afterFirstStart /\
  score (handleWhack 0 true afterFirstStart) = 1 /\
  handleWhack 0 true (handleWhack 0 true afterFirstStart)
  = handleWhack 0 true afterFirstStart.
Proof.
  split; [exact afterFirstStart_reachable|].
  split; [vm_compute; reflexivity|].
  exact (second_hit_changes_nothing afterFirstStart 0 true
           afterFirstStart_reachable).
Defined.

(** X15.  A hit that names no slot of the board changes nothing. *)
Theorem hit_off_the_board_is_noop (w : World) (hitId : Z) (isTrusted : bool)
    (Hr : reachable w) (Hid : ~ In hitId [0; 1; 2; 3; 4; 5]) :
  handleWhack hitId isTrusted w = w.
Proof.
  pose proof (reachable_Inv w Hr) as HI.
  apply handleWhack_not_up; [exact HI|].
  intros Hs. apply statusOf_some in Hs. destruct Hs as (m & Hin & <- & _).
  apply Hid. change [0; 1; 2; 3; 4; 5] with boardIds.
  rewrite <- (inv_ids w HI). now apply in_map.
Qed.

Lemma hit_off_the_board_is_noop_witness :
  reachable afterFirstStart /\ ~ In 6 [0; 1; 2; 3; 4; 5] /\
  handleWhack 6 true afterFirstStart = afterFirstStart.
Proof.
  assert (H : ~ In 6 [0; 1; 2; 3; 4; 5]) by (simpl; intuition discriminate).
  split; [exact afterFirstStart_reachable|]. split; [exact H|].
  exact (hit_off_the_board_is_noop afterFirstStart 6 true
           afterFirstStart_reachable H).
Defined.

(** ** A round from start to end *)

Lemma stopped_run_observe (es : list Event) (w w1 : World) :
  Inv w -> isPlayingRef w = false -> noStart es = true ->
  run es w = Some w1 ->
  ticks es = 0%nat /\ isPlaying w1 = isPlaying w /\
  timeLeft w1 = timeLeft w /\ highScore w1 = highScore w.
Proof.
  revert w. induction es as [|e es IH]; intros w HI Hp Hes Hrun.
  - injection Hrun as <-. auto.
  - unfold noStart in Hes. simpl in Hes. apply andb_true_iff in Hes.
    destruct Hes as [He Hes]. apply negb_true_iff in He.
    simpl in Hrun. destruct (step e w) as [w'|] eqn:Es; [|discriminate].
    assert (Ht : isClockTick e = false).
    { destruct e; try reflexivity. apply step_tick_spec in Es; [|exact HI].
      destruct Es as (c & _ & _ & Hp' & _). congruence. }
    apply stopped_step in Es; [|assumption..]. subst w'.
    destruct (IH (set_now (eventTime e) w)) as (E1 & E2 & E3 & E4);
      [now apply Inv_set_now|destruct w; exact Hp|exact Hes|exact Hrun|].
    unfold ticks in *. simpl. rewrite Ht. split; [exact E1|].
    rewrite E2, E3, E4. destruct w; auto.
Qed.

(** An event that is neither a click on Start nor a clock tick leaves the
    clock, the phase and the best score alone. *)
Lemma step_keeps_clock (e : Event) (w w' : World) :
  Inv w -> isClickStart e = false -> isClockTick e = false ->
  step e w = Some w' ->
  timeLeft w' = timeLeft w /\ highScore w' = highScore w /\
  intervals w' = intervals w /\ isPlayingRef w' = isPlayingRef w.
Proof.
  intros HI Hc Ht Hs.
  destruct e as [time rnd|time hitId isTrusted|time h rnd|time h];
    try discriminate.
  - apply step_whack_spec in Hs. destruct Hs as [_ ->].
    rewrite handleWhack_eq.
    destruct (negb isTrusted || negb (isPlayingRef (set_now time w)));
      destruct w; auto.
  - apply step_hide_spec in Hs; [|exact HI].
    destruct Hs as (t & r & rnd' & hole & _ & _ & _ & _ & _ & _ & _ & _ & ->).
    destruct w; auto.
Qed.

Lemma ticked_fields (h : Z) (c : ClockTimer) (at_ : Z) (w : World) :
  let w' := set_intervals [mkClock h (ct_due c + 1000) (ct_score c)]
              (setTimeLeft (timeLeft w - 1) (set_now at_ w)) in
  timeLeft w' = timeLeft w - 1 /\ highScore w' = highScore w /\
  intervals w' = [mkClock h (ct_due c + 1000) (ct_score c)] /\
  isPlayingRef w' = isPlayingRef w /\ now w' = at_.
Proof.
  destruct w. simpl. auto.
Qed.

Lemma expired_fields (c : Z) (at_ : Z) (w : World) :
  let w' := setTimeLeft 0 (endGame c (set_now at_ w)) in
  isPlaying w' = false /\ isPlayingRef w' = false /\ timeLeft w' = 0 /\
  highScore w' = Z.max (highScore w) c.
Proof.
  destruct (endGame_state c (set_now at_ w)) as (Ep & _ & Eh & _).
  destruct (endGame_refs c (set_now at_ w)) as (Er & _).
  assert (E : highScore (set_now at_ w) = highScore w) by (destruct w; reflexivity).
  rewrite E in Eh.
  destruct (endGame c (set_now at_ w)). simpl in *. auto.
Qed.

(** From a running world, along events none of which is a click on Start:
    either fewer ticks than seconds left have come and the round still runs,
    or exactly as many and the round is over. *)
Lemma round_progress (es : list Event) (w w1 : World) (c : ClockTimer) :
  Inv w -> isPlayingRef w = true -> intervals w = [c] ->
  noStart es = true -> run es w = Some w1 ->
  (Z.of_nat (ticks es) < timeLeft w /\ isPlaying w1 = true /\
   timeLeft w1 = timeLeft w - Z.of_nat (ticks es) /\
   highScore w1 = highScore w)
  \/
  (Z.of_nat (ticks es) = timeLeft w /\ isPlaying w1 = false /\
   timeLeft w1 = 0 /\ highScore w1 = Z.max (highScore w) (ct_score c)).
Proof.
  revert w c. induction es as [|e es IH]; intros w c HI Hp Hiv Hes Hrun.
  - injection Hrun as <-. left. pose proof (inv_clock w HI Hp).
    unfold ticks. simpl. rewrite (inv_phase w HI).
    repeat split; try assumption; lia.
  - unfold noStart in Hes. simpl in Hes. apply andb_true_iff in Hes.
    destruct Hes as [He Hes]. apply negb_true_iff in He.
    simpl in Hrun. destruct (step e w) as [w'|] eqn:Es; [|discriminate].
    pose proof (Inv_step _ _ _ HI Es) as HI'.
    destruct (isClockTick e) eqn:Ht.
    + destruct e as [| | |time h]; try discriminate.
      apply step_tick_spec in Es; [|exact HI].
      destruct Es as (c0 & Hiv0 & _ & _ & _ & _ & Ew).
      rewrite Hiv in Hiv0. injection Hiv0 as <-.
      pose proof (inv_clock w HI Hp) as Hge.
      unfold ticks in *. cbn [filter isClockTick length].
      destruct (timeLeft w <=? 1) eqn:Etl.
      * apply Z.leb_le in Etl. subst w'.
        destruct (expired_fields (ct_score c) time w) as (Ep & Er & E0 & Eh).
        destruct (stopped_run_observe es _ w1 HI' Er Hes Hrun)
          as (Et & E1 & E2 & E3).
        right. unfold ticks in Et. rewrite Et. split; [lia|].
        split; [congruence|]. split; congruence.
      * apply Z.leb_gt in Etl. subst w'.
        destruct (ticked_fields h c time w) as (E1 & E2 & E3 & E4 & _).
        destruct (IH _ (mkClock h (ct_due c + 1000) (ct_score c)) HI')
          as [(A1 & A2 & A3 & A4)|(A1 & A2 & A3 & A4)];
          try assumption; try congruence.
        -- left. rewrite E1 in A1, A3. rewrite E2 in A4.
           repeat split; try assumption; lia.
        -- right. rewrite E1 in A1. rewrite E2 in A4. simpl in A4.
           repeat split; try assumption; lia.
    + destruct (step_keeps_clock e w w' HI He Ht Es) as (E1 & E2 & E3 & E4).
      unfold ticks in *. cbn [filter]. rewrite Ht.
      destruct (IH w' c HI') as [(A1 & A2 & A3 & A4)|(A1 & A2 & A3 & A4)];
        try assumption; try congruence.
      * left. rewrite E1 in A1, A3. rewrite E2 in A4. auto.
      * right. rewrite E1 in A1. rewrite E2 in A4. auto.
Qed.

Lemma started_clock (h time : Z) (w : World) :
  isPlaying w = false -> intervals w = [] ->
  let w' := startedWith h time w in
  isPlayingRef w' = true /\ timeLeft w' = GAME_DURATION /\
  highScore w' = highScore w /\
  intervals w' = [mkClock (nextTimer w + 1) (now w + 1000) (score w)].
Proof.
  intros Hp Hiv. destruct w. world_cbv. subst. simpl. auto.
Qed.

Lemma round_from_start (w0 w1 : World) (time : Z) (rnd : list Q)
    (es : list Event) :
  reachable w0 -> isPlaying w0 = false -> noStart es = true ->
  run (ClickStart time rnd :: es) w0 = Some w1 ->
  (Z.of_nat (ticks es) < GAME_DURATION /\ isPlaying w1 = true /\
   timeLeft w1 = GAME_DURATION - Z.of_nat (ticks es) /\
   highScore w1 = highScore w0)
  \/
  (Z.of_nat (ticks es) = GAME_DURATION /\ isPlaying w1 = false /\
   timeLeft w1 = 0 /\ highScore w1 = Z.max (highScore w0) (score w0)).
Proof.
  intros Hr Hp Hes Hrun. pose proof (reachable_Inv w0 Hr) as HI.
  simpl in Hrun.
  destruct (step (ClickStart time rnd) w0) as [w'|] eqn:Es; [|discriminate].
  pose proof (Inv_step _ _ _ HI Es) as HI'.
  pose proof (inv_timers w0 HI) as Ht. rewrite <- (inv_phase w0 HI), Hp in Ht.
  destruct Ht as [_ Eiv].
  apply step_start_spec in Es; [|exact Hp].
  destruct Es as (_ & r & rnd' & h & _ & _ & _ & _ & ->).
  destruct (started_clock h (randomTime MIN_PEEP_TIME MAX_PEEP_TIME r)
              (set_now time w0)) as (E1 & E2 & E3 & E4);
    [destruct w0; exact Hp|destruct w0; exact Eiv|].
  assert (Eh : highScore (set_now time w0) = highScore w0)
    by (destruct w0; reflexivity).
  assert (Esc : score (set_now time w0) = score w0)
    by (destruct w0; reflexivity).
  destruct (round_progress es _ w1 _ HI' E1 E4 Hes Hrun)
    as [(A1 & A2 & A3 & A4)|(A1 & A2 & A3 & A4)].
  - left. rewrite E2 in A1, A3. rewrite E3, Eh in A4. auto.
  - right. rewrite E2 in A1. rewrite E3, Eh in A4. cbn [ct_score] in A4.
    rewrite ?Esc in A4. auto.
Qed.

(** X16.  A round lasts exactly GAME_DURATION clock ticks.  After a click on Start
    and any events that follow (no further click on Start), the seconds left
    are GAME_DURATION less the ticks so far while fewer than GAME_DURATION
    have come, and the round is running; the tick that makes GAME_DURATION
    ends it with 0 seconds left; and no tick comes after that. *)
Theorem round_lasts_thirty_ticks (w0 w1 : World) (time : Z) (rnd : list Q)
    (es : list Event)
    (Hr : reachable w0) (Hp : isPlaying w0 = false)
    (Hes : noStart es = true)
    (Hrun : run (ClickStart time rnd :: es) w0 = Some w1) :
  Z.of_nat (ticks es) <= GAME_DURATION /\
  (Z.of_nat (ticks es) < GAME_DURATION ->
   isPlaying w1 = true /\ timeLeft w1 = GAME_DURATION - Z.of_nat (ticks es)) /\
  (Z.of_nat (ticks es) = GAME_DURATION ->
   isPlaying w1 = false /\ timeLeft w1 = 0).
Proof.
  destruct (round_from_start w0 w1 time rnd es Hr Hp Hes Hrun)
    as [(A1 & A2 & A3 & _)|(A1 & A2 & A3 & _)].
  - split; [lia|]. split; [auto|]. intros E. lia.
  - split; [lia|]. split; [intros E; lia|auto].
Qed.

Lemma round_lasts_thirty_ticks_witness :
  reachable initialWorld /\ isPlaying initialWorld = false /\
  run firstRound initialWorld = Some afterFirstRound /\
  Z.of_nat (ticks (tl firstRound)) = GAME_DURATION /\
  isPlaying afterFirstRound = false /\ timeLeft afterFirstRound = 0.
Proof.
  assert (Hes : noStart (tl firstRound) = true) by (vm_compute; reflexivity).
  assert (Et : Z.of_nat (ticks (tl firstRound)) = GAME_DURATION)
    by (vm_compute; reflexivity).
  split; [exact reach_init|]. split; [reflexivity|].
  split; [exact firstRound_runs|]. split; [exact Et|].
  exact (proj2 (proj2 (round_lasts_thirty_ticks initialWorld afterFirstRound 0
                         [85 # 1024; 0]%Q (tl firstRound) reach_init eq_refl Hes
                         firstRound_runs)) Et).
Defined.

(** X17.  What a whole round does to the best score: nothing until the last tick,
    which stores the larger of the best score before the round and the score
    that was on screen when Start was clicked.  The hits of the round itself
    do not enter it. *)
Theorem best_score_after_a_round (w0 w1 : World) (time : Z) (rnd : list Q)
    (es : list Event)
    (Hr : reachable w0) (Hp : isPlaying w0 = false)
    (Hes : noStart es = true)
    (Hrun : run (ClickStart time rnd :: es) w0 = Some w1) :
  (isPlaying w1 = true -> highScore w1 = highScore w0) /\
  (isPlaying w1 = false ->
   highScore w1 = Z.max (highScore w0) (score w0)).
Proof.
  destruct (round_from_start w0 w1 time rnd es Hr Hp Hes Hrun)
    as [(_ & A2 & _ & A4)|(_ & A2 & _ & A4)].
  - split; [auto|]. intros E. congruence.
  - split; [intros E; congruence|auto].
Qed.

Lemma best_score_after_a_round_witness :
  reachable initialWorld /\ isPlaying initialWorld = false /\
  run firstRound initialWorld = Some afterFirstRound /\
  isPlaying afterFirstRound = false /\
  highScore afterFirstRound
  = Z.max (highScore initialWorld) (score initialWorld).
Proof.
  assert (Hes : noStart (tl firstRound) = true) by (vm_compute; reflexivity).
  split; [exact reach_init|]. split; [reflexivity|].
  split; [exact firstRound_runs|]. split; [reflexivity|].
  exact (proj2 (best_score_after_a_round initialWorld afterFirstRound 0
                  [85 # 1024; 0]%Q (tl firstRound) reach_init eq_refl Hes
                  firstRound_runs) eq_refl).
Defined.

(** ** The clock cannot get stuck *)

Lemma ticksFrom_succ (time h : Z) (n : nat) :
  ticksFrom time h (S n) = ClockTick time h :: ticksFrom (time + 1000) h n.
Proof.
  unfold ticksFrom. cbn [seq map]. f_equal.
  - f_equal. lia.
  - rewrite <- seq_shift, map_map. apply map_ext. intros k. f_equal. lia.
Qed.

(** A pending clock that is due can tick, and the tick is handled. *)
Lemma tick_fires (w : World) (c : ClockTimer) (time : Z) :
  Inv w -> intervals w = [c] -> now w <= time -> ct_due c <= time ->
  step (ClockTick time (ct_id c)) w
  = Some (if timeLeft w <=? 1
          then setTimeLeft 0 (endGame (ct_score c) (set_now time w))
          else set_intervals [mkClock (ct_id c) (ct_due c + 1000) (ct_score c)]
                 (setTimeLeft (timeLeft w - 1) (set_now time w))).
Proof.
  intros HI Hiv Hn Hd.
  destruct (step (ClockTick time (ct_id c)) w) as [w'|] eqn:Es.
  - apply step_tick_spec in Es; [|exact HI].
    destruct Es as (c0 & Hiv0 & _ & _ & _ & _ & ->).
    rewrite Hiv in Hiv0. injection Hiv0 as <-. reflexivity.
  - exfalso. unfold step in Es. cbn [eventTime] in Es.
    destruct (time <? now w) eqn:E; [apply Z.ltb_lt in E; lia|].
    change (intervals (set_now time w)) with (intervals w) in Es.
    rewrite Hiv in Es. simpl find in Es. rewrite Z.eqb_refl in Es.
    destruct (time <? ct_due c) eqn:E'; [apply Z.ltb_lt in E'; lia|].
    discriminate.
Qed.

Lemma ticks_end_the_round (n : nat) :
  forall (w : World) (c : ClockTimer) (time : Z),
    Inv w -> isPlayingRef w = true -> intervals w = [c] ->
    timeLeft w = Z.of_nat (S n) -> now w <= time -> ct_due c <= time ->
    exists w1,
      run (ticksFrom time (ct_id c) (S n)) w = Some w1 /\
      isPlaying w1 = false /\ timeLeft w1 = 0.
Proof.
  induction n as [|n IH]; intros w c time HI Hp Hiv Htl Hn Hd;
    rewrite ticksFrom_succ; cbn [run];
    rewrite (tick_fires w c time HI Hiv Hn Hd).
  - assert (E : (timeLeft w <=? 1) = true) by (apply Z.leb_le; lia).
    rewrite E. unfold ticksFrom. simpl.
    destruct (expired_fields (ct_score c) time w) as (Ep & _ & E0 & _).
    eexists. split; [reflexivity|]. auto.
  - assert (E : (timeLeft w <=? 1) = false) by (apply Z.leb_gt; lia).
    rewrite E.
    destruct (ticked_fields (ct_id c) c time w) as (E1 & _ & E3 & E4 & E5).
    apply (IH _ (mkClock (ct_id c) (ct_due c + 1000) (ct_score c))
             (time + 1000)).
    + apply Inv_ticked; try assumption; try reflexivity. lia.
    + congruence.
    + exact E3.
    + rewrite E1. lia.
    + rewrite E5. lia.
    + simpl. lia.
Qed.

(** X18.  From any reachable world in which a round is running, letting the clock
    tick once a second, as many times as there are seconds left, ends the
    round: each tick is handled and the last one stops the game with 0
    seconds left. *)
Theorem clock_ends_the_round (w : World) (Hr : reachable w)
    (Hp : isPlaying w = true) :
  exists c,
    intervals w = [c] /\
    forall time, now w <= time -> ct_due c <= time ->
      exists w1,
        run (ticksFrom time (ct_id c) (Z.to_nat (timeLeft w))) w = Some w1 /\
        isPlaying w1 = false /\ timeLeft w1 = 0.
Proof.
  pose proof (reachable_Inv w Hr) as HI.
  rewrite (inv_phase w HI) in Hp.
  pose proof (inv_timers w HI) as Ht. rewrite Hp in Ht.
  destruct Ht as (t & c & _ & Hiv & _).
  exists c. split; [exact Hiv|]. intros time Hn Hd.
  pose proof (inv_clock w HI Hp) as Hge.
  destruct (Z.to_nat (timeLeft w)) as [|n] eqn:En; [lia|].
  apply ticks_end_the_round; try assumption. lia.
Qed.

Lemma clock_ends_the_round_witness :
  reachable afterFirstHit /\ isPlaying afterFirstHit = true /\
  exists c,
    intervals afterFirstHit = [c] /\
    forall time, now afterFirstHit <= time -> ct_due c <= time ->
      exists w1,
        run (ticksFrom time (ct_id c) (Z.to_nat (timeLeft afterFirstHit)))
          afterFirstHit = Some w1 /\
        isPlaying w1 = false /\ timeLeft w1 = 0.
Proof.
  split; [exact afterFirstHit_reachable|]. split; [reflexivity|].
  exact (clock_ends_the_round afterFirstHit afterFirstHit_reachable eq_refl).
Defined.

(** ** From one mole to the next *)

Lemma shown_alone (w : World) :
  Inv w -> statusOf (lastHoleRef w) (moles w) = Some UP ->
  length (visible (moles w)) = 1%nat /\
  forall m, In m (moles w) -> id m <> lastHoleRef w -> status m = IDLE.
Proof.
  intros HI Hup. split.
  - assert (Hle : (length (visible (moles w)) <= 1)%nat).
    { apply (filter_at_most_one isUp (lastHoleRef w)).
      - now apply Inv_NoDup.
      - intros m Hin Hu. apply isUp_true in Hu.
        apply (inv_shown w HI m Hin). rewrite Hu. discriminate. }
    apply statusOf_some in Hup. destruct Hup as (m & Hin & _ & Hu).
    assert (Hv : In m (visible (moles w))).
    { apply filter_In. split; [exact Hin|now apply isUp_true]. }
    destruct (visible (moles w)); [contradiction|]. simpl in *. lia.
  - intros m Hin Hne. destruct (status m) eqn:Es; [reflexivity| |];
      exfalso; apply Hne; apply (inv_shown w HI m Hin); rewrite Es; discriminate.
Qed.

(** X19.  When a hide timer fires during a round the next mole comes up in the
    same step: afterwards exactly one slot is UP, a slot other than the one
    just hidden, every other slot is IDLE, a new hide timer is armed for it,
    one more pop has been played, and the score and the clock are as they
    were. *)
Theorem hide_shows_the_next_mole (w w' : World) (time h : Z) (rnd : list Q)
    (Hr : reachable w) (Hs : step (HideFires time h rnd) w = Some w') :
  lastHoleRef w' <> lastHoleRef w /\
  statusOf (lastHoleRef w') (moles w') = Some UP /\
  length (visible (moles w')) = 1%nat /\
  (forall m, In m (moles w') -> id m <> lastHoleRef w' -> status m = IDLE) /\
  (exists t, timeouts w' = [t] /\ ht_holeIdx t = lastHoleRef w' /\
             ht_id t <> h) /\
  pops w' = S (pops w) /\ score w' = score w /\ timeLeft w' = timeLeft w /\
  isPlaying w' = true.
Proof.
  pose proof (reachable_Inv w Hr) as HI.
  pose proof (Inv_step _ _ _ HI Hs) as HI'.
  assert (Hup : lastHoleRef w' <> lastHoleRef w /\
                statusOf (lastHoleRef w') (moles w') = Some UP).
  { destruct (lastHoleRef_changes_by_showing _ w w' HI Hs) as [E|H];
      [|exact H].
    exfalso. apply step_hide_spec in Hs; [|exact HI].
    destruct Hs as (t & r & rnd' & hole & Hto & _ & Hp & _ & _ & _ & Hne & _ & ->).
    pose proof (inv_timers w HI) as Ht. rewrite Hp in Ht.
    destruct Ht as (t0 & c & Hto0 & _ & _ & _ & Hh & _).
    rewrite Hto in Hto0. injection Hto0 as <-.
    destruct w. world_cbv. congruence. }
  destruct Hup as [Hne Hup].
  destruct (shown_alone w' HI' Hup) as [H1 Hidle].
  split; [exact Hne|]. split; [exact Hup|]. split; [exact H1|].
  split; [exact Hidle|].
  apply step_hide_spec in Hs; [|exact HI].
  destruct Hs as (t & r & rnd' & hole & Hto & Hh & Hp & _ & _ & _ & _ & _ & ->).
  pose proof (inv_timers w HI) as Ht. rewrite Hp in Ht.
  destruct Ht as (t0 & c & Hto0 & _ & _ & _ & _ & Hlt & _).
  rewrite Hto in Hto0. injection Hto0 as <-.
  pose proof (inv_phase w HI) as Hph.
  split; [|split; [|split; [|split]]].
  - exists (mkHide (nextTimer w)
              (time + randomTime MIN_PEEP_TIME MAX_PEEP_TIME r) hole
              (ht_moles t)).
    split; [rewrite peepTo_timeouts; destruct w; reflexivity|].
    split; [destruct w; reflexivity|]. simpl. lia.
  - unfold pops. destruct w. world_cbv. rewrite count_snoc. simpl. lia.
  - destruct w; reflexivity.
  - destruct w; reflexivity.
  - destruct w. world_cbv. congruence.
Qed.

Lemma firstHide_runs : step firstHide afterFirstHit = Some afterFirstHide.
Proof. vm_compute. reflexivity. Qed.

Lemma hide_shows_the_next_mole_witness :
  reachable afterFirstHit /\
  step firstHide afterFirstHit = Some afterFirstHide /\
  statusOf 0 (moles afterFirstHit) = Some WHACKED /\
  lastHoleRef afterFirstHide <> lastHoleRef afterFirstHit /\
  statusOf (lastHoleRef afterFirstHide) (moles afterFirstHide) = Some UP /\
  length (visible (moles afterFirstHide)) = 1%nat.
Proof.
  split; [exact afterFirstHit_reachable|]. split; [exact firstHide_runs|].
  split; [reflexivity|].
  destruct (hide_shows_the_next_mole afterFirstHit afterFirstHide 450 1
              [171 # 1024; 1 # 4]%Q afterFirstHit_reachable firstHide_runs)
    as (H1 & H2 & H3 & _).
  split; [exact H1|]. split; [exact H2|exact H3].
Defined.
